(** * WordPress import pipeline: a shallow embedding

    The development models the content-migration scripts of the site
    (the WordPress importer in its two variants, the featured-image fixer)
    together with the Convex handlers they call ([posts.create],
    [posts.getBySlug], [categories.getBySlug], [categories.create]) and
    proves the properties the specification states about them.

    Conventions.
    - JavaScript strings are modelled as [string] (sequences of bytes).  The
      model is exact for ASCII text, which covers every valid slug;
      [toLowerCase] is the identity on bytes above 127, whereas JavaScript
      lower-cases a few non-ASCII letters (the Kelvin sign) to ASCII ones.
    - A field read as [item['k']?.[0]] is an [option string]; JavaScript
      truthiness of such a value is [truthy].
    - Asynchronous code is sequential in the scripts (every call is
      awaited), so it is modelled in a state-and-exception monad over the
      remote world; console output, sleeps and remote requests are recorded
      in a trace.
    - A plain object used as a map (the attachment index) is a [gmap].  The
      two agree on keys that are decimal numerals, as WordPress ids are;
      the theorems that depend on a lookup assume a numeral.
    - The items of module [Wxr] have category elements with attributes.
      Module [RawExport] has the elements without attributes as well, on
      which the parse of the importer throws. *)

From Stdlib Require Import String Ascii List Arith Lia Bool.
From stdpp Require Import gmap strings list fin_maps.

Local Open Scope string_scope.
Local Open Scope list_scope.

(* ===================================================================== *)
(** ** Strings *)
(* ===================================================================== *)

Module Str.

Definition code (c : ascii) : nat := nat_of_ascii c.

Definition hyphen : ascii := "-"%char.
Definition dquote : ascii := ascii_of_nat 34.

Definition is_hyphen (c : ascii) : bool := Ascii.eqb c hyphen.

(** [a-z0-9] *)
Definition is_lower_alnum (c : ascii) : bool :=
  ((97 <=? code c)%nat && (code c <=? 122)%nat)
  || ((48 <=? code c)%nat && (code c <=? 57)%nat).

Definition is_upper (c : ascii) : bool :=
  (65 <=? code c)%nat && (code c <=? 90)%nat.

Definition lower_char (c : ascii) : ascii :=
  if is_upper c then ascii_of_nat (code c + 32) else c.

(** [s.toLowerCase()] *)
Fixpoint toLowerCase (s : string) : string :=
  match s with
  | EmptyString => EmptyString
  | String c s' => String (lower_char c) (toLowerCase s')
  end.

(** JavaScript truthiness of a string: only the empty string is falsy. *)
Definition nonempty (s : string) : bool :=
  match s with EmptyString => false | String _ _ => true end.

(** Truthiness of [x?.[0]]: [undefined] and the empty string are falsy. *)
Definition truthy (o : option string) : bool :=
  match o with Some s => nonempty s | None => false end.

(** [o || d] for an optional string [o]. *)
Definition or_default (o : option string) (d : string) : string :=
  match o with
  | Some s => if nonempty s then s else d
  | None => d
  end.

(** [s.startsWith(p)] *)
Definition startsWith (p s : string) : bool := String.prefix p s.

(** [s.substring(0, n)] *)
Definition take (n : nat) (s : string) : string := String.substring 0 n s.

(** [xs.join(sep)] *)
Fixpoint join (sep : string) (xs : list string) : string :=
  match xs with
  | [] => EmptyString
  | [x] => x
  | x :: rest => x +:+ sep +:+ join sep rest
  end.

End Str.

(* ===================================================================== *)
(** ** Slug derivation

    [[
      const slug = categoryName
        .toLowerCase()
        .replace(/[^a-z0-9]+/g, '-')
        .replace(/^-+|-+$/g, '')
    ]] *)
(* ===================================================================== *)

Module Slug.
Import Str.

(** [.replace(/[^a-z0-9]+/g, '-')]: every maximal run of characters outside
    [a-z0-9] becomes one hyphen.  [in_run] tells that the previous character
    already belonged to the run being replaced. *)
Fixpoint collapse (in_run : bool) (s : string) : string :=
  match s with
  | EmptyString => EmptyString
  | String c s' =>
      if is_lower_alnum c then String c (collapse false s')
      else if in_run then collapse true s'
      else String hyphen (collapse true s')
  end.

(** The [^-+] alternative of [.replace(/^-+|-+$/g, '')]. *)
Fixpoint strip_leading (s : string) : string :=
  match s with
  | EmptyString => EmptyString
  | String c s' => if is_hyphen c then strip_leading s' else s
  end.

(** The [-+$] alternative: a run of hyphens that reaches the end of the
    string is removed. *)
Fixpoint strip_trailing (s : string) : string :=
  match s with
  | EmptyString => EmptyString
  | String c s' =>
      match strip_trailing s' with
      | EmptyString => if is_hyphen c then EmptyString else String c EmptyString
      | r => String c r
      end
  end.

Definition strip_hyphens (s : string) : string :=
  strip_trailing (strip_leading s).

Definition slugify (label : string) : string :=
  strip_hyphens (collapse false (toLowerCase label)).

(** *** Valid slugs: lower-case alphanumeric groups separated by single
    hyphens, with no hyphen at either end. *)

Definition is_slug_char (c : ascii) : bool := is_lower_alnum c || is_hyphen c.

Fixpoint all_slug_chars (s : string) : bool :=
  match s with
  | EmptyString => true
  | String c s' => is_slug_char c && all_slug_chars s'
  end.

Definition starts_with_hyphen (s : string) : bool :=
  match s with
  | String c _ => is_hyphen c
  | EmptyString => false
  end.

Fixpoint ends_with_hyphen (s : string) : bool :=
  match s with
  | EmptyString => false
  | String c EmptyString => is_hyphen c
  | String _ s' => ends_with_hyphen s'
  end.

Fixpoint has_double_hyphen (s : string) : bool :=
  match s with
  | String c (String d _ as s') =>
      (is_hyphen c && is_hyphen d) || has_double_hyphen s'
  | _ => false
  end.

Definition valid_slug (s : string) : bool :=
  all_slug_chars s
  && negb (starts_with_hyphen s)
  && negb (ends_with_hyphen s)
  && negb (has_double_hyphen s).

End Slug.

(* ===================================================================== *)
(** ** Regular expressions

    The scripts use two regular expressions on post content: the literal
    image pattern (written below with Q for the double quote character),
    and [new RegExp(oldUrl, 'g')] built from an image URL.  The matcher below is a backtracking matcher with the
    JavaScript priorities (leftmost match, greedy quantifiers) for patterns
    that are sequences of single-character atoms, each with an optional
    quantifier, plus capture marks. *)
(* ===================================================================== *)

Module Regex.
Import Str.

Inductive atom : Type :=
| AChar (c : ascii)            (** a literal character *)
| ADot                         (** [.]: any character but a line terminator *)
| ANoneOf (cs : list ascii).   (** [[^...]] *)

Inductive quant : Type := QOne | QOpt | QStar | QPlus.

Inductive item : Type :=
| Item (a : atom) (q : quant)
| Mark.                        (** a parenthesis of a capture group *)

Definition is_line_terminator (c : ascii) : bool :=
  (code c =? 10)%nat || (code c =? 13)%nat.

Definition atom_matches (a : atom) (c : ascii) : bool :=
  match a with
  | AChar d => Ascii.eqb c d
  | ADot => negb (is_line_terminator c)
  | ANoneOf cs => negb (existsb (Ascii.eqb c) cs)
  end.

(** Greedy [a*] followed by the continuation [k]: the longest run first,
    one character given back at each failure of [k]. *)
Fixpoint star {R : Type} (a : atom) (k : string -> option R) (s : string)
  : option R :=
  match s with
  | String c s' =>
      if atom_matches a c then
        match star a k s' with
        | Some r => Some r
        | None => k s
        end
      else k s
  | EmptyString => k s
  end.

(** [match_here its s] matches [its] at the start of [s]; the result is the
    rest of [s] after the match, with the rests seen at the marks. *)
Fixpoint match_here (its : list item) (s : string)
  : option (list string * string) :=
  match its with
  | [] => Some ([], s)
  | Mark :: its' =>
      match match_here its' s with
      | Some (ms, r) => Some (s :: ms, r)
      | None => None
      end
  | Item a q :: its' =>
      let k := match_here its' in
      match q with
      | QOne =>
          match s with
          | String c s' => if atom_matches a c then k s' else None
          | EmptyString => None
          end
      | QOpt =>
          match s with
          | String c s' =>
              if atom_matches a c then
                match k s' with
                | Some r => Some r
                | None => k s
                end
              else k s
          | EmptyString => k s
          end
      | QStar => star a k s
      | QPlus =>
          match s with
          | String c s' => if atom_matches a c then star a k s' else None
          | EmptyString => None
          end
      end
  end.

Definition matched_length (s r : string) : nat :=
  String.length s - String.length r.

(** The matches of a global regular expression, from left to right, as
    [exec] returns them in a loop: after a match the search resumes at its
    end.  [skip] counts the characters of the last match still to pass. *)
Fixpoint scan (its : list item) (skip : nat) (s : string)
  : list (list string) :=
  match skip with
  | S k =>
      match s with
      | String _ s' => scan its k s'
      | EmptyString => []
      end
  | 0 =>
      match match_here its s with
      | Some (ms, r) =>
          ms :: match s with
                | String _ s' => scan its (matched_length s r - 1) s'
                | EmptyString => []
                end
      | None =>
          match s with
          | String _ s' => scan its 0 s'
          | EmptyString => []
          end
      end
  end.

(** [s.replace(re, repl)] for a global [re] and a replacement text without
    [$]: every match, from left to right, is replaced; after an empty match
    one character is copied. *)
Fixpoint replace_all (its : list item) (repl : string) (skip : nat)
  (s : string) : string :=
  match skip with
  | S k =>
      match s with
      | String _ s' => replace_all its repl k s'
      | EmptyString => EmptyString
      end
  | 0 =>
      match match_here its s with
      | Some (_, r) =>
          repl +:+
          match s with
          | String c s' =>
              match matched_length s r with
              | 0 => String c (replace_all its repl 0 s')
              | S n => replace_all its repl n s'
              end
          | EmptyString => EmptyString
          end
      | None =>
          match s with
          | String c s' => String c (replace_all its repl 0 s')
          | EmptyString => EmptyString
          end
      end
  end.

(** *** Patterns built from text: [new RegExp(p, 'g')]

    Syntax characters of a pattern.  The fragment that is modelled has
    literal characters, [.], and one of [? * +] after an atom. *)

Definition is_quantifier (c : ascii) : bool :=
  existsb (Ascii.eqb c) ["?"; "*"; "+"]%char.

Definition backslash : ascii := ascii_of_nat 92.

Definition is_other_syntax (c : ascii) : bool :=
  existsb (Ascii.eqb c)
    (backslash :: ["^"; "$"; "|"; "("; ")"; "["; "]"; "{"; "}"]%char).

Definition quant_of (c : ascii) : quant :=
  if Ascii.eqb c "?" then QOpt
  else if Ascii.eqb c "*" then QStar
  else QPlus.

Definition atom_of (c : ascii) : atom :=
  if Ascii.eqb c "." then ADot else AChar c.

(** [compile p] is the item list of pattern [p], or [None] when [p] is
    outside the fragment (a quantifier with nothing to repeat, a quantifier
    after a quantifier, or any other syntax character). *)
Fixpoint compile (p : string) : option (list item) :=
  match p with
  | EmptyString => Some []
  | String c p' =>
      if is_quantifier c || is_other_syntax c then None
      else
        match p' with
        | String q p'' =>
            if is_quantifier q then
              match compile p'' with
              | Some its => Some (Item (atom_of c) (quant_of q) :: its)
              | None => None
              end
            else
              match compile p' with
              | Some its => Some (Item (atom_of c) QOne :: its)
              | None => None
              end
        | EmptyString => Some [Item (atom_of c) QOne]
        end
  end.

Fixpoint has_dollar (s : string) : bool :=
  match s with
  | EmptyString => false
  | String c s' => Ascii.eqb c "$" || has_dollar s'
  end.

(** [s.replace(new RegExp(p, 'g'), repl)] on the modelled fragment. *)
Definition replace_pattern (p repl s : string) : option string :=
  match compile p with
  | Some its =>
      if has_dollar repl then None else Some (replace_all its repl 0 s)
  | None => None
  end.

(** *** The image pattern [/<img[^>]+src=Q([^Q>]+)Q/g], where Q stands for
    the double quote character *)

Definition lit (s : string) : list item :=
  map (fun c => Item (AChar c) QOne) (list_ascii_of_string s).

Definition imgRegex : list item :=
  lit "<img" ++ [Item (ANoneOf [">"%char]) QPlus] ++ lit "src="
  ++ [Item (AChar dquote) QOne;
      Mark; Item (ANoneOf [dquote; ">"%char]) QPlus; Mark;
      Item (AChar dquote) QOne].

(** The text of group 1: what lies between the two marks. *)
Definition group1 (ms : list string) : string :=
  match ms with
  | [m1; m2] => take (matched_length m1 m2) m1
  | _ => EmptyString
  end.

(** [[
      while ((match = imgRegex.exec(html)) !== null) {
        imageUrls.push(match[1])
      }
    ]] *)
Definition extract_image_urls (html : string) : list string :=
  map group1 (scan imgRegex 0 html).

End Regex.

(* ===================================================================== *)
(** ** Results of fallible code *)
(* ===================================================================== *)

(** A call either returns a value or throws an error with a message. *)
Inductive Result (A : Type) : Type :=
| Ok (a : A)
| Throw (msg : string).
Arguments Ok {A} a.
Arguments Throw {A} msg.

(* ===================================================================== *)
(** ** The content store: [convex/posts.ts] and the category handlers *)
(* ===================================================================== *)

Module Convex.
Import Str.

Definition Id := nat.

Inductive PostStatus : Type := draft | published | scheduled.

Record Seo : Type := {
  metaTitle : option string;
  metaDescription : option string;
  ogImage : option string;
  noindex : option bool
}.

(** The arguments of [posts.create]. *)
Record PostArgs : Type := {
  a_title : string;
  a_slug : string;
  a_content : string;
  a_excerpt : option string;
  a_featuredImage : option string;
  a_categoryId : option Id;
  a_authorId : option string;
  a_authorName : string;
  a_status : PostStatus;
  a_scheduledFor : option nat;
  a_seo : Seo;
  a_relatedPostIds : option (list Id)
}.

(** A document of table [posts]. *)
Record Post : Type := {
  p_id : Id;
  p_title : string;
  p_slug : string;
  p_content : string;
  p_excerpt : option string;
  p_featuredImage : option string;
  p_categoryId : option Id;
  p_authorId : option string;
  p_authorName : string;
  p_status : PostStatus;
  p_publishedAt : option nat;
  p_scheduledFor : option nat;
  p_modifiedAt : nat;
  p_seo : Seo;
  p_relatedPostIds : option (list Id)
}.

(** A document of table [categories]. *)
Record Category : Type := {
  c_id : Id;
  c_name : string;
  c_slug : string;
  c_description : option string
}.

(** The database: both tables in insertion order, and the next fresh id. *)
Record Db : Type := {
  posts : list Post;
  categories : list Category;
  nextId : Id
}.

(** A handler runs on the database at a time [now] ([Date.now()]); a
    handler that throws leaves the database as it was. *)
Definition Handler (A : Type) : Type := Db -> nat -> Result A * Db.

Definition status_eqb (a b : PostStatus) : bool :=
  match a, b with
  | draft, draft | published, published | scheduled, scheduled => true
  | _, _ => false
  end.

(** [ctx.db.query('posts').withIndex('by_slug', q => q.eq('slug', s)).first()] *)
Definition first_post_by_slug (d : Db) (s : string) : option Post :=
  find (fun p => String.eqb (p_slug p) s) (posts d).

(** [ctx.db.query('categories').withIndex('by_slug', ...).first()] *)
Definition first_category_by_slug (d : Db) (s : string) : option Category :=
  find (fun c => String.eqb (c_slug c) s) (categories d).

(** [ctx.db.get(id)] on either table. *)
Definition get_post (d : Db) (id : Id) : option Post :=
  find (fun p => Nat.eqb (p_id p) id) (posts d).

Definition get_category (d : Db) (id : Id) : option Category :=
  find (fun c => Nat.eqb (c_id c) id) (categories d).

Definition quoted (s : string) : string :=
  String dquote (s +:+ String dquote EmptyString).

Definition slug_exists_message (kind slug : string) : string :=
  kind +:+ " with slug " +:+ quoted slug +:+ " already exists".

(** [posts.getBySlug]: the post with its category, or [null]. *)
Definition posts_getBySlug (slug : string)
  : Handler (option (Post * option Category)) :=
  fun d _ =>
    match first_post_by_slug d slug with
    | None => (Ok None, d)
    | Some post =>
        let category :=
          match p_categoryId post with
          | Some cid => get_category d cid
          | None => None
          end in
        (Ok (Some (post, category)), d)
    end.

Definition new_post (postId : Id) (now : nat) (args : PostArgs) : Post := {|
  p_id := postId;
  p_title := a_title args;
  p_slug := a_slug args;
  p_content := a_content args;
  p_excerpt := a_excerpt args;
  p_featuredImage := a_featuredImage args;
  p_categoryId := a_categoryId args;
  p_authorId := a_authorId args;
  p_authorName := a_authorName args;
  p_status := a_status args;
  p_publishedAt := if status_eqb (a_status args) published then Some now else None;
  p_scheduledFor := a_scheduledFor args;
  p_modifiedAt := now;
  p_seo := a_seo args;
  p_relatedPostIds := a_relatedPostIds args
|}.

(** [ctx.db.insert('posts', doc)] *)
Definition insert_post (d : Db) (now : nat) (args : PostArgs) : Id * Db :=
  let postId := nextId d in
  (postId,
   {| posts := posts d ++ [new_post postId now args];
      categories := categories d;
      nextId := S postId |}).

(** [posts.create] *)
Definition posts_create (args : PostArgs) : Handler Id :=
  fun d now =>
    match first_post_by_slug d (a_slug args) with
    | Some _ => (Throw (slug_exists_message "Post" (a_slug args)), d)
    | None =>
        let '(postId, d') := insert_post d now args in
        (Ok postId, d')
    end.

(** [posts.sort((a, b) => b.modifiedAt - a.modifiedAt)]: a stable sort,
    most recently modified first. *)
Fixpoint insert_by_modifiedAt (x : Post) (sorted : list Post) : list Post :=
  match sorted with
  | [] => [x]
  | y :: rest =>
      if (p_modifiedAt x <? p_modifiedAt y)%nat
      then y :: insert_by_modifiedAt x rest
      else x :: sorted
  end.

Definition sort_by_modifiedAt (l : list Post) : list Post :=
  fold_right insert_by_modifiedAt [] l.

(** [posts.list] called with no filter, as the scripts call it. *)
Definition posts_list : Handler (list Post) :=
  fun d _ => (Ok (sort_by_modifiedAt (posts d)), d).

Definition set_featuredImage (img : string) (now : nat) (p : Post) : Post := {|
  p_id := p_id p;
  p_title := p_title p;
  p_slug := p_slug p;
  p_content := p_content p;
  p_excerpt := p_excerpt p;
  p_featuredImage := Some img;
  p_categoryId := p_categoryId p;
  p_authorId := p_authorId p;
  p_authorName := p_authorName p;
  p_status := p_status p;
  p_publishedAt := p_publishedAt p;
  p_scheduledFor := p_scheduledFor p;
  p_modifiedAt := now;
  p_seo := p_seo p;
  p_relatedPostIds := p_relatedPostIds p
|}.

(** [ctx.db.patch(id, fields)] *)
Definition patch_post (id : Id) (f : Post -> Post) (d : Db) : Db := {|
  posts := map (fun p => if Nat.eqb (p_id p) id then f p else p) (posts d);
  categories := categories d;
  nextId := nextId d
|}.

(** [posts.updateFeaturedImage] *)
Definition posts_updateFeaturedImage (id : Id) (featuredImage : string)
  : Handler Id :=
  fun d now =>
    match get_post d id with
    | None => (Throw "Post not found", d)
    | Some _ => (Ok id, patch_post id (set_featuredImage featuredImage now) d)
    end.

(** [categories.getBySlug] *)
Definition categories_getBySlug (slug : string) : Handler (option Category) :=
  fun d _ => (Ok (first_category_by_slug d slug), d).

(** [categories.create] *)
Definition categories_create (name slug : string) (description : option string)
  : Handler Id :=
  fun d _ =>
    match first_category_by_slug d slug with
    | Some _ => (Throw (slug_exists_message "Category" slug), d)
    | None =>
        let categoryId := nextId d in
        (Ok categoryId,
         {| posts := posts d;
            categories := categories d ++
              [{| c_id := categoryId; c_name := name; c_slug := slug;
                  c_description := description |}];
            nextId := S categoryId |})
    end.

(** Slugs of the stored posts, in table order. *)
Definition post_slugs (d : Db) : list string := map p_slug (posts d).

End Convex.

(* ===================================================================== *)
(** ** The image store: [src/lib/cloudflare-images.ts] *)
(* ===================================================================== *)

Module Cloudflare.

Definition ACCOUNT_HASH : string := "uIVQ6NXJhv6uJPgWapIyVQ".

Inductive ImageVariant : Type := thumbnail | medium | large | og | public.

(** [IMAGE_VARIANTS[variant]] *)
Definition IMAGE_VARIANTS (v : ImageVariant) : string :=
  match v with
  | thumbnail => "thumbnail"
  | medium => "medium"
  | large => "large"
  | og => "og"
  | public => "public"
  end.

(** [getImageUrl(imageId, variant)]: the delivery URL of an image. *)
Definition getImageUrl (imageId : string) (variant : ImageVariant) : string :=
  "https://imagedelivery.net/" +:+ ACCOUNT_HASH +:+ "/" +:+ imageId
  +:+ "/" +:+ IMAGE_VARIANTS variant.

End Cloudflare.

(* ===================================================================== *)
(** ** The world the scripts run in *)
(* ===================================================================== *)

Module Runtime.
Import Convex.

(** Console messages, one constructor per message of the scripts. *)
Inductive Line : Type :=
(* parsing the export *)
| ReadingExport
| ParsingXml
| FoundItems (n : nat)
| FoundAttachments (n : nat)
| SkippingNonPublished (title : string)
| FoundPosts (n : nat)
| FoundFeaturedImages (n : nat)
(* migrateImage *)
| MigratingImage (url : string)
| InvalidImageUrl (url : string)
| ImageUploaded (newUrl : string)
| FailedToMigrateImage (error : string)
(* getOrCreateCategory *)
| DryRunWouldCreateCategory (name : string)
| CreatingCategory (name : string)
(* importPosts *)
| ImportHeader (dryRun : bool)
| Processing (index total : nat) (title : string)
| AlreadyExists
| DryRunWouldImport (title : string)
| DryRunSlug (slug : string)
| DryRunCategories (labels : string)
| DryRunFeaturedImage (url : string)
| ImportedSuccessfully
| PostCreatedButImagesFailed (featuredImageFailed : bool) (imagesFailed : nat)
| FailedToImport (error : string)
| MigrationDone (dryRun : bool)
| SummarySuccessful (n : nat)
| SummarySkipped (n : nat)
| SummaryFailed (n : nat)
| SummaryImageFailures (n : nat)
(* main *)
| StartingMigration
| DryRunNotice
| NoPostsToMigrate
| AboutToImport (n : nat)
| ImagesWillBeUploaded
| PressEnterToContinue
| RunComplete (dryRun : bool)
(* fix-featured-images.ts *)
| UploadingAttempt (attemptNum total : nat)
| UploadedSuccessfully (url : string)
| UploadFailed (error : string)
| RetryingIn (ms : nat)
| UploadFailedAfter (attempts : nat) (error : string)
| FetchingPosts
| FoundPostsInDatabase (n : nat)
| DryRunWouldUpdatePost
| UpdatedPostInDatabase
| SlugIs (slug : string)
| AlreadyHasFeaturedImage
| NoFeaturedImageInExport
| WordPressUrl (url : string)
| DryRunWouldUpload
| FeaturedImageMigrationComplete
| FailedToUpdatePost (error : string)
| FixScriptHeader
| ModeIs (dryRun : bool)
| ForceIs (force : bool)
| SummaryRule
| SummaryTitle
| SummaryTotal (n : nat)
| FailedPostsTitle
| SummaryFailedPost (slug error : string)
| DryRunReminder
| ScriptCompleted.

(** What a run does to the outside, in order. *)
Inductive Event : Type :=
| Console (l : Line)
| Sleep (ms : nat)
| QueryPostsGetBySlug (slug : string)
| QueryPostsList
| MutationPostsCreate (args : PostArgs)
| MutationPostsUpdateFeaturedImage (id : Id) (featuredImage : string)
| QueryCategoriesGetBySlug (slug : string)
| MutationCategoriesCreate (name slug : string)
| Upload (url alt : string)
| Turndown (html : string)
| AwaitEnter.

Record World : Type := {
  db : Db;              (** the content store *)
  clock : nat;          (** milliseconds *)
  requests : nat;       (** calls made through the Convex client *)
  uploads : nat;        (** upload requests made to the image store *)
  trace : list Event    (** oldest first *)
}.

(** What the scripts depend on and do not define. *)
Record Env : Type := {
  (** [turndownService.turndown(html)] *)
  turndown : string -> Result string;
  (** [text.replace(new RegExp(pattern, 'g'), replacement)], given as
      [regexpReplace pattern replacement text] *)
  regexpReplace : string -> string -> string -> Result string;
  (** [uploadImageFromUrl(url, { alt })] as the [n]-th upload request *)
  uploadImageFromUrl : nat -> string -> string -> Result string;
  (** the [n]-th call through the Convex client fails before it reaches
      the handler, with this message *)
  transport : nat -> option string;
  (** [process.argv.includes('--dry-run')] *)
  isDryRun : bool;
  (** [process.argv.includes('--force')] *)
  isForce : bool
}.

(** Computations with local variables of type [L] over the world. *)
Definition M (L A : Type) : Type := L -> World -> Result A * L * World.

Definition ret {L A} (a : A) : M L A := fun l w => (Ok a, l, w).

Definition bind {L A B} (m : M L A) (k : A -> M L B) : M L B :=
  fun l w =>
    match m l w with
    | (Ok a, l', w') => k a l' w'
    | (Throw e, l', w') => (Throw e, l', w')
    end.

Definition throw {L A} (msg : string) : M L A := fun l w => (Throw msg, l, w).

(** [try { m } catch (error) { h error }] *)
Definition try_catch {L A} (m : M L A) (h : string -> M L A) : M L A :=
  fun l w =>
    match m l w with
    | (Ok a, l', w') => (Ok a, l', w')
    | (Throw e, l', w') => h e l' w'
    end.

(** A fallible call without effect on the world. *)
Definition lift {L A} (r : Result A) : M L A := fun l w => (r, l, w).

Definition update {L} (f : L -> L) : M L unit := fun l w => (Ok tt, f l, w).

Definition read {L} : M L L := fun l w => (Ok l, l, w).

Definition emit (ev : Event) (w : World) : World := {|
  db := db w; clock := clock w; requests := requests w;
  uploads := uploads w; trace := trace w ++ [ev]
|}.

(** [console.log(...)] and [console.error(...)] *)
Definition log {L} (line : Line) : M L unit :=
  fun l w => (Ok tt, l, emit (Console line) w).

(** [await sleep(ms)] *)
Definition sleep {L} (ms : nat) : M L unit :=
  fun l w =>
    (Ok tt, l,
     {| db := db w; clock := clock w + ms; requests := requests w;
        uploads := uploads w; trace := trace w ++ [Sleep ms] |}).

(** A pure library call that is recorded in the trace. *)
Definition traced {L A} (ev : Event) (r : Result A) : M L A :=
  fun l w => (r, l, emit ev w).

(** [await convex.query(f, args)] and [await convex.mutation(f, args)]. *)
Definition convex_call {L A} (E : Env) (ev : Event) (h : Handler A) : M L A :=
  fun l w =>
    let sent := {|
      db := db w; clock := clock w; requests := S (requests w);
      uploads := uploads w; trace := trace w ++ [ev] |} in
    match transport E (requests w) with
    | Some msg => (Throw msg, l, sent)
    | None =>
        let '(r, d) := h (db w) (clock w) in
        (r, l,
         {| db := d; clock := clock sent; requests := requests sent;
            uploads := uploads sent; trace := trace sent |})
    end.

(** [await uploadImageFromUrl(url, { alt })] *)
Definition upload_call {L} (E : Env) (url alt : string) : M L string :=
  fun l w =>
    (uploadImageFromUrl E (uploads w) url alt, l,
     {| db := db w; clock := clock w; requests := requests w;
        uploads := S (uploads w); trace := trace w ++ [Upload url alt] |}).

(** [turndownService.turndown(html)] *)
Definition turndown_call {L} (E : Env) (html : string) : M L string :=
  traced (Turndown html) (turndown E html).

(** [for (const x of xs) { acc = body(acc, x) }] *)
Fixpoint foldM {L A B} (body : B -> A -> M L B) (xs : list A) (acc : B)
  : M L B :=
  match xs with
  | [] => ret acc
  | x :: rest => bind (body acc x) (foldM body rest)
  end.

(** [for (let i = start; i < ...; i++) { body(i, xs[i]) }] *)
Fixpoint forM_indexed {L A} (body : nat -> A -> M L unit) (i : nat)
  (xs : list A) : M L unit :=
  match xs with
  | [] => ret tt
  | x :: rest => bind (body i x) (fun _ => forM_indexed body (S i) rest)
  end.

Definition when {L} (b : bool) (m : M L unit) : M L unit :=
  if b then m else ret tt.

End Runtime.

Declare Scope run_scope.
Delimit Scope run_scope with run.
Notation "'let!' x ':=' m 'in' k" :=
  (Runtime.bind m (fun x => k))
  (at level 10, x pattern, m at level 100, k at level 200) : run_scope.
Notation "m ';;;' k" :=
  (Runtime.bind m (fun _ => k))
  (at level 100, k at level 200, right associativity) : run_scope.

(* ===================================================================== *)
(** ** The parsed export: what [xml2js] hands to the scripts *)
(* ===================================================================== *)

Module Wxr.
Import Str.

(** A [<category>] element with its [domain] attribute: [cat.$.domain] and
    [cat._]; a missing text is the empty string (both are falsy, and print
    alike in [join]). *)
Record WpCategory : Type := {
  cat_domain : string;
  cat_text : string
}.

(** A [<wp:postmeta>] element: [meta['wp:meta_key']?.[0]] and
    [meta['wp:meta_value']?.[0]]. *)
Record WpMeta : Type := {
  meta_key : option string;
  meta_value : option string
}.

(** An [<item>] of the channel; every field is the [?.[0]] of the element
    of that name. *)
Record WpItem : Type := {
  item_title : option string;          (** [title] *)
  wp_post_type : option string;        (** [wp:post_type] *)
  wp_status : option string;           (** [wp:status] *)
  wp_post_name : option string;        (** [wp:post_name] *)
  wp_post_id : option string;          (** [wp:post_id] *)
  wp_attachment_url : option string;   (** [wp:attachment_url] *)
  content_encoded : option string;     (** [content:encoded] *)
  excerpt_encoded : option string;     (** [excerpt:encoded] *)
  pubDate : option string;             (** [pubDate] *)
  dc_creator : option string;          (** [dc:creator] *)
  category : option (list WpCategory); (** [category] *)
  wp_postmeta : option (list WpMeta)   (** [wp:postmeta] *)
}.

(** [x === 'text'] for an optional string [x]. *)
Definition is_text (o : option string) (text : string) : bool :=
  match o with
  | Some s => String.eqb s text
  | None => false
  end.

(** [item.category?.filter(cat => cat.$.domain === 'category')
      .map(cat => cat._) || []]

    on an item whose category elements have attributes, as every
    [WpCategory] has.  For an element without attributes [cat.$] is
    [undefined] and the test throws: [RawExport.categories_of] has both
    kinds of element. *)
Definition categories_of (item : WpItem) : list string :=
  match category item with
  | Some cats =>
      map cat_text
        (List.filter (fun c => String.eqb (cat_domain c) "category") cats)
  | None => []
  end.

(** [item['wp:postmeta']?.find(meta =>
       meta['wp:meta_key']?.[0] === '_thumbnail_id')] *)
Definition thumbnail_meta (item : WpItem) : option WpMeta :=
  match wp_postmeta item with
  | Some metas => find (fun m => is_text (meta_key m) "_thumbnail_id") metas
  | None => None
  end.

(** The attachment index, [Record<string, string>]: identifier to URL.
    The map is the plain object of the source on identifiers that are
    decimal numerals, as WordPress post ids are; a name of
    [Object.prototype] such as [constructor] or [__proto__] is read and
    written differently there. *)
Abbreviation AttachmentIndex := (gmap string string).

(** One step of
    [[
      for (const item of items) {
        const postType = item['wp:post_type']?.[0]
        if (postType === 'attachment') {
          const attachmentId = item['wp:post_id']?.[0]
          const attachmentUrl = item['wp:attachment_url']?.[0]
          if (attachmentId && attachmentUrl) {
            attachments[attachmentId] = attachmentUrl
          }
        }
      }
    ]] *)
Definition index_attachment (attachments : AttachmentIndex) (item : WpItem)
  : AttachmentIndex :=
  if is_text (wp_post_type item) "attachment" then
    match wp_post_id item, wp_attachment_url item with
    | Some attachmentId, Some attachmentUrl =>
        if nonempty attachmentId && nonempty attachmentUrl
        then <[attachmentId := attachmentUrl]> attachments
        else attachments
    | _, _ => attachments
    end
  else attachments.

Definition build_attachments (items : list WpItem) : AttachmentIndex :=
  fold_left index_attachment items ∅.

End Wxr.

(* ===================================================================== *)
(** ** The importer: [src/unnamed/part_000]

    The migration script with the attachment index, the existence check,
    the image-failure count and the dry-run mode. *)
(* ===================================================================== *)

Module Importer.
Import Str Runtime Wxr Cloudflare.
Local Open Scope run_scope.

Inductive WpStatus : Type := publish | wp_draft.

Record WordPressPost : Type := {
  title : string;
  slug : string;
  content : string;
  excerpt : string;
  publishDate : option string;   (** the raw [pubDate]; [None] is "now" *)
  author : string;
  categories : list string;
  status : WpStatus;
  featuredImageUrl : option string
}.

(** [[
      const thumbnailId = item['wp:postmeta']?.find(...)?.['wp:meta_value']?.[0]
      const featuredImageUrl = thumbnailId ? attachments[thumbnailId] : undefined
    ]]

    The index of the source is a plain object, and it is read here at a
    decimal numeral, the form of the ids WordPress writes.  At a name of
    [Object.prototype] such as [constructor] the object gives an inherited
    member where the map gives [None]; the theorems that depend on the
    lookup assume a numeral. *)
Definition thumbnailId_of (item : WpItem) : option string :=
  match thumbnail_meta item with
  | Some meta => meta_value meta
  | None => None
  end.

Definition featuredImageUrl_of (attachments : AttachmentIndex) (item : WpItem)
  : option string :=
  match thumbnailId_of item with
  | Some thumbnailId =>
      if nonempty thumbnailId then attachments !! thumbnailId else None
  | None => None
  end.

(** The record pushed for an item that passed both tests. *)
Definition to_post (attachments : AttachmentIndex) (item : WpItem)
  : WordPressPost := {|
  title := or_default (item_title item) "Untitled";
  slug := or_default (wp_post_name item) EmptyString;
  content := or_default (content_encoded item) EmptyString;
  excerpt := or_default (excerpt_encoded item) EmptyString;
  publishDate := if truthy (pubDate item) then pubDate item else None;
  author := or_default (dc_creator item) "Admin";
  categories := categories_of item;
  status := publish;
  featuredImageUrl := featuredImageUrl_of attachments item
|}.

(** The body of the second loop of [parseWordPressXML]. *)
Definition extract_post {L} (attachments : AttachmentIndex)
  (posts : list WordPressPost) (item : WpItem) : M L (list WordPressPost) :=
  (* Skip if not a post *)
  if negb (is_text (wp_post_type item) "post") then ret posts
  (* Skip if post status is not publish *)
  else if negb (is_text (wp_status item) "publish") then
    log (SkippingNonPublished (or_default (item_title item) "Untitled")) ;;;
    ret posts
  else ret (posts ++ [to_post attachments item]).

(** [parseWordPressXML], from the parsed item list on. *)
Definition parseWordPressXML {L} (items : list WpItem)
  : M L (list WordPressPost) :=
  log ReadingExport ;;;
  log ParsingXml ;;;
  log (FoundItems (length items)) ;;;
  (* First pass: Build attachment map (post ID -> image URL) *)
  let attachments := build_attachments items in
  log (FoundAttachments (size attachments)) ;;;
  (* Second pass: Extract blog posts *)
  let! posts := foldM (extract_post attachments) items [] in
  log (FoundPosts (length posts)) ;;;
  ret posts.

(** [migrateImage(imageUrl, alt)] *)
Definition migrateImage {L} (E : Env) (imageUrl alt : string)
  : M L (option string) :=
  try_catch
    (log (MigratingImage imageUrl) ;;;
     (* Validate URL *)
     if negb (nonempty imageUrl) || negb (startsWith "http" imageUrl) then
       log (InvalidImageUrl imageUrl) ;;;
       ret None
     else
       let! imageId := upload_call E imageUrl alt in
       let newUrl := getImageUrl imageId large in
       log (ImageUploaded newUrl) ;;;
       ret (Some newUrl))
    (fun error =>
       log (FailedToMigrateImage error) ;;;
       ret None).

(** [imageMapping[oldUrl] = newUrl] on an object whose keys are listed in
    insertion order (the keys are URLs accepted by [migrateImage], which
    start with [http], so none is an integer index). *)
Fixpoint set_property (k v : string) (m : list (string * string))
  : list (string * string) :=
  match m with
  | [] => [(k, v)]
  | (k', v') :: rest =>
      if String.eqb k' k then (k', v) :: rest
      else (k', v') :: set_property k v rest
  end.

(** The body of the loop over [imageUrls]. *)
Definition migrate_inline {L} (E : Env) (title : string)
  (acc : list (string * string) * nat) (oldUrl : string)
  : M L (list (string * string) * nat) :=
  let '(imageMapping, imagesFailed) := acc in
  let! newUrl := migrateImage E oldUrl title in
  if truthy newUrl then
    ret (set_property oldUrl (or_default newUrl EmptyString) imageMapping,
         imagesFailed)
  else ret (imageMapping, S imagesFailed).

(** [updatedHtml = updatedHtml.replace(new RegExp(oldUrl, 'g'), newUrl)] *)
Definition replace_url {L} (E : Env) (updatedHtml : string)
  (entry : string * string) : M L string :=
  let '(oldUrl, newUrl) := entry in
  lift (regexpReplace E oldUrl newUrl updatedHtml).

(** [convertContentToMarkdown(html, title)] *)
Definition convertContentToMarkdown {L} (E : Env) (html title : string)
  : M L (string * nat) :=
  (* Extract image URLs from HTML *)
  let imageUrls := Regex.extract_image_urls html in
  (* Migrate images to Cloudflare *)
  let! (imageMapping, imagesFailed) :=
    foldM (migrate_inline E title) imageUrls ([], 0) in
  (* Replace image URLs in HTML *)
  let! updatedHtml := foldM (replace_url E) imageMapping html in
  (* Convert to Markdown *)
  let! markdown := turndown_call E updatedHtml in
  ret (markdown, imagesFailed).

(** [getOrCreateCategory(categoryName)] *)
Definition getOrCreateCategory {L} (E : Env) (categoryName : string)
  : M L (option Convex.Id) :=
  if negb (nonempty categoryName) then ret None
  else
    let slug := Slug.slugify categoryName in
    (* Check if category exists *)
    let! existingCategory :=
      convex_call E (QueryCategoriesGetBySlug slug)
        (Convex.categories_getBySlug slug) in
    match existingCategory with
    | Some c => ret (Some (Convex.c_id c))
    | None =>
        (* Create new category *)
        if isDryRun E then
          log (DryRunWouldCreateCategory categoryName) ;;;
          ret None
        else
          log (CreatingCategory categoryName) ;;;
          let! categoryId :=
            convex_call E (MutationCategoriesCreate categoryName slug)
              (Convex.categories_create categoryName slug None) in
          ret (Some categoryId)
    end.

(** The counters of [importPosts]. *)
Record Counters : Type := {
  successCount : nat;
  skipCount : nat;
  failCount : nat;
  imageFailCount : nat
}.

Definition no_counts : Counters :=
  {| successCount := 0; skipCount := 0; failCount := 0; imageFailCount := 0 |}.

Definition incr_success (c : Counters) : Counters :=
  {| successCount := S (successCount c); skipCount := skipCount c;
     failCount := failCount c; imageFailCount := imageFailCount c |}.
Definition incr_skip (c : Counters) : Counters :=
  {| successCount := successCount c; skipCount := S (skipCount c);
     failCount := failCount c; imageFailCount := imageFailCount c |}.
Definition incr_fail (c : Counters) : Counters :=
  {| successCount := successCount c; skipCount := skipCount c;
     failCount := S (failCount c); imageFailCount := imageFailCount c |}.
Definition incr_imageFail (c : Counters) : Counters :=
  {| successCount := successCount c; skipCount := skipCount c;
     failCount := failCount c; imageFailCount := S (imageFailCount c) |}.

(** The arguments of the create mutation. *)
Definition create_args (post : WordPressPost) (content : string)
  (excerpt : option string) (featuredImage : option string)
  (categoryId : option Convex.Id) : Convex.PostArgs := {|
  Convex.a_title := title post;
  Convex.a_slug := slug post;
  Convex.a_content := content;
  Convex.a_excerpt := excerpt;
  Convex.a_featuredImage := featuredImage;
  Convex.a_categoryId := categoryId;
  Convex.a_authorId := None;
  Convex.a_authorName := author post;
  Convex.a_status := Convex.published;
  Convex.a_scheduledFor := None;
  Convex.a_seo := {|
    Convex.metaTitle := Some (title post);
    Convex.metaDescription := option_map (take 160) excerpt;
    Convex.ogImage := None;
    Convex.noindex := None |};
  Convex.a_relatedPostIds := None
|}.

(** The part of the [try] block after the existence check and the dry-run
    exit: transform, category, featured image, create. *)
Definition import_new_post (E : Env) (post : WordPressPost)
  : M Counters unit :=
  (* Convert content to Markdown and migrate images *)
  let! (content, imagesFailed) :=
    convertContentToMarkdown E (content post) (title post) in
  let! excerpt :=
    if nonempty (excerpt post)
    then let! e := turndown_call E (excerpt post) in ret (Some e)
    else ret None in
  (* Get or create category (use first category if multiple) *)
  let! categoryId :=
    match categories post with
    | first :: _ =>
        if nonempty first then getOrCreateCategory E first else ret None
    | [] => ret None
    end in
  (* Migrate featured image if exists *)
  let! (featuredImage, featuredImageFailed) :=
    match featuredImageUrl post with
    | Some url =>
        if nonempty url then
          let! migratedImage := migrateImage E url (title post) in
          if truthy migratedImage then ret (migratedImage, false)
          else ret (None, true)
        else ret (None, false)
    | None => ret (None, false)
    end in
  (* Create post in Convex *)
  let args := create_args post content excerpt featuredImage categoryId in
  let! _ := convex_call E (MutationPostsCreate args) (Convex.posts_create args) in
  log ImportedSuccessfully ;;;
  when (featuredImageFailed || (0 <? imagesFailed)%nat)
    (log (PostCreatedButImagesFailed featuredImageFailed imagesFailed) ;;;
     update incr_imageFail) ;;;
  update incr_success.

(** The [try] block of the loop of [importPosts]. *)
Definition import_attempt (E : Env) (post : WordPressPost) : M Counters unit :=
  (* Check if post already exists *)
  let! existingPost :=
    convex_call E (QueryPostsGetBySlug (slug post))
      (Convex.posts_getBySlug (slug post)) in
  match existingPost with
  | Some _ =>
      log AlreadyExists ;;;
      update incr_skip
  | None =>
      if isDryRun E then
        log (DryRunWouldImport (title post)) ;;;
        log (DryRunSlug (slug post)) ;;;
        log (DryRunCategories
               (if nonempty (join ", " (categories post))
                then join ", " (categories post) else "None")) ;;;
        log (DryRunFeaturedImage (or_default (featuredImageUrl post) "None")) ;;;
        update incr_success
      else import_new_post E post
  end.

(** One turn of the loop of [importPosts]. *)
Definition import_post (E : Env) (total i : nat) (post : WordPressPost)
  : M Counters unit :=
  log (Processing (i + 1) total (title post)) ;;;
  try_catch (import_attempt E post)
    (fun error =>
       log (FailedToImport error) ;;;
       update incr_fail).

(** [importPosts(posts)]; the counters are its local variables. *)
Definition importPosts (E : Env) (posts : list WordPressPost)
  : M Counters unit :=
  log (ImportHeader (isDryRun E)) ;;;
  update (fun _ => no_counts) ;;;
  forM_indexed (import_post E (length posts)) 0 posts ;;;
  let! c := read in
  log (MigrationDone (isDryRun E)) ;;;
  log (SummarySuccessful (successCount c)) ;;;
  log (SummarySkipped (skipCount c)) ;;;
  log (SummaryFailed (failCount c)) ;;;
  when (0 <? imageFailCount c)%nat
    (log (SummaryImageFailures (imageFailCount c))).

(** [main()], from the parsed item list on; the wait for the Enter key is
    an event of the trace. *)
Definition main (E : Env) (items : list WpItem) : M Counters unit :=
  log StartingMigration ;;;
  when (isDryRun E) (log DryRunNotice) ;;;
  (* Parse WordPress XML *)
  let! posts := parseWordPressXML items in
  match posts with
  | [] => log NoPostsToMigrate
  | _ :: _ =>
      when (negb (isDryRun E))
        (log (AboutToImport (length posts)) ;;;
         log ImagesWillBeUploaded ;;;
         log PressEnterToContinue ;;;
         traced AwaitEnter (Ok tt)) ;;;
      (* Import posts *)
      importPosts E posts ;;;
      log (RunComplete (isDryRun E))
  end.

End Importer.

(* ===================================================================== *)
(** ** The basic importer: [src/scripts/migrate-wordpress.ts]

    The variant of the migration script without attachment index, existence
    check, image-failure count and dry-run mode. *)
(* ===================================================================== *)

Module BasicImporter.
Import Str Runtime Wxr Cloudflare.
Local Open Scope run_scope.

Inductive WpStatus : Type := publish | wp_draft.

(** [featuredImageUrl] holds what [find] returns: the [_thumbnail_id] meta
    element itself. *)
Record WordPressPost : Type := {
  title : string;
  slug : string;
  content : string;
  excerpt : string;
  publishDate : option string;
  author : string;
  categories : list string;
  status : WpStatus;
  featuredImageUrl : option WpMeta
}.

Definition to_post (item : WpItem) : WordPressPost := {|
  title := or_default (item_title item) "Untitled";
  slug := or_default (wp_post_name item) EmptyString;
  content := or_default (content_encoded item) EmptyString;
  excerpt := or_default (excerpt_encoded item) EmptyString;
  publishDate := if truthy (pubDate item) then pubDate item else None;
  author := or_default (dc_creator item) "Admin";
  categories := categories_of item;
  status := if is_text (wp_status item) "publish" then publish else wp_draft;
  featuredImageUrl := thumbnail_meta item
|}.

(** The body of the loop of [parseWordPressXML]. *)
Definition extract_post {L} (posts : list WordPressPost) (item : WpItem)
  : M L (list WordPressPost) :=
  (* Skip if not a post (could be page, attachment, etc.) *)
  if negb (is_text (wp_post_type item) "post") then ret posts
  (* Skip if post status is trash *)
  else if is_text (wp_status item) "trash" then ret posts
  else ret (posts ++ [to_post item]).

Definition parseWordPressXML {L} (items : list WpItem)
  : M L (list WordPressPost) :=
  log ReadingExport ;;;
  log ParsingXml ;;;
  log (FoundItems (length items)) ;;;
  let! posts := foldM extract_post items [] in
  log (FoundPosts (length posts)) ;;;
  ret posts.

(** [migrateImage(imageUrl, alt)] *)
Definition migrateImage {L} (E : Env) (imageUrl alt : string)
  : M L (option string) :=
  try_catch
    (log (MigratingImage imageUrl) ;;;
     let! imageId := upload_call E imageUrl alt in
     let newUrl := getImageUrl imageId large in
     log (ImageUploaded newUrl) ;;;
     ret (Some newUrl))
    (fun error =>
       log (FailedToMigrateImage error) ;;;
       ret None).

Definition migrate_inline {L} (E : Env) (title : string)
  (imageMapping : list (string * string)) (oldUrl : string)
  : M L (list (string * string)) :=
  let! newUrl := migrateImage E oldUrl title in
  if truthy newUrl then
    ret (Importer.set_property oldUrl (or_default newUrl EmptyString)
           imageMapping)
  else ret imageMapping.

(** [convertContentToMarkdown(html, title)] *)
Definition convertContentToMarkdown {L} (E : Env) (html title : string)
  : M L string :=
  let imageUrls := Regex.extract_image_urls html in
  let! imageMapping := foldM (migrate_inline E title) imageUrls [] in
  let! updatedHtml := foldM (Importer.replace_url E) imageMapping html in
  turndown_call E updatedHtml.

(** [getOrCreateCategory(categoryName)] *)
Definition getOrCreateCategory {L} (E : Env) (categoryName : string)
  : M L (option Convex.Id) :=
  if negb (nonempty categoryName) then ret None
  else
    let slug := Slug.slugify categoryName in
    let! existingCategory :=
      convex_call E (QueryCategoriesGetBySlug slug)
        (Convex.categories_getBySlug slug) in
    match existingCategory with
    | Some c => ret (Some (Convex.c_id c))
    | None =>
        log (CreatingCategory categoryName) ;;;
        let! categoryId :=
          convex_call E (MutationCategoriesCreate categoryName slug)
            (Convex.categories_create categoryName slug None) in
        ret (Some categoryId)
    end.

Record Counters : Type := {
  successCount : nat;
  failCount : nat
}.

Definition incr_success (c : Counters) : Counters :=
  {| successCount := S (successCount c); failCount := failCount c |}.
Definition incr_fail (c : Counters) : Counters :=
  {| successCount := successCount c; failCount := S (failCount c) |}.

Definition create_args (post : WordPressPost) (content : string)
  (excerpt : option string) (featuredImage : option string)
  (categoryId : option Convex.Id) : Convex.PostArgs := {|
  Convex.a_title := title post;
  Convex.a_slug := slug post;
  Convex.a_content := content;
  Convex.a_excerpt := excerpt;
  Convex.a_featuredImage := featuredImage;
  Convex.a_categoryId := categoryId;
  Convex.a_authorId := None;
  Convex.a_authorName := author post;
  Convex.a_status :=
    match status post with
    | publish => Convex.published
    | wp_draft => Convex.draft
    end;
  Convex.a_scheduledFor := None;
  Convex.a_seo := {|
    Convex.metaTitle := Some (title post);
    Convex.metaDescription := option_map (take 160) excerpt;
    Convex.ogImage := None;
    Convex.noindex := None |};
  Convex.a_relatedPostIds := None
|}.

(** What [String(meta)] is for the meta element: the text the upload
    request and the console receive when the element is passed as a URL. *)
Definition object_as_string : string := "[object Object]".

(** The [try] block of the loop of [importPosts]. *)
Definition import_attempt (E : Env) (post : WordPressPost) : M Counters unit :=
  let! content := convertContentToMarkdown E (content post) (title post) in
  let! excerpt :=
    if nonempty (excerpt post)
    then let! e := turndown_call E (excerpt post) in ret (Some e)
    else ret None in
  let! categoryId :=
    match categories post with
    | first :: _ =>
        if nonempty first then getOrCreateCategory E first else ret None
    | [] => ret None
    end in
  let! featuredImage :=
    match featuredImageUrl post with
    | Some _ =>
        let! migratedImage := migrateImage E object_as_string (title post) in
        if truthy migratedImage then ret migratedImage else ret None
    | None => ret None
    end in
  let args := create_args post content excerpt featuredImage categoryId in
  let! _ := convex_call E (MutationPostsCreate args) (Convex.posts_create args) in
  log ImportedSuccessfully ;;;
  update incr_success.

Definition import_post (E : Env) (total i : nat) (post : WordPressPost)
  : M Counters unit :=
  log (Processing (i + 1) total (title post)) ;;;
  try_catch (import_attempt E post)
    (fun error =>
       log (FailedToImport error) ;;;
       update incr_fail).

Definition importPosts (E : Env) (posts : list WordPressPost)
  : M Counters unit :=
  log (ImportHeader false) ;;;
  update (fun _ => {| successCount := 0; failCount := 0 |}) ;;;
  forM_indexed (import_post E (length posts)) 0 posts ;;;
  let! c := read in
  log (MigrationDone false) ;;;
  log (SummarySuccessful (successCount c)) ;;;
  log (SummaryFailed (failCount c)).

End BasicImporter.

(* ===================================================================== *)
(** ** The featured-image fixer: [src/scripts/fix-featured-images.ts] *)
(* ===================================================================== *)

Module FixImages.
Import Str Runtime Wxr Cloudflare.
Local Open Scope run_scope.

Definition RETRY_ATTEMPTS : nat := 3.
Definition RETRY_DELAY_MS : nat := 2000.
Definition RATE_LIMIT_DELAY_MS : nat := 500.

(** The module-level [stats] object. *)
Record Stats : Type := {
  total : nat;
  success : nat;
  skipped : nat;
  failed : nat;
  errors : list (string * string)   (** [{ slug, error }], oldest first *)
}.

Definition no_stats : Stats :=
  {| total := 0; success := 0; skipped := 0; failed := 0; errors := [] |}.

Definition set_total (n : nat) (s : Stats) : Stats :=
  {| total := n; success := success s; skipped := skipped s;
     failed := failed s; errors := errors s |}.
Definition incr_success (s : Stats) : Stats :=
  {| total := total s; success := S (success s); skipped := skipped s;
     failed := failed s; errors := errors s |}.
Definition incr_skipped (s : Stats) : Stats :=
  {| total := total s; success := success s; skipped := S (skipped s);
     failed := failed s; errors := errors s |}.
Definition incr_failed (s : Stats) : Stats :=
  {| total := total s; success := success s; skipped := skipped s;
     failed := S (failed s); errors := errors s |}.
Definition push_error (slug error : string) (s : Stats) : Stats :=
  {| total := total s; success := success s; skipped := skipped s;
     failed := failed s; errors := errors s ++ [(slug, error)] |}.

(** [uploadToCloudflare(imageUrl, filename, attemptNum)].

    The function calls itself while [attemptNum < RETRY_ATTEMPTS], so
    [RETRY_ATTEMPTS - attemptNum] nested calls are enough; [fuel] bounds
    them.  The branch for exhausted fuel is never reached from
    [uploadToCloudflare]; it throws, which no other branch does. *)
Fixpoint uploadToCloudflare_fuel {L} (fuel : nat) (E : Env)
  (imageUrl filename : string) (attemptNum : nat) : M L (option string) :=
  try_catch
    (log (UploadingAttempt attemptNum RETRY_ATTEMPTS) ;;;
     let! imageId := upload_call E imageUrl filename in
     let cloudflareUrl := getImageUrl imageId large in
     log (UploadedSuccessfully cloudflareUrl) ;;;
     ret (Some cloudflareUrl))
    (fun errorMsg =>
       if (attemptNum <? RETRY_ATTEMPTS)%nat then
         log (UploadFailed errorMsg) ;;;
         log (RetryingIn RETRY_DELAY_MS) ;;;
         sleep RETRY_DELAY_MS ;;;
         match fuel with
         | S fuel' =>
             uploadToCloudflare_fuel fuel' E imageUrl filename (attemptNum + 1)
         | 0 => throw "out of fuel"
         end
       else
         log (UploadFailedAfter RETRY_ATTEMPTS errorMsg) ;;;
         ret None).

Definition uploadToCloudflare {L} (E : Env) (imageUrl filename : string)
  (attemptNum : nat) : M L (option string) :=
  uploadToCloudflare_fuel (RETRY_ATTEMPTS - attemptNum) E imageUrl filename
    attemptNum.

(** The featured-image map, [Map<string, string>]: slug to image URL. *)
Abbreviation FeaturedImages := (gmap string string).

(** The loop over [postmeta]: the first [_thumbnail_id] with a value
    decides, and ends the loop.  The value is a decimal numeral, the form
    of the ids WordPress writes: at a name of [Object.prototype] the plain
    object of the source gives an inherited member, which is stored for
    the slug, where the map gives [None]. *)
Fixpoint scan_postmeta (attachments : AttachmentIndex) (slug : string)
  (postmeta : list WpMeta) (featuredImages : FeaturedImages) : FeaturedImages :=
  match postmeta with
  | [] => featuredImages
  | meta :: rest =>
      if is_text (meta_key meta) "_thumbnail_id" && truthy (meta_value meta)
      then
        match attachments !! or_default (meta_value meta) EmptyString with
        | Some imageUrl =>
            if nonempty imageUrl then <[slug := imageUrl]> featuredImages
            else featuredImages
        | None => featuredImages
        end
      else scan_postmeta attachments slug rest featuredImages
  end.

Definition index_featured (attachments : AttachmentIndex)
  (featuredImages : FeaturedImages) (item : WpItem) : FeaturedImages :=
  if negb (is_text (wp_post_type item) "post") then featuredImages
  else if negb (truthy (wp_post_name item)) then featuredImages
  else
    scan_postmeta attachments (or_default (wp_post_name item) EmptyString)
      (match wp_postmeta item with Some metas => metas | None => [] end)
      featuredImages.

(** [parseWordPressXML()], from the parsed item list on. *)
Definition parseWordPressXML {L} (items : list WpItem) : M L FeaturedImages :=
  log ReadingExport ;;;
  log ParsingXml ;;;
  log (FoundItems (length items)) ;;;
  let attachments := build_attachments items in
  log (FoundAttachments (size attachments)) ;;;
  let featuredImages := fold_left (index_featured attachments) items ∅ in
  log (FoundFeaturedImages (size featuredImages)) ;;;
  ret featuredImages.

(** [getConvexPosts()] *)
Definition getConvexPosts {L} (E : Env) : M L (list Convex.Post) :=
  log FetchingPosts ;;;
  let! posts := convex_call E QueryPostsList Convex.posts_list in
  log (FoundPostsInDatabase (length posts)) ;;;
  ret posts.

(** [updatePostFeaturedImage(postId, imageUrl)] *)
Definition updatePostFeaturedImage {L} (E : Env) (postId : Convex.Id)
  (imageUrl : string) : M L unit :=
  if isDryRun E then log DryRunWouldUpdatePost
  else
    let! _ := convex_call E (MutationPostsUpdateFeaturedImage postId imageUrl)
                (Convex.posts_updateFeaturedImage postId imageUrl) in
    log UpdatedPostInDatabase.

(** [url.split('/').pop()]: the text after the last slash. *)
Fixpoint after_last_slash (acc s : string) : string :=
  match s with
  | EmptyString => acc
  | String c s' =>
      if Ascii.eqb c "/" then after_last_slash EmptyString s'
      else after_last_slash (acc +:+ String c EmptyString) s'
  end.

Definition upload_failure_message : string := "Failed to upload to Cloudflare".

(** [processPost(post, featuredImages, index, total)] *)
Definition processPost (E : Env) (post : Convex.Post)
  (featuredImages : FeaturedImages) (index total : nat) : M Stats unit :=
  let _id := Convex.p_id post in
  let slug := Convex.p_slug post in
  log (Processing (index + 1) total (Convex.p_title post)) ;;;
  log (SlugIs slug) ;;;
  (* Check if already has featured image *)
  if truthy (Convex.p_featuredImage post) && negb (isForce E) then
    log AlreadyHasFeaturedImage ;;;
    update incr_skipped
  else
    (* Get featured image URL from WordPress *)
    match featuredImages !! slug with
    | None =>
        log NoFeaturedImageInExport ;;;
        update incr_skipped
    | Some wordpressImageUrl =>
        if negb (nonempty wordpressImageUrl) then
          log NoFeaturedImageInExport ;;;
          update incr_skipped
        else
          log (WordPressUrl wordpressImageUrl) ;;;
          if isDryRun E then
            log DryRunWouldUpload ;;;
            update incr_success
          else
            let filename :=
              if nonempty (after_last_slash EmptyString wordpressImageUrl)
              then after_last_slash EmptyString wordpressImageUrl
              else slug +:+ ".jpg" in
            let! cloudflareUrl :=
              uploadToCloudflare E wordpressImageUrl filename 1 in
            match cloudflareUrl with
            | None =>
                update incr_failed ;;;
                update (push_error slug upload_failure_message)
            | Some url =>
                (* Update post in Convex *)
                try_catch
                  (updatePostFeaturedImage E _id url ;;;
                   update incr_success ;;;
                   log FeaturedImageMigrationComplete)
                  (fun errorMsg =>
                     update incr_failed ;;;
                     update (push_error slug
                               ("Failed to update post: " +:+ errorMsg)) ;;;
                     log (FailedToUpdatePost errorMsg)) ;;;
                (* Rate limiting delay *)
                sleep RATE_LIMIT_DELAY_MS
            end
    end.

(** The loop of [main] over the posts of the store. *)
Definition process_all (E : Env) (featuredImages : FeaturedImages)
  (posts : list Convex.Post) : M Stats unit :=
  forM_indexed
    (fun i post => processPost E post featuredImages i (length posts)) 0 posts.

(** [main()], from the parsed item list on, up to the end of its [try]
    block. *)
Definition main (E : Env) (items : list WpItem) : M Stats unit :=
  log FixScriptHeader ;;;
  log (ModeIs (isDryRun E)) ;;;
  log (ForceIs (isForce E)) ;;;
  (* Parse WordPress XML *)
  let! featuredImages := parseWordPressXML items in
  (* Get Convex posts *)
  let! posts := getConvexPosts E in
  update (set_total (length posts)) ;;;
  (* Process each post *)
  process_all E featuredImages posts ;;;
  (* Print summary *)
  let! s := read in
  log SummaryRule ;;;
  log SummaryTitle ;;;
  log SummaryRule ;;;
  log (SummaryTotal (total s)) ;;;
  log (SummarySuccessful (success s)) ;;;
  log (SummarySkipped (skipped s)) ;;;
  log (SummaryFailed (failed s)) ;;;
  when (0 <? length (errors s))%nat
    (log FailedPostsTitle ;;;
     foldM (fun _ e => log (SummaryFailedPost (fst e) (snd e))) (errors s) tt) ;;;
  when (isDryRun E) (log DryRunReminder) ;;;
  log ScriptCompleted.

End FixImages.

(* ===================================================================== *)
(** ** The handlers the admin pages call: the rest of [convex/posts.ts]
    and of the category module

    Conventions of the store.  An optional argument that the caller left
    out is [None]; the object spread [...updates] then has no such key, and
    [ctx.db.patch] leaves a field alone when the patch has no key for it.
    [ctx.db.delete] removes the document with the given id.  [Date.now()]
    has one value during a handler. *)
(* ===================================================================== *)

From Stdlib Require Import DecimalString Permutation Sorted.

Module ConvexAdmin.
Import Str Convex.

(** JavaScript truthiness of an optional number: [undefined] and [0] are
    falsy. *)
Definition truthy_number (o : option nat) : bool :=
  match o with
  | Some (S _) => true
  | _ => false
  end.

(** The value a patch leaves in an optional field: the new one when the
    patch has the key, the old one otherwise. *)
Definition or_keep {A} (patch old : option A) : option A :=
  match patch with
  | Some v => Some v
  | None => old
  end.


(** [String(n)] for a count. *)
Definition decimal (n : nat) : string := NilZero.string_of_uint (Nat.to_uint n).

(** *** [posts.list] with its filters *)



(** [post.categoryId === args.categoryId] *)
Definition has_category (categoryId : Id) (post : Post) : bool :=
  match p_categoryId post with
  | Some c => Nat.eqb c categoryId
  | None => false
  end.




(** *** [posts.getById] *)

Definition posts_getById (id : Id)
  : Handler (option (Post * option Category)) :=
  fun d _ =>
    match get_post d id with
    | None => (Ok None, d)
    | Some post =>
        let category :=
          match p_categoryId post with
          | Some cid => get_category d cid
          | None => None
          end in
        (Ok (Some (post, category)), d)
    end.

(** *** [posts.update] *)

(** The document after [ctx.db.patch(id, { ...updates, publishedAt,
    modifiedAt: Date.now() })]. *)
Definition updated_post (updates : PostArgs) (now : nat) (existing : Post)
  : Post := {|
  p_id := p_id existing;
  p_title := a_title updates;
  p_slug := a_slug updates;
  p_content := a_content updates;
  p_excerpt := or_keep (a_excerpt updates) (p_excerpt existing);
  p_featuredImage := or_keep (a_featuredImage updates) (p_featuredImage existing);
  p_categoryId := or_keep (a_categoryId updates) (p_categoryId existing);
  p_authorId := or_keep (a_authorId updates) (p_authorId existing);
  p_authorName := a_authorName updates;
  p_status := a_status updates;
  (* If status changed to published, set publishedAt if not already set *)
  p_publishedAt :=
    if status_eqb (a_status updates) published
       && negb (truthy_number (p_publishedAt existing))
    then Some now
    else p_publishedAt existing;
  p_scheduledFor := or_keep (a_scheduledFor updates) (p_scheduledFor existing);
  p_modifiedAt := now;
  p_seo := a_seo updates;
  p_relatedPostIds :=
    or_keep (a_relatedPostIds updates) (p_relatedPostIds existing)
|}.

Definition posts_update (id : Id) (updates : PostArgs) : Handler Id :=
  fun d now =>
    (* Check if post exists *)
    match get_post d id with
    | None => (Throw "Post not found", d)
    | Some existingPost =>
        (* Check if slug is being changed to one that already exists *)
        if negb (String.eqb (a_slug updates) (p_slug existingPost))
           && match first_post_by_slug d (a_slug updates) with
              | Some _ => true
              | None => false
              end
        then (Throw (slug_exists_message "Post" (a_slug updates)), d)
        else (Ok id, patch_post id (updated_post updates now) d)
    end.

(** *** [posts.deletePost] *)

(** [ctx.db.delete(id)] on table [posts]. *)
Definition delete_post (id : Id) (d : Db) : Db := {|
  posts := List.filter (fun p => negb (Nat.eqb (p_id p) id)) (posts d);
  categories := categories d;
  nextId := nextId d
|}.

Definition posts_deletePost (id : Id) : Handler Id :=
  fun d _ =>
    match get_post d id with
    | None => (Throw "Post not found", d)
    | Some _ => (Ok id, delete_post id d)
    end.

(** *** [posts.publish] *)

(** The document after [ctx.db.patch(id, { status: 'published',
    publishedAt: post.publishedAt || now, modifiedAt: now })]. *)
Definition published_post (now : nat) (post : Post) : Post := {|
  p_id := p_id post;
  p_title := p_title post;
  p_slug := p_slug post;
  p_content := p_content post;
  p_excerpt := p_excerpt post;
  p_featuredImage := p_featuredImage post;
  p_categoryId := p_categoryId post;
  p_authorId := p_authorId post;
  p_authorName := p_authorName post;
  p_status := published;
  p_publishedAt :=
    if truthy_number (p_publishedAt post) then p_publishedAt post
    else Some now;
  p_scheduledFor := p_scheduledFor post;
  p_modifiedAt := now;
  p_seo := p_seo post;
  p_relatedPostIds := p_relatedPostIds post
|}.

Definition posts_publish (id : Id) : Handler Id :=
  fun d now =>
    match get_post d id with
    | None => (Throw "Post not found", d)
    | Some _ => (Ok id, patch_post id (published_post now) d)
    end.

(** *** [posts.getPublishedForSitemap] *)

Definition posts_getPublishedForSitemap : Handler (list (string * nat)) :=
  fun d _ =>
    (Ok (map (fun post => (p_slug post, p_modifiedAt post))
           (List.filter (fun post => status_eqb (p_status post) published)
              (posts d))),
     d).

(** *** [categories.update] *)

(** The document after [ctx.db.patch(id, updates)]. *)
Definition updated_category (name slug : string) (description : option string)
  (existing : Category) : Category := {|
  c_id := c_id existing;
  c_name := name;
  c_slug := slug;
  c_description := or_keep description (c_description existing)
|}.

Definition patch_category (id : Id) (f : Category -> Category) (d : Db) : Db := {|
  posts := posts d;
  categories :=
    map (fun c => if Nat.eqb (c_id c) id then f c else c) (categories d);
  nextId := nextId d
|}.

Definition categories_update (id : Id) (name slug : string)
  (description : option string) : Handler Id :=
  fun d _ =>
    (* Check if category exists *)
    match get_category d id with
    | None => (Throw "Category not found", d)
    | Some existingCategory =>
        (* Check if slug is being changed to one that already exists *)
        if negb (String.eqb slug (c_slug existingCategory))
           && match first_category_by_slug d slug with
              | Some _ => true
              | None => false
              end
        then (Throw (slug_exists_message "Category" slug), d)
        else (Ok id, patch_category id (updated_category name slug description) d)
    end.

(** *** [categories.deleteCategory] *)

(** [ctx.db.query('posts').withIndex('by_category',
       q => q.eq('categoryId', id)).collect()] *)
Definition posts_with_category (d : Db) (id : Id) : list Post :=
  List.filter (has_category id) (posts d).

Definition category_in_use_message (name : string) (n : nat) : string :=
  "Cannot delete category " +:+ quoted name +:+ " because " +:+ decimal n
  +:+ " post(s) are using it".

Definition delete_category (id : Id) (d : Db) : Db := {|
  posts := posts d;
  categories := List.filter (fun c => negb (Nat.eqb (c_id c) id)) (categories d);
  nextId := nextId d
|}.

Definition categories_deleteCategory (id : Id) : Handler Id :=
  fun d _ =>
    match get_category d id with
    | None => (Throw "Category not found", d)
    | Some category =>
        (* Check if any posts are using this category *)
        let postsWithCategory := posts_with_category d id in
        if (0 <? length postsWithCategory)%nat
        then (Throw (category_in_use_message (c_name category)
                       (length postsWithCategory)), d)
        else (Ok id, delete_category id d)
    end.

End ConvexAdmin.

(* ===================================================================== *)
(** ** The store as a state machine: its mutations, and the stores they
    lead to *)
(* ===================================================================== *)

Module StoreMachine.
Import Convex ConvexAdmin.

(** The mutations the two modules export. *)
Inductive Mutation : Type :=
| PostsCreate (args : PostArgs)
| PostsUpdate (id : Id) (updates : PostArgs)
| PostsDeletePost (id : Id)
| PostsPublish (id : Id)
| PostsUpdateFeaturedImage (id : Id) (featuredImage : string)
| CategoriesCreate (name slug : string) (description : option string)
| CategoriesUpdate (id : Id) (name slug : string) (description : option string)
| CategoriesDeleteCategory (id : Id).

Definition handler_of (m : Mutation) : Handler Id :=
  match m with
  | PostsCreate args => posts_create args
  | PostsUpdate id updates => posts_update id updates
  | PostsDeletePost id => posts_deletePost id
  | PostsPublish id => posts_publish id
  | PostsUpdateFeaturedImage id featuredImage =>
      posts_updateFeaturedImage id featuredImage
  | CategoriesCreate name slug description =>
      categories_create name slug description
  | CategoriesUpdate id name slug description =>
      categories_update id name slug description
  | CategoriesDeleteCategory id => categories_deleteCategory id
  end.

Definition empty_store : Db := {| posts := []; categories := []; nextId := 0 |}.

(** The stores that calls of the mutations lead to from the empty store,
    each call at some time. *)
Inductive reachable : Db -> Prop :=
| reachable_empty : reachable empty_store
| reachable_step (d : Db) (m : Mutation) (now : nat) :
    reachable d -> reachable (snd (handler_of m d now)).

End StoreMachine.

(* ===================================================================== *)
(** ** The seeding script: [scripts/seed-categories.ts]

    The lines the script prints are kept, in order, in its local state,
    beside its three counters; its queries and mutations are events of the
    world, as in the other scripts. *)
(* ===================================================================== *)

Module SeedCategories.
Import Str Runtime.
Local Open Scope run_scope.

Record Seed : Type := {
  name : string;
  slug : string;
  description : string
}.

(** The module-level [categories] array. *)
Definition categories : list Seed := [
  {| name := "SEO"; slug := "seo";
     description := "Search Engine Optimization articles and strategies" |};
  {| name := "GEO"; slug := "geo";
     description := "Generative Engine Optimization insights" |};
  {| name := "Case Studies"; slug := "case-studies";
     description := "Client success stories and results" |};
  {| name := "Industry News"; slug := "industry-news";
     description := "Latest updates in search and digital marketing" |}
].

Inductive Printed : Type :=
| SeedingCategories
| Skipped (name : string)
| Created (name : string)
| Failed (name error : string)
| SeedingComplete
| CreatedCount (n : nat)
| SkippedCount (n : nat)
| FailedCount (n : nat).

Record Seeding : Type := {
  successCount : nat;
  skipCount : nat;
  errorCount : nat;
  printed : list Printed   (** oldest first *)
}.

Definition print (line : Printed) : M Seeding unit :=
  update (fun s =>
    {| successCount := successCount s; skipCount := skipCount s;
       errorCount := errorCount s; printed := printed s ++ [line] |}).

(** [let successCount = 0; let skipCount = 0; let errorCount = 0] *)
Definition reset_counts (s : Seeding) : Seeding :=
  {| successCount := 0; skipCount := 0; errorCount := 0;
     printed := printed s |}.

Definition incr_success (s : Seeding) : Seeding :=
  {| successCount := S (successCount s); skipCount := skipCount s;
     errorCount := errorCount s; printed := printed s |}.
Definition incr_skip (s : Seeding) : Seeding :=
  {| successCount := successCount s; skipCount := S (skipCount s);
     errorCount := errorCount s; printed := printed s |}.
Definition incr_error (s : Seeding) : Seeding :=
  {| successCount := successCount s; skipCount := skipCount s;
     errorCount := S (errorCount s); printed := printed s |}.

(** The body of the loop of [seedCategories]. *)
Definition seed (E : Env) (cat : Seed) : M Seeding unit :=
  try_catch
    ((* Check if category already exists *)
     let! existing :=
       convex_call E (QueryCategoriesGetBySlug (slug cat))
         (Convex.categories_getBySlug (slug cat)) in
     match existing with
     | Some _ =>
         print (Skipped (name cat)) ;;;
         update incr_skip
     | None =>
         (* Create category *)
         let! _ :=
           convex_call E (MutationCategoriesCreate (name cat) (slug cat))
             (Convex.categories_create (name cat) (slug cat)
                (Some (description cat))) in
         print (Created (name cat)) ;;;
         update incr_success
     end)
    (fun error =>
       print (Failed (name cat) error) ;;;
       update incr_error).

(** [seedCategories()] over a given array. *)
Definition seedCategories_of (E : Env) (cats : list Seed) : M Seeding unit :=
  print SeedingCategories ;;;
  update reset_counts ;;;
  foldM (fun _ cat => seed E cat) cats tt ;;;
  let! s := read in
  print SeedingComplete ;;;
  print (CreatedCount (successCount s)) ;;;
  print (SkippedCount (skipCount s)) ;;;
  print (FailedCount (errorCount s)).

(** [seedCategories()] *)
Definition seedCategories (E : Env) : M Seeding unit :=
  seedCategories_of E categories.

End SeedCategories.

(* ===================================================================== *)
(** ** The export with category elements as [xml2js] gives them

    For an element that has attributes [xml2js] gives an object with the
    attributes under [$] and the text under [_]; for an element that has
    none it gives the text alone.  The importer reads [cat.$.domain] of
    every category element of a published post, and that throws for an
    element of the second kind ([cat.$] is [undefined]).  Module [Wxr] has
    the items whose category elements all have attributes; this module has
    the others as well, and the parse and [main] of the importer on
    them. *)
(* ===================================================================== *)

Module RawExport.
Import Str Runtime Wxr Cloudflare.
Local Open Scope run_scope.

Inductive RawCategory : Type :=
| Element (c : WpCategory)   (** [{ _: text, $: { domain: ..., ... } }] *)
| Text (text : string).      (** the text alone *)

(** An [<item>] of the channel, as [WpItem] but for [category]. *)
Record RawItem : Type := {
  r_title : option string;          (** [title] *)
  r_post_type : option string;      (** [wp:post_type] *)
  r_status : option string;         (** [wp:status] *)
  r_post_name : option string;      (** [wp:post_name] *)
  r_post_id : option string;        (** [wp:post_id] *)
  r_attachment_url : option string; (** [wp:attachment_url] *)
  r_content : option string;        (** [content:encoded] *)
  r_excerpt : option string;        (** [excerpt:encoded] *)
  r_pubDate : option string;        (** [pubDate] *)
  r_creator : option string;        (** [dc:creator] *)
  r_category : option (list RawCategory); (** [category] *)
  r_postmeta : option (list WpMeta) (** [wp:postmeta] *)
}.

(** The elements with attributes, in order. *)
Definition elements (cats : list RawCategory) : list WpCategory :=
  flat_map (fun cat => match cat with Element c => [c] | Text _ => [] end) cats.

(** The item with the category elements that have attributes. *)
Definition as_item (item : RawItem) : WpItem := {|
  item_title := r_title item;
  wp_post_type := r_post_type item;
  wp_status := r_status item;
  wp_post_name := r_post_name item;
  wp_post_id := r_post_id item;
  wp_attachment_url := r_attachment_url item;
  content_encoded := r_content item;
  excerpt_encoded := r_excerpt item;
  pubDate := r_pubDate item;
  dc_creator := r_creator item;
  category := option_map elements (r_category item);
  wp_postmeta := r_postmeta item
|}.

(** The [TypeError] of reading [domain] of [undefined]; its text is the
    engine's. *)
Definition no_attributes : string :=
  "TypeError: undefined is not an object (evaluating 'cat.$.domain')".

(** [cats.filter((cat) => cat.$.domain === 'category')] *)
Fixpoint filter_by_domain (cats : list RawCategory)
  : Result (list WpCategory) :=
  match cats with
  | [] => Ok []
  | Element c :: rest =>
      match filter_by_domain rest with
      | Ok kept =>
          Ok (if String.eqb (cat_domain c) "category" then c :: kept else kept)
      | Throw e => Throw e
      end
  | Text _ :: _ => Throw no_attributes
  end.

(** [item.category?.filter(...).map((cat) => cat._) || []] *)
Definition categories_of (item : RawItem) : Result (list string) :=
  match r_category item with
  | Some cats =>
      match filter_by_domain cats with
      | Ok kept => Ok (map cat_text kept)
      | Throw e => Throw e
      end
  | None => Ok []
  end.

(** The body of the second loop of [parseWordPressXML]. *)
Definition extract_post {L} (attachments : AttachmentIndex)
  (posts : list Importer.WordPressPost) (item : RawItem)
  : M L (list Importer.WordPressPost) :=
  (* Skip if not a post *)
  if negb (is_text (r_post_type item) "post") then ret posts
  (* Skip if post status is not publish *)
  else if negb (is_text (r_status item) "publish") then
    log (SkippingNonPublished (or_default (r_title item) "Untitled")) ;;;
    ret posts
  else
    (* Extract categories *)
    let! categories := lift (categories_of item) in
    ret (posts ++ [{|
      Importer.title := or_default (r_title item) "Untitled";
      Importer.slug := or_default (r_post_name item) EmptyString;
      Importer.content := or_default (r_content item) EmptyString;
      Importer.excerpt := or_default (r_excerpt item) EmptyString;
      Importer.publishDate :=
        if truthy (r_pubDate item) then r_pubDate item else None;
      Importer.author := or_default (r_creator item) "Admin";
      Importer.categories := categories;
      Importer.status := Importer.publish;
      Importer.featuredImageUrl :=
        Importer.featuredImageUrl_of attachments (as_item item)
    |}]).

(** [parseWordPressXML], from the parsed item list on. *)
Definition parseWordPressXML {L} (items : list RawItem)
  : M L (list Importer.WordPressPost) :=
  log ReadingExport ;;;
  log ParsingXml ;;;
  log (FoundItems (length items)) ;;;
  (* First pass: Build attachment map (post ID -> image URL) *)
  let attachments := build_attachments (map as_item items) in
  log (FoundAttachments (size attachments)) ;;;
  (* Second pass: Extract blog posts *)
  let! posts := foldM (extract_post attachments) items [] in
  log (FoundPosts (length posts)) ;;;
  ret posts.

(** [main()], from the parsed item list on. *)
Definition main (E : Env) (items : list RawItem)
  : M Importer.Counters unit :=
  log StartingMigration ;;;
  when (isDryRun E) (log DryRunNotice) ;;;
  (* Parse WordPress XML *)
  let! posts := parseWordPressXML items in
  match posts with
  | [] => log NoPostsToMigrate
  | _ :: _ =>
      when (negb (isDryRun E))
        (log (AboutToImport (length posts)) ;;;
         log ImagesWillBeUploaded ;;;
         log PressEnterToContinue ;;;
         traced AwaitEnter (Ok tt)) ;;;
      (* Import posts *)
      Importer.importPosts E posts ;;;
      log (RunComplete (isDryRun E))
  end.

End RawExport.

(* ===================================================================== *)
(** ** Sample export items, stores and environments *)
(* ===================================================================== *)

Module Sample.
Import Str Convex Runtime Wxr.

Definition page_item : WpItem := {|
  item_title := Some "About"; wp_post_type := Some "page";
  wp_status := Some "publish"; wp_post_name := Some "about";
  wp_post_id := Some "3"; wp_attachment_url := None;
  content_encoded := Some "<p>About us</p>"; excerpt_encoded := None;
  pubDate := None; dc_creator := None; category := None; wp_postmeta := None
|}.

Definition post_item (title slug status html : string)
  (metas : list WpMeta) : WpItem := {|
  item_title := Some title; wp_post_type := Some "post";
  wp_status := Some status; wp_post_name := Some slug;
  wp_post_id := None; wp_attachment_url := None;
  content_encoded := Some html; excerpt_encoded := None;
  pubDate := None; dc_creator := Some "Ann";
  category := None; wp_postmeta := Some metas
|}.

Definition attachment_item (id url : string) : WpItem := {|
  item_title := Some "image"; wp_post_type := Some "attachment";
  wp_status := Some "inherit"; wp_post_name := Some "image";
  wp_post_id := Some id; wp_attachment_url := Some url;
  content_encoded := None; excerpt_encoded := None;
  pubDate := None; dc_creator := None; category := None; wp_postmeta := None
|}.

Definition thumbnail (id : string) : WpMeta :=
  {| meta_key := Some "_thumbnail_id"; meta_value := Some id |}.

Definition empty_db : Db := {| posts := []; categories := []; nextId := 0 |}.

(** A stored post with the given slug and featured image. *)
Definition stored_post (id : Id) (slug : string)
  (featuredImage : option string) : Post := {|
  p_id := id; p_title := "Stored"; p_slug := slug; p_content := "text";
  p_excerpt := None; p_featuredImage := featuredImage; p_categoryId := None;
  p_authorId := None; p_authorName := "Ann"; p_status := published;
  p_publishedAt := Some 0; p_scheduledFor := None; p_modifiedAt := 0;
  p_seo := {| metaTitle := None; metaDescription := None; ogImage := None;
              noindex := None |};
  p_relatedPostIds := None
|}.

Definition db_with (p : Post) : Db :=
  {| posts := [p]; categories := []; nextId := S (p_id p) |}.

(** Arguments of a create mutation for the given slug. *)
Definition args_for (slug : string) : PostArgs := {|
  a_title := "New"; a_slug := slug; a_content := "text"; a_excerpt := None;
  a_featuredImage := None; a_categoryId := None; a_authorId := None;
  a_authorName := "Ann"; a_status := published; a_scheduledFor := None;
  a_seo := {| metaTitle := None; metaDescription := None; ogImage := None;
              noindex := None |};
  a_relatedPostIds := None
|}.

Definition start (d : Db) : World :=
  {| db := d; clock := 0; requests := 0; uploads := 0; trace := [] |}.

(** [text.replace(new RegExp(pattern, 'g'), replacement)] by the matcher
    of module [Regex]; a pattern or a replacement outside the fragment is
    reported as an error (the samples stay inside the fragment). *)
Definition fragment_replace (pattern replacement text : string)
  : Result string :=
  match Regex.replace_pattern pattern replacement text with
  | Some r => Ok r
  | None => Throw "pattern outside the modelled fragment"
  end.

(** An environment in which everything works: the converter returns its
    input, every upload of [url] yields the image id [id_of url]. *)
Definition working (id_of : string -> string) (dry : bool) : Env := {|
  turndown := fun html => Ok html;
  regexpReplace := fragment_replace;
  uploadImageFromUrl := fun _ url _ => Ok (id_of url);
  transport := fun _ => None;
  isDryRun := dry;
  isForce := false
|}.

(** The same with an image store that refuses every upload. *)
Definition images_down : Env := {|
  turndown := fun html => Ok html;
  regexpReplace := fragment_replace;
  uploadImageFromUrl := fun _ _ _ => Throw "upload refused";
  transport := fun _ => None;
  isDryRun := false;
  isForce := false
|}.

(** The same with a converter that throws. *)
Definition converter_down : Env := {|
  turndown := fun _ => Throw "converter failed";
  regexpReplace := fragment_replace;
  uploadImageFromUrl := fun _ url _ => Ok "ID";
  transport := fun _ => None;
  isDryRun := false;
  isForce := false
|}.

(** An [<img>] element with the given source. *)
Definition img (src : string) : string :=
  "<img src=" +:+ quoted src +:+ ">".

End Sample.

(* ===================================================================== *)
(** ** The first replacement of the slug derivation as a pattern *)
(* ===================================================================== *)

Module RegexSpec.
Import Str Slug Regex.

(** The characters of the class [a-z0-9]. *)
Definition lower_alnum_chars : list ascii :=
  list_ascii_of_string "abcdefghijklmnopqrstuvwxyz0123456789".

(** The pattern [[^a-z0-9]+]. *)
Definition other_run : list item := [Item (ANoneOf lower_alnum_chars) QPlus].

(** The text after its leading characters outside [a-z0-9]. *)
Fixpoint drop_run (s : string) : string :=
  match s with
  | EmptyString => EmptyString
  | String c s' => if is_lower_alnum c then s else drop_run s'
  end.

(** The number of those characters. *)
Fixpoint run_length (s : string) : nat :=
  match s with
  | EmptyString => 0
  | String c s' => if is_lower_alnum c then 0 else S (run_length s')
  end.

End RegexSpec.

(* ===================================================================== *)
(** ** What is observed of a run *)
(* ===================================================================== *)

Module RunSpec.
Import Convex Runtime.

Definition result_of {L A} (x : Result A * L * World) : Result A := fst (fst x).
Definition locals_of {L A} (x : Result A * L * World) : L := snd (fst x).
Definition world_of {L A} (x : Result A * L * World) : World := snd x.

Definition returns {A} (r : Result A) : Prop :=
  match r with
  | Ok _ => True
  | Throw _ => False
  end.

(** [m] returns normally from every state. *)
Definition never_throws {L A} (m : M L A) : Prop :=
  forall l w, returns (result_of (m l w)).

(** [m] leaves the local variables of its caller alone. *)
Definition keeps_locals {L A} (m : M L A) : Prop :=
  forall l w, locals_of (m l w) = l.

(** [m] maintains the property [P] of the content store. *)
Definition keeps_db (P : Db -> Prop) {L A} (m : M L A) : Prop :=
  forall l w, P (db w) -> P (db (world_of (m l w))).

Definition handler_keeps (P : Db -> Prop) {A} (h : Handler A) : Prop :=
  forall d now, P d -> P (snd (h d now)).

End RunSpec.

(* ===================================================================== *)
(** ** Properties of the content store *)
(* ===================================================================== *)

Module ConvexSpec.
Import Convex Runtime RunSpec.

Definition unique_slugs (d : Db) : Prop := NoDup (post_slugs d).

End ConvexSpec.

(* ===================================================================== *)
(** ** What is observed of the importer *)
(* ===================================================================== *)

Module ImporterSpec.
Import Str Convex Runtime Wxr Cloudflare RunSpec.

(** The world after some more events. *)
Definition emits (evs : list Event) (w : World) : World := {|
  db := db w; clock := clock w; requests := requests w;
  uploads := uploads w; trace := trace w ++ evs
|}.

(** The items the importer keeps. *)
Definition eligible (item : WpItem) : bool :=
  is_text (wp_post_type item) "post" && is_text (wp_status item) "publish".

(** The items whose exclusion is printed. *)
Definition skip_printed (item : WpItem) : bool :=
  is_text (wp_post_type item) "post"
  && negb (is_text (wp_status item) "publish").

Definition skip_line (item : WpItem) : Event :=
  Console (SkippingNonPublished (or_default (item_title item) "Untitled")).

(** The items the basic importer keeps. *)
Definition basic_eligible (item : WpItem) : bool :=
  is_text (wp_post_type item) "post"
  && negb (is_text (wp_status item) "trash").

(** The URLs [migrateImage] sends to the image store. *)
Definition valid_url (url : string) : bool :=
  nonempty url && startsWith "http" url.

(** What [migrateImage] returns when [n] uploads have been requested. *)
Definition migrate_result (E : Env) (alt : string) (n : nat) (url : string)
  : option string :=
  if valid_url url then
    match uploadImageFromUrl E n url alt with
    | Ok imageId => Some (getImageUrl imageId large)
    | Throw _ => None
    end
  else None.

Definition uploads_after (n : nat) (url : string) : nat :=
  if valid_url url then S n else n.

(** What a step that makes no post and lets no time pass does to the
    world. *)
Record evolves (w w' : World) : Prop := {
  ev_posts : posts (db w') = posts (db w);
  ev_clock : clock w' = clock w;
  ev_trace : exists evs, trace w' = trace w ++ evs
}.

(** One entry of the image loop: the URL and what its migration gave. *)
Definition apply_result (acc : list (string * string) * nat)
  (r : string * option string) : list (string * string) * nat :=
  match snd r with
  | Some newUrl => (Importer.set_property (fst r) newUrl (fst acc), snd acc)
  | None => (fst acc, S (snd acc))
  end.

(** The migrations of the image loop, from upload count [n] on. *)
Fixpoint inline_results (E : Env) (alt : string) (n : nat) (urls : list string)
  : list (string * option string) :=
  match urls with
  | [] => []
  | url :: rest =>
      (url, migrate_result E alt n url)
      :: inline_results E alt (uploads_after n url) rest
  end.

(** A migration that returned [null]. *)
Definition is_failed (r : string * option string) : bool :=
  match snd r with
  | None => true
  | Some _ => false
  end.

Definition failed_migrations (rs : list (string * option string)) : nat :=
  length (List.filter is_failed rs).

(** [[
      let updatedHtml = html
      for (const [oldUrl, newUrl] of Object.entries(imageMapping)) {
        updatedHtml = updatedHtml.replace(new RegExp(oldUrl, 'g'), newUrl)
      }
    ]] without the world: the loop only computes. *)
Fixpoint replace_urls (E : Env) (imageMapping : list (string * string))
  (html : string) : Result string :=
  match imageMapping with
  | [] => Ok html
  | (oldUrl, newUrl) :: rest =>
      match regexpReplace E oldUrl newUrl html with
      | Ok updatedHtml => replace_urls E rest updatedHtml
      | Throw e => Throw e
      end
  end.

Definition new_category (d : Db) (name : string) : Category :=
  {| c_id := nextId d; c_name := name; c_slug := Slug.slugify name;
     c_description := None |}.

Definition with_category (d : Db) (name : string) : Db :=
  {| posts := posts d;
     categories := categories d ++ [new_category d name];
     nextId := S (nextId d) |}.

(** The store answers every request. *)
Definition store_reachable (E : Env) : Prop :=
  forall n, transport E n = None.


(** The conversion of the excerpt:
    [post.excerpt ? turndownService.turndown(post.excerpt) : undefined]. *)
Definition excerpt_step (E : Env) (post : Importer.WordPressPost)
  : M Importer.Counters (option string) :=
  if nonempty (Importer.excerpt post)
  then bind (turndown_call E (Importer.excerpt post)) (fun e => ret (Some e))
  else ret None.



Definition featured_step (E : Env) (post : Importer.WordPressPost)
  : M Importer.Counters (option string * bool) :=
  match Importer.featuredImageUrl post with
  | Some url =>
      if nonempty url then
        bind (Importer.migrateImage E url (Importer.title post))
          (fun migratedImage =>
             if truthy migratedImage then ret (migratedImage, false)
             else ret (None, true))
      else ret (None, false)
  | None => ret (None, false)
  end.


(** The world in which the [try] block continues after the existence
    check found nothing. *)
Definition after_check (total i : nat) (post : Importer.WordPressPost)
  (w : World) : World := {|
  db := db w; clock := clock w; requests := S (requests w);
  uploads := uploads w;
  trace := trace w ++
    [Console (Processing (i + 1) total (Importer.title post));
     QueryPostsGetBySlug (Importer.slug post)]
|}.

Definition on_error (error : string) : M Importer.Counters unit :=
  bind (log (FailedToImport error)) (fun _ => update Importer.incr_fail).

(** The mapping and the failure count the image loop of a post ends
    with, when [n] uploads were requested before. *)
Definition inline_outcome (E : Env) (post : Importer.WordPressPost) (n : nat)
  : list (string * string) * nat :=
  fold_left apply_result
    (inline_results E (Importer.title post) n
       (Regex.extract_image_urls (Importer.content post)))
    ([], 0).



(** The attachment items that enter the index. *)
Definition indexes (a : WpItem) (id url : string) : Prop :=
  is_text (wp_post_type a) "attachment" = true
  /\ wp_post_id a = Some id /\ nonempty id = true
  /\ wp_attachment_url a = Some url /\ nonempty url = true.



(** What a turn of the loop may do to the counters when it returns, and
    that it leaves them alone when it throws. *)
Definition attempt_effect (c : Importer.Counters)
  (x : Result unit * Importer.Counters * World) : Prop :=
  match x with
  | (Ok _, c', _) =>
      c' = Importer.incr_skip c
      \/ c' = Importer.incr_success c
      \/ c' = Importer.incr_success (Importer.incr_imageFail c)
  | (Throw _, c', _) => c' = c
  end.

(** The posts a run has dealt with. *)
Definition processed (c : Importer.Counters) : nat :=
  Importer.successCount c + Importer.skipCount c + Importer.failCount c.

(** The console lines of a trace. *)
Fixpoint console (evs : list Event) : list Line :=
  match evs with
  | [] => []
  | Console line :: rest => line :: console rest
  | _ :: rest => console rest
  end.

(** The turn counted a failure and printed the message; no post was
    made. *)
Definition counted_as_failure (E : Env) (total i : nat)
  (post : Importer.WordPressPost) (c : Importer.Counters) (w : World)
  (error : string) : Prop :=
  exists w1,
    Importer.import_post E total i post c w =
      (Ok tt, Importer.incr_fail c, emit (Console (FailedToImport error)) w1)
    /\ posts (db w1) = posts (db w).

(** The content of the post is converted: the substitutions return and
    the converter returns on their result. *)
Definition content_converts (E : Env) (post : Importer.WordPressPost)
  (w : World) : Prop :=
  exists updatedHtml markdown,
    replace_urls E (fst (inline_outcome E post (uploads w)))
      (Importer.content post) = Ok updatedHtml
    /\ turndown E updatedHtml = Ok markdown.

(** The excerpt of the post is converted, if there is one. *)
Definition excerpt_converts (E : Env) (post : Importer.WordPressPost) : Prop :=
  nonempty (Importer.excerpt post) = true ->
  exists markdown, turndown E (Importer.excerpt post) = Ok markdown.

(** The label the resolver is called with, if it is called. *)
Definition resolved_label (post : Importer.WordPressPost) : option string :=
  match Importer.categories post with
  | first :: _ => if nonempty first then Some first else None
  | [] => None
  end.

(** The requests the category resolution of a post sends to a store that
    answers: none without a label, the query, and the create mutation if
    the query finds nothing. *)
Definition category_requests (d : Db) (post : Importer.WordPressPost) : nat :=
  match resolved_label post with
  | Some first =>
      match first_category_by_slug d (Slug.slugify first) with
      | Some _ => 1
      | None => 2
      end
  | None => 0
  end.

(** What a turn of the loop comes to. *)
Definition turn_outcome (E : Env) (post : Importer.WordPressPost)
  (c c' : Importer.Counters) (w w' : World) : Prop :=
  (* skipped: the slug is stored *)
  (c' = Importer.incr_skip c /\ db w' = db w
   /\ exists existing,
        first_post_by_slug (db w) (Importer.slug post) = Some existing)
  (* dry run: counted, nothing written *)
  \/ (isDryRun E = true /\ c' = Importer.incr_success c /\ db w' = db w
      /\ first_post_by_slug (db w) (Importer.slug post) = None)
  (* success: the post is in the store *)
  \/ (isDryRun E = false
      /\ (c' = Importer.incr_success c
          \/ c' = Importer.incr_success (Importer.incr_imageFail c))
      /\ exists p,
           posts (db w') = posts (db w) ++ [p]
           /\ p_slug p = Importer.slug post)
  (* failure: no post was made, and the message is the last line *)
  \/ (c' = Importer.incr_fail c /\ posts (db w') = posts (db w)
      /\ exists error w1, w' = emit (Console (FailedToImport error)) w1).

(** The post table is the one of [d0]. *)
Definition posts_as (d0 d : Db) : Prop := posts d = posts d0.

(** What the part of the turn after the dry-run exit comes to. *)
Definition new_post_outcome (post : Importer.WordPressPost)
  (c : Importer.Counters) (d : Db)
  (x : Result unit * Importer.Counters * World) : Prop :=
  match x with
  | (Ok _, c', w') =>
      (c' = Importer.incr_success c
       \/ c' = Importer.incr_success (Importer.incr_imageFail c))
      /\ exists p,
           posts (db w') = posts d ++ [p] /\ p_slug p = Importer.slug post
  | (Throw _, c', w') => c' = c /\ posts (db w') = posts d
  end.

(** [post.categories[0] ? await getOrCreateCategory(post.categories[0])
    : undefined] *)
Definition category_step (E : Env) (post : Importer.WordPressPost)
  : M Importer.Counters (option Id) :=
  match Importer.categories post with
  | first :: _ =>
      if nonempty first then Importer.getOrCreateCategory E first
      else ret None
  | [] => ret None
  end.

(** The end of the [try] block: the featured image, the create mutation
    and the counters. *)
Definition finish (E : Env) (post : Importer.WordPressPost)
  (content : string) (imagesFailed : nat) (excerpt : option string)
  (categoryId : option Id) : M Importer.Counters unit :=
  bind (featured_step E post) (fun '(featuredImage, featuredImageFailed) =>
  let args :=
    Importer.create_args post content excerpt featuredImage categoryId in
  bind (convex_call E (MutationPostsCreate args) (posts_create args)) (fun _ =>
  bind (log ImportedSuccessfully) (fun _ =>
  bind (when (featuredImageFailed || (0 <? imagesFailed)%nat)
          (bind (log (PostCreatedButImagesFailed featuredImageFailed
                        imagesFailed))
             (fun _ => update Importer.incr_imageFail))) (fun _ =>
  update Importer.incr_success)))).

(** The part of the turn after the dry-run exit threw [error] and made no
    post. *)
Definition throws_without_post (E : Env) (post : Importer.WordPressPost)
  (c : Importer.Counters) (w : World) (error : string) : Prop :=
  exists w1,
    Importer.import_new_post E post c w = (Throw error, c, w1)
    /\ posts (db w1) = posts (db w).

(** The events of a turn of the loop that ends at the existence check or
    at the dry-run exit. *)
Definition check_event (ev : Event) : bool :=
  match ev with
  | Console _ | QueryPostsGetBySlug _ => true
  | _ => false
  end.

(** What a dry run adds to the world: console lines and existence
    checks, and nothing in the store. *)
Definition only_checks (w w' : World) : Prop :=
  db w' = db w
  /\ exists evs, trace w' = trace w ++ evs /\ forallb check_event evs = true.

End ImporterSpec.

(* ===================================================================== *)
(** ** What is observed of the featured-image fixer *)
(* ===================================================================== *)

Module FixSpec.
Import Str Convex Runtime Wxr Cloudflare RunSpec ImporterSpec.
Import FixImages.

(** The file name [processPost] passes with the upload. *)
Definition filename_of (slug url : string) : string :=
  if nonempty (after_last_slash EmptyString url)
  then after_last_slash EmptyString url
  else slug +:+ ".jpg".

(** The world in which [processPost] calls the upload wrapper. *)
Definition before_upload (post : Post) (index total : nat) (url : string)
  (w : World) : World :=
  emits
    [Console (Processing (index + 1) total (p_title post));
     Console (SlugIs (p_slug post));
     Console (WordPressUrl url)]
    w.

(** What [processPost] may do to the failure count and the error list. *)
Definition failure_recorded (slug : string) (s s' : Stats) : Prop :=
  (failed s' = failed s /\ errors s' = errors s)
  \/ exists error,
       failed s' = S (failed s) /\ errors s' = errors s ++ [(slug, error)].

End FixSpec.

(* ===================================================================== *)
(** ** Sample posts *)
(* ===================================================================== *)

Module PipelineSpec.
Import Str Convex Runtime Wxr Cloudflare RunSpec ImporterSpec FixSpec.

Definition post_with_slug (slug : string) : Importer.WordPressPost := {|
  Importer.title := "Hello";
  Importer.slug := slug;
  Importer.content := "<p>Hi</p>";
  Importer.excerpt := EmptyString;
  Importer.publishDate := None;
  Importer.author := "Ann";
  Importer.categories := [];
  Importer.status := Importer.publish;
  Importer.featuredImageUrl := None
|}.

(** A store that answers the first request of a run and loses the
    connection at the second. *)
Definition second_request_fails : Env := {|
  turndown := fun html => Ok html;
  regexpReplace := Sample.fragment_replace;
  uploadImageFromUrl := fun _ _ _ => Ok "ID";
  transport := fun n =>
    match n with
    | 1 => Some "connection lost"
    | _ => None
    end;
  isDryRun := false;
  isForce := false
|}.

Definition basic_post_with_slug (slug : string)
  (featured : option WpMeta) : BasicImporter.WordPressPost := {|
  BasicImporter.title := "Hello";
  BasicImporter.slug := slug;
  BasicImporter.content := "<p>Hi</p>";
  BasicImporter.excerpt := EmptyString;
  BasicImporter.publishDate := None;
  BasicImporter.author := "Ann";
  BasicImporter.categories := [];
  BasicImporter.status := BasicImporter.publish;
  BasicImporter.featuredImageUrl := featured
|}.


End PipelineSpec.

(* ===================================================================== *)
(** ** What a label is made of *)
(* ===================================================================== *)

Module SlugLawsSpec.
Import Str Slug Regex.

(** The text has a character of [a-z0-9]. *)
Fixpoint has_alnum (s : string) : bool :=
  match s with
  | EmptyString => false
  | String c s' => is_lower_alnum c || has_alnum s'
  end.

End SlugLawsSpec.

(* ===================================================================== *)
(** ** Parts of the image pattern *)
(* ===================================================================== *)

Module ImageUrlsSpec.
Import Str Regex.

(** Every character of the text satisfies [p]. *)
Fixpoint all_chars (p : ascii -> bool) (s : string) : bool :=
  match s with
  | EmptyString => true
  | String c s' => p c && all_chars p s'
  end.

(** The class [[^Q>]] of the capture group, Q being the double quote. *)
Definition is_url_char (c : ascii) : bool :=
  atom_matches (ANoneOf [dquote; ">"%char]) c.

(** The items of a pattern before its first capture group have no mark. *)
Definition no_marks (its : list item) : bool :=
  forallb (fun it => match it with Mark => false | Item _ _ => true end) its.

(** The image pattern up to the capture group, and from it on. *)
Definition before_group : list item :=
  lit "<img" ++ [Item (ANoneOf [">"%char]) QPlus] ++ lit "src="
  ++ [Item (AChar dquote) QOne].

Definition group_and_quote : list item :=
  [Mark; Item (ANoneOf [dquote; ">"%char]) QPlus; Mark;
   Item (AChar dquote) QOne].

End ImageUrlsSpec.

(* ===================================================================== *)
(** ** What is observed of a whole run *)
(* ===================================================================== *)

Module ImporterRunsSpec.
Import Str Convex Runtime Wxr Cloudflare RunSpec ImporterSpec.

(** Events that read and print: console lines and queries. *)
Definition read_only (ev : Event) : bool :=
  match ev with
  | Console _ | QueryPostsGetBySlug _ | QueryPostsList
  | QueryCategoriesGetBySlug _ => true
  | _ => false
  end.

(** From [w] to [w'] nothing was written: the store, the upload count and
    the clock are the same, and the events added are read-only. *)
Record quiet (w w' : World) : Prop := {
  quiet_db : db w' = db w;
  quiet_uploads : uploads w' = uploads w;
  quiet_clock : clock w' = clock w;
  quiet_trace :
    exists evs, trace w' = trace w ++ evs /\ forallb read_only evs = true
}.

Definition stays_quiet {L A} (m : M L A) : Prop :=
  forall l w, quiet w (world_of (m l w)).

(** The two lines [migrateImage] prints for a URL it does not send. *)
Definition invalid_lines (urls : list string) : list Event :=
  flat_map
    (fun url => [Console (MigratingImage url); Console (InvalidImageUrl url)])
    urls.

(** The events of [main] up to the end of the parse. *)
Definition parse_events (E : Env) (items : list WpItem) : list Event :=
  [Console StartingMigration]
  ++ (if isDryRun E then [Console DryRunNotice] else [])
  ++ [Console ReadingExport; Console ParsingXml;
      Console (FoundItems (length items));
      Console (FoundAttachments (size (build_attachments items)))]
  ++ map skip_line (List.filter skip_printed items)
  ++ [Console (FoundPosts (length (List.filter eligible items)))].

(** The post and category tables of [d] begin with those of [d0]. *)
Definition grows_from (d0 d : Db) : Prop :=
  (exists added, posts d = posts d0 ++ added)
  /\ (exists added, categories d = categories d0 ++ added)
  /\ nextId d0 <= nextId d.

Definition category_slugs (d : Db) : list string := map c_slug (categories d).

Definition unique_category_slugs (d : Db) : Prop := NoDup (category_slugs d).

(** The counters account for [n] posts. *)
Definition accounts_for (n : nat) (c : Importer.Counters) : Prop :=
  processed c = n /\ Importer.imageFailCount c <= Importer.successCount c.

Definition skipped_more (n : nat) (c : Importer.Counters) : Importer.Counters :=
  {| Importer.successCount := Importer.successCount c;
     Importer.skipCount := n + Importer.skipCount c;
     Importer.failCount := Importer.failCount c;
     Importer.imageFailCount := Importer.imageFailCount c |}.

End ImporterRunsSpec.

(* ===================================================================== *)
(** ** Category elements with and without attributes *)
(* ===================================================================== *)

Module RawRunsSpec.
Import Str Convex Runtime Wxr Cloudflare RawExport RunSpec ImporterSpec ImporterRunsSpec.

Definition has_attributes (cat : RawCategory) : bool :=
  match cat with
  | Element _ => true
  | Text _ => false
  end.

(** Every category element of the item has attributes. *)
Definition attributed (item : RawItem) : bool :=
  match r_category item with
  | Some cats => forallb has_attributes cats
  | None => true
  end.

(** The items the importer reads the categories of. *)
Definition is_published (item : RawItem) : bool := eligible (as_item item).

(** A is_published post with the given category elements. *)
Definition raw_post (title slug : string) (cats : list RawCategory)
  : RawItem := {|
  r_title := Some title; r_post_type := Some "post";
  r_status := Some "publish"; r_post_name := Some slug;
  r_post_id := None; r_attachment_url := None;
  r_content := Some "<p>Hi</p>"; r_excerpt := None;
  r_pubDate := None; r_creator := Some "Ann";
  r_category := Some cats; r_postmeta := None
|}.

Definition news_element : RawCategory :=
  Element {| cat_domain := "category"; cat_text := "News" |}.

Definition plain_export : list RawItem :=
  [raw_post "Hello" "hello" [news_element]].

Definition bare_export : list RawItem :=
  [raw_post "Hello" "hello" [news_element; Text "Misc"]].

End RawRunsSpec.

(* ===================================================================== *)
(** ** Properties of stores *)
(* ===================================================================== *)

Module StoreLawsSpec.
Import Str Convex ConvexAdmin StoreMachine ConvexSpec ImporterRunsSpec.

Definition post_ids (d : Db) : list Id := map p_id (posts d).

Definition category_ids (d : Db) : list Id := map c_id (categories d).

(** No stored id has reached the next fresh id. *)
Definition ids_below (d : Db) : Prop :=
  (forall id, In id (post_ids d) -> id < nextId d)
  /\ (forall id, In id (category_ids d) -> id < nextId d).

(** A published post has a publication time. *)
Definition dated (p : Post) : Prop :=
  p_status p = published -> p_publishedAt p <> None.

Record well_formed (d : Db) : Prop := {
  wf_ids_below : ids_below d;
  wf_post_ids : NoDup (post_ids d);
  wf_category_ids : NoDup (category_ids d);
  wf_post_slugs : NoDup (post_slugs d);
  wf_category_slugs : NoDup (category_slugs d);
  wf_dated : Forall dated (posts d)
}.



(** Every category reference of a post resolves. *)
Definition references_resolve (d : Db) : Prop :=
  forall p cid,
    In p (posts d) -> p_categoryId p = Some cid ->
    exists c, get_category d cid = Some c.

(** A store with one draft. *)
Definition draft_args : PostArgs := {|
  a_title := "Draft"; a_slug := "draft"; a_content := "text";
  a_excerpt := None; a_featuredImage := None; a_categoryId := None;
  a_authorId := None; a_authorName := "Ann"; a_status := draft;
  a_scheduledFor := None;
  a_seo := {| metaTitle := None; metaDescription := None; ogImage := None;
              noindex := None |};
  a_relatedPostIds := None
|}.

Definition draft_store : Db := snd (posts_create draft_args empty_store 5).

(** The same store after the draft was published and its slug changed. *)
Definition published_store : Db :=
  snd (posts_update 0
         {| a_title := "Draft"; a_slug := "final"; a_content := "text";
            a_excerpt := None; a_featuredImage := None; a_categoryId := None;
            a_authorId := None; a_authorName := "Ann"; a_status := published;
            a_scheduledFor := None; a_seo := a_seo draft_args;
            a_relatedPostIds := None |}
         (snd (posts_publish 0 draft_store 9)) 12).

(** A store with one category, and the arguments of a post filed under
    it that gives every optional field. *)
Definition filed_store : Db :=
  snd (categories_create "News" "news" None empty_store 3).

Definition filed_args : PostArgs := {|
  a_title := "Hello"; a_slug := "hello"; a_content := "text";
  a_excerpt := Some "short"; a_featuredImage := Some "image";
  a_categoryId := Some 0; a_authorId := Some "ann"; a_authorName := "Ann";
  a_status := published; a_scheduledFor := Some 9;
  a_seo := {| metaTitle := Some "Hello"; metaDescription := Some "short";
              ogImage := None; noindex := Some false |};
  a_relatedPostIds := Some []
|}.

(** The same store with that post: its category is in use. *)
Definition used_store : Db := snd (posts_create filed_args filed_store 5).

(** The category a post is returned with. *)
Definition category_of (d : Db) (categoryId : option Id) : option Category :=
  match categoryId with
  | Some cid => get_category d cid
  | None => None
  end.

(** [ctx.db.patch] on a table: the element with the key is replaced. *)
Definition patch_list {A} (key : A -> nat) (f : A -> A) (id : nat)
  (l : list A) : list A :=
  map (fun x => if Nat.eqb (key x) id then f x else x) l.

End StoreLawsSpec.

(* ===================================================================== *)
(** ** What is observed of a run of the fixer *)
(* ===================================================================== *)

Module FixerRunsSpec.
Import Str Convex ConvexAdmin Runtime Wxr Cloudflare RunSpec ConvexSpec ImporterSpec FixSpec ImageUrlsSpec ImporterRunsSpec StoreLawsSpec.
Import FixImages.

(** The posts the statistics have counted. *)
Definition tallied (s : Stats) : nat := success s + skipped s + failed s.

(** What [processPost] does to the statistics of the run. *)
Definition tally_step (slug : string) (s s' : Stats) : Prop :=
  total s' = total s
  /\ tallied s' = S (tallied s)
  /\ failure_recorded slug s s'.

(** The error list has one entry for each counted failure, each under a
    slug of the list. *)
Definition consistent (slugs : list string) (s : Stats) : Prop :=
  failed s = length (errors s)
  /\ forall slug error, In (slug, error) (errors s) -> In slug slugs.

(** The end of [main]: the summary. *)
Definition print_summary (E : Env) : M Stats unit :=
  bind read (fun s =>
  bind (log SummaryRule) (fun _ =>
  bind (log SummaryTitle) (fun _ =>
  bind (log SummaryRule) (fun _ =>
  bind (log (SummaryTotal (total s))) (fun _ =>
  bind (log (SummarySuccessful (success s))) (fun _ =>
  bind (log (SummarySkipped (skipped s))) (fun _ =>
  bind (log (SummaryFailed (failed s))) (fun _ =>
  bind (when (0 <? length (errors s))%nat
          (bind (log FailedPostsTitle) (fun _ =>
           foldM (fun _ e => log (SummaryFailedPost (fst e) (snd e)))
             (errors s) tt))) (fun _ =>
  bind (when (isDryRun E) (log DryRunReminder)) (fun _ =>
  log ScriptCompleted)))))))))).

(** Two documents that differ at most in the featured image and the
    modification time. *)
Definition same_but_image (p p' : Post) : Prop :=
  p_id p' = p_id p /\ p_title p' = p_title p /\ p_slug p' = p_slug p
  /\ p_content p' = p_content p /\ p_excerpt p' = p_excerpt p
  /\ p_categoryId p' = p_categoryId p /\ p_authorId p' = p_authorId p
  /\ p_authorName p' = p_authorName p /\ p_status p' = p_status p
  /\ p_publishedAt p' = p_publishedAt p
  /\ p_scheduledFor p' = p_scheduledFor p /\ p_seo p' = p_seo p
  /\ p_relatedPostIds p' = p_relatedPostIds p.

Definition only_images_differ (d0 d : Db) : Prop :=
  Forall2 same_but_image (posts d0) (posts d)
  /\ categories d = categories d0.

Definition is_console (ev : Event) : bool :=
  match ev with
  | Console _ => true
  | _ => false
  end.

Definition skipped_stats (n : nat) (s : Stats) : Stats :=
  {| total := total s; success := success s; skipped := n + skipped s;
     failed := failed s; errors := errors s |}.

(** The [_thumbnail_id] meta elements of an item. *)
Definition metas_of (item : WpItem) : list WpMeta :=
  match wp_postmeta item with
  | Some metas => metas
  | None => []
  end.

(** A post item with the slug has a [_thumbnail_id] meta element with the
    value [id]. *)
Definition names_thumbnail (item : WpItem) (slug id : string) : Prop :=
  is_text (wp_post_type item) "post" = true
  /\ wp_post_name item = Some slug
  /\ exists meta,
       In meta (metas_of item)
       /\ is_text (meta_key meta) "_thumbnail_id" = true
       /\ meta_value meta = Some id.

(** A decimal numeral, as the post ids of an export are. *)
Definition is_digit (c : ascii) : bool :=
  (48 <=? nat_of_ascii c)%nat && (nat_of_ascii c <=? 57)%nat.

Definition numeral (s : string) : bool :=
  nonempty s && all_chars is_digit s.

(** The [_thumbnail_id] meta elements of the export name decimal
    numerals. *)
Definition thumbnails_are_numerals (items : list WpItem) : Prop :=
  forall item meta id,
    In item items -> In meta (metas_of item) ->
    is_text (meta_key meta) "_thumbnail_id" = true ->
    meta_value meta = Some id ->
    numeral id = true.

(** A stored post without featured image, and an export that has one for
    its slug. *)
Definition bare_post : Post := Sample.stored_post 0 "hello" None.

(** An export with one post and its image. *)
Definition one_post_export : list WpItem :=
  [Sample.post_item "Hello" "hello" "publish" "<p>Hi</p>"
     [Sample.thumbnail "10"];
   Sample.attachment_item "10" "http://old.site/f.jpg"].

(** A dry run of the fixer on an export with one post and its image. *)
Definition dry_fix : Result unit * Stats * World :=
  FixImages.main (Sample.working (fun _ => "ID") true)
    [Sample.post_item "Hello" "hello" "publish" "<p>Hi</p>"
       [Sample.thumbnail "10"];
     Sample.attachment_item "10" "http://old.site/f.jpg"]
    no_stats (Sample.start (Sample.db_with bare_post)).

(** An image store that refuses the first upload request of a run and
    accepts the later ones. *)
Definition flaky : Env := {|
  turndown := fun html => Ok html;
  regexpReplace := Sample.fragment_replace;
  uploadImageFromUrl := fun n _ _ =>
    match n with
    | 0 => Throw "upload refused"
    | S _ => Ok "ID"
    end;
  transport := fun _ => None;
  isDryRun := false;
  isForce := false
|}.

End FixerRunsSpec.

(* ===================================================================== *)
(** ** What is observed of a run of the seeding script *)
(* ===================================================================== *)

Module SeedingRunsSpec.
Import SeedCategories.
Import Str Convex Runtime RunSpec ConvexSpec ImporterRunsSpec StoreLawsSpec.

(** A connection that never fails. *)
Definition connected (E : Env) : Prop := forall n, transport E n = None.

(** What one turn of the loop does when the connection works. *)
Definition seeded (cat : Seed) (s s' : Seeding) (w w' : World) : Prop :=
  errorCount s' = errorCount s
  /\ successCount s' + skipCount s' = S (successCount s + skipCount s)
  /\ posts (db w') = posts (db w)
  /\ (exists added,
        Convex.categories (db w') = Convex.categories (db w) ++ added
        /\ length added + successCount s = successCount s')
  /\ In (slug cat) (category_slugs (db w')).

Definition no_seeding : Seeding :=
  {| successCount := 0; skipCount := 0; errorCount := 0; printed := [] |}.

End SeedingRunsSpec.

(* ===================================================================== *)
(** ** Runs that end in the catch block *)
(* ===================================================================== *)

Module BasicRunsSpec.
Import Str Convex Runtime RunSpec.

(** The post table is the one of [d0]. *)
Definition same_posts (d0 d : Db) : Prop := posts d = posts d0.

(** From a store with the posts of [d0], [m] throws, and leaves the local
    variables and the posts as they are. *)
Definition always_throws (d0 : Db) {L A} (m : M L A) : Prop :=
  forall l w,
    same_posts d0 (db w) ->
    (exists e, result_of (m l w) = Throw e)
    /\ locals_of (m l w) = l
    /\ same_posts d0 (db (world_of (m l w))).

End BasicRunsSpec.

(* ===================================================================== *)
(** ** Facts about slug derivation *)
(* ===================================================================== *)

Module SlugFacts.
Import Str Slug.

Lemma is_hyphen_eq c : is_hyphen c = true -> c = hyphen.
Proof. unfold is_hyphen. apply Ascii.eqb_eq. Qed.

Lemma hyphen_not_alnum : is_lower_alnum hyphen = false.
Proof. reflexivity. Qed.

Lemma slug_char_not_upper c : is_slug_char c = true -> is_upper c = false.
Proof.
  unfold is_slug_char, is_lower_alnum, is_upper.
  destruct (is_hyphen c) eqn:Hh.
  - apply is_hyphen_eq in Hh. subst c. reflexivity.
  - rewrite orb_false_r. intros H.
    apply orb_true_iff in H.
    destruct H as [H | H]; apply andb_true_iff in H; destruct H as [H1 H2];
      apply Nat.leb_le in H1; apply Nat.leb_le in H2;
      apply andb_false_iff.
    + right. apply Nat.leb_gt. lia.
    + left. apply Nat.leb_gt. lia.
Qed.

Lemma lower_char_slug c : is_slug_char c = true -> lower_char c = c.
Proof.
  intros H. unfold lower_char. now rewrite (slug_char_not_upper c H).
Qed.

Lemma toLowerCase_slug s : all_slug_chars s = true -> toLowerCase s = s.
Proof.
  induction s as [|c s IH]; simpl; [reflexivity|].
  intros H. apply andb_true_iff in H. destruct H as [Hc Hs].
  now rewrite lower_char_slug, IH.
Qed.

(** On text free of doubled hyphens the collapse of runs changes nothing,
    provided a run that is already open is not continued. *)
Lemma collapse_slug s : forall in_run,
  all_slug_chars s = true ->
  has_double_hyphen s = false ->
  (in_run = true -> starts_with_hyphen s = false) ->
  collapse in_run s = s.
Proof.
  induction s as [|c s IH]; intros in_run Hall Hdbl Hrun; simpl; [reflexivity|].
  simpl in Hall. apply andb_true_iff in Hall. destruct Hall as [Hc Hs].
  assert (Hdbl' : has_double_hyphen s = false).
  { destruct s as [|d s']; [reflexivity|].
    simpl in Hdbl. apply orb_false_iff in Hdbl. apply Hdbl. }
  destruct (is_lower_alnum c) eqn:Ha.
  - f_equal. apply IH; [assumption | assumption | discriminate].
  - unfold is_slug_char in Hc. rewrite Ha in Hc. simpl in Hc.
    destruct in_run.
    + simpl in Hrun. rewrite Hrun in Hc by reflexivity. discriminate.
    + rewrite (is_hyphen_eq c Hc). f_equal.
      apply IH; [assumption | assumption |].
      intros _. destruct s as [|d s']; [reflexivity|].
      simpl in Hdbl. rewrite Hc in Hdbl. simpl in Hdbl.
      apply orb_false_iff in Hdbl. apply Hdbl.
Qed.

Lemma strip_leading_id s : starts_with_hyphen s = false -> strip_leading s = s.
Proof. destruct s as [|c s]; simpl; [reflexivity|]. now intros ->. Qed.

Lemma strip_trailing_id s : ends_with_hyphen s = false -> strip_trailing s = s.
Proof.
  induction s as [|c s IH]; [reflexivity|].
  intros H. destruct s as [|d s'].
  - simpl in *. now rewrite H.
  - change (ends_with_hyphen (String d s') = false) in H.
    change (strip_trailing (String c (String d s')))
      with (match strip_trailing (String d s') with
            | EmptyString =>
                if is_hyphen c then EmptyString else String c EmptyString
            | r => String c r
            end).
    now rewrite (IH H).
Qed.

(** Text made of slug characters, without a hyphen at either end and
    without two hyphens in a row, is a fixed point of the derivation. *)
Lemma slugify_fixes s :
  all_slug_chars s = true ->
  starts_with_hyphen s = false ->
  ends_with_hyphen s = false ->
  has_double_hyphen s = false ->
  slugify s = s.
Proof.
  intros Hchars Hstart Hend Hdouble. unfold slugify, strip_hyphens.
  rewrite toLowerCase_slug by assumption.
  rewrite collapse_slug by (assumption || discriminate).
  rewrite strip_leading_id by assumption.
  now apply strip_trailing_id.
Qed.

Lemma valid_slug_parts s :
  valid_slug s = true ->
  all_slug_chars s = true /\ starts_with_hyphen s = false
  /\ ends_with_hyphen s = false /\ has_double_hyphen s = false.
Proof.
  unfold valid_slug. intros H.
  repeat (apply andb_true_iff in H; destruct H as [H ?]).
  repeat match goal with
         | Hn : negb _ = true |- _ => apply negb_true_iff in Hn
         end.
  now repeat split.
Qed.

(** *** The derivation always produces a valid slug *)

Lemma collapse_chars s : forall in_run, all_slug_chars (collapse in_run s) = true.
Proof.
  induction s as [|c s IH]; intros in_run; simpl; [reflexivity|].
  destruct (is_lower_alnum c) eqn:Ha.
  - simpl. unfold is_slug_char. now rewrite Ha, IH.
  - destruct in_run; [apply IH|]. simpl. now rewrite IH.
Qed.

Lemma collapse_run_start s : starts_with_hyphen (collapse true s) = false.
Proof.
  induction s as [|c s IH]; simpl; [reflexivity|].
  destruct (is_lower_alnum c) eqn:Ha; [|assumption].
  simpl. unfold is_hyphen. destruct (Ascii.eqb c hyphen) eqn:Hc; [|reflexivity].
  apply Ascii.eqb_eq in Hc. subst c. discriminate.
Qed.

Lemma alnum_not_hyphen c : is_lower_alnum c = true -> is_hyphen c = false.
Proof.
  intros Ha. destruct (is_hyphen c) eqn:Hc; [|reflexivity].
  apply is_hyphen_eq in Hc. subst c. discriminate.
Qed.

Lemma collapse_no_double s : forall in_run,
  has_double_hyphen (collapse in_run s) = false.
Proof.
  induction s as [|c s IH]; intros in_run; simpl; [reflexivity|].
  destruct (is_lower_alnum c) eqn:Ha.
  - specialize (IH false).
    destruct (collapse false s) as [|d r] eqn:Hr; [reflexivity|].
    change (has_double_hyphen (String c (String d r)))
      with ((is_hyphen c && is_hyphen d) || has_double_hyphen (String d r)).
    now rewrite (alnum_not_hyphen c Ha), IH.
  - destruct in_run; [apply IH|].
    pose proof (collapse_run_start s) as Hst. specialize (IH true).
    destruct (collapse true s) as [|d r] eqn:Hr; [reflexivity|].
    change (has_double_hyphen (String hyphen (String d r)))
      with ((is_hyphen hyphen && is_hyphen d) || has_double_hyphen (String d r)).
    simpl in Hst. now rewrite Hst, IH, andb_false_r.
Qed.

Lemma double_hyphen_tail c s :
  has_double_hyphen (String c s) = false -> has_double_hyphen s = false.
Proof.
  destruct s as [|d s']; [reflexivity|].
  simpl. intros H. apply orb_false_iff in H. apply H.
Qed.

Lemma strip_leading_chars s :
  all_slug_chars s = true -> all_slug_chars (strip_leading s) = true.
Proof.
  induction s as [|c s IH]; simpl; [reflexivity|].
  intros H. destruct (is_hyphen c); [|exact H].
  apply andb_true_iff in H. apply IH, H.
Qed.

Lemma strip_leading_no_double s :
  has_double_hyphen s = false -> has_double_hyphen (strip_leading s) = false.
Proof.
  induction s as [|c s IH]; [reflexivity|].
  intros H. change (strip_leading (String c s))
    with (if is_hyphen c then strip_leading s else String c s).
  destruct (is_hyphen c); [|exact H].
  apply IH. exact (double_hyphen_tail c s H).
Qed.

Lemma strip_leading_start s : starts_with_hyphen (strip_leading s) = false.
Proof.
  induction s as [|c s IH]; simpl; [reflexivity|].
  destruct (is_hyphen c) eqn:Hc; [assumption|]. simpl. exact Hc.
Qed.

(** [strip_trailing] unfolded one step. *)
Lemma strip_trailing_cons c s :
  strip_trailing (String c s) =
  match strip_trailing s with
  | EmptyString => if is_hyphen c then EmptyString else String c EmptyString
  | r => String c r
  end.
Proof. reflexivity. Qed.

Lemma strip_trailing_chars s :
  all_slug_chars s = true -> all_slug_chars (strip_trailing s) = true.
Proof.
  induction s as [|c s IH]; [reflexivity|].
  intros H. simpl in H. apply andb_true_iff in H. destruct H as [Hc Hs].
  rewrite strip_trailing_cons. specialize (IH Hs).
  destruct (strip_trailing s) as [|d r].
  - destruct (is_hyphen c); simpl; [reflexivity|]. now rewrite Hc.
  - simpl in *. now rewrite Hc, IH.
Qed.

Lemma strip_trailing_start s :
  starts_with_hyphen s = false -> starts_with_hyphen (strip_trailing s) = false.
Proof.
  destruct s as [|c s]; [reflexivity|].
  rewrite strip_trailing_cons. simpl. intros Hc.
  destruct (strip_trailing s); [now rewrite Hc | exact Hc].
Qed.

(** The head of the stripped text is the head of the text. *)
Lemma strip_trailing_head s d r :
  strip_trailing s = String d r -> exists s', s = String d s'.
Proof.
  destruct s as [|c s]; [discriminate|].
  rewrite strip_trailing_cons.
  destruct (strip_trailing s).
  - destruct (is_hyphen c); [discriminate|]. intros [= <- <-]. eauto.
  - intros [= <- <-]. eauto.
Qed.

Lemma strip_trailing_no_double s :
  has_double_hyphen s = false -> has_double_hyphen (strip_trailing s) = false.
Proof.
  induction s as [|c s IH]; [reflexivity|].
  intros H. rewrite strip_trailing_cons.
  specialize (IH (double_hyphen_tail c s H)).
  destruct (strip_trailing s) as [|d r] eqn:Hr.
  - destruct (is_hyphen c); reflexivity.
  - destruct (strip_trailing_head s d r Hr) as [s' ->].
    simpl in H. apply orb_false_iff in H. destruct H as [Hcd _].
    change (has_double_hyphen (String c (String d r)))
      with ((is_hyphen c && is_hyphen d) || has_double_hyphen (String d r)).
    now rewrite Hcd, IH.
Qed.

Lemma strip_trailing_end s : ends_with_hyphen (strip_trailing s) = false.
Proof.
  induction s as [|c s IH]; [reflexivity|].
  rewrite strip_trailing_cons.
  destruct (strip_trailing s) as [|d r].
  - destruct (is_hyphen c) eqn:Hc; simpl; [reflexivity | exact Hc].
  - exact IH.
Qed.

(** The result of the derivation is a valid slug, for every label. *)
Lemma slugify_valid label : valid_slug (slugify label) = true.
Proof.
  unfold slugify, strip_hyphens, valid_slug.
  set (t := collapse false (toLowerCase label)).
  rewrite strip_trailing_chars
    by (apply strip_leading_chars, collapse_chars).
  rewrite strip_trailing_start by apply strip_leading_start.
  rewrite strip_trailing_end.
  rewrite strip_trailing_no_double
    by (apply strip_leading_no_double, collapse_no_double).
  reflexivity.
Qed.

(** The valid slugs are exactly the fixed points of the derivation. *)
Lemma slugify_fixed_iff s : slugify s = s <-> valid_slug s = true.
Proof.
  split.
  - intros H. rewrite <- H. apply slugify_valid.
  - intros H. apply valid_slug_parts in H.
    destruct H as (Hchars & Hstart & Hend & Hdouble). now apply slugify_fixes.
Qed.

Lemma slugify_twice label : slugify (slugify label) = slugify label.
Proof. apply slugify_fixed_iff, slugify_valid. Qed.

Example slugify_case_studies : slugify "Case Studies" = "case-studies".
Proof. reflexivity. Qed.

Example slugify_punctuation :
  slugify "  --Hello,  World!! 2024--" = "hello-world-2024".
Proof. reflexivity. Qed.

(** C10.  Slug derivation is idempotent: deriving a slug from a string
    that is already a valid slug (lower-case alphanumeric groups separated
    by single hyphens, no hyphen at either end) yields the same string. *)
Theorem slug_derivation_idempotent (s : string) :
  valid_slug s = true -> slugify s = s.
Proof.
  unfold valid_slug. intros H.
  apply andb_true_iff in H. destruct H as [H Hdouble].
  apply andb_true_iff in H. destruct H as [H Hend].
  apply andb_true_iff in H. destruct H as [Hchars Hstart].
  apply negb_true_iff in Hstart, Hend, Hdouble.
  unfold slugify, strip_hyphens.
  (* lower-casing changes no slug character *)
  rewrite (toLowerCase_slug s Hchars).
  (* there is no run of other characters to collapse *)
  rewrite (collapse_slug s false Hchars Hdouble) by discriminate.
  (* and no hyphen to strip at either end *)
  rewrite (strip_leading_id s Hstart).
  exact (strip_trailing_id s Hend).
Qed.

Lemma slug_derivation_idempotent_witness :
  valid_slug "case-studies" = true /\ slugify "case-studies" = "case-studies".
Proof.
  split; [reflexivity|].
  apply (slug_derivation_idempotent "case-studies"). reflexivity.
Defined.

End SlugFacts.

(* ===================================================================== *)
(** ** The first replacement of the slug derivation, by the matcher *)
(* ===================================================================== *)

Module RegexFacts.
Import Str Slug Regex.
Import RegexSpec.

Lemma class_is_lower_alnum c :
  atom_matches (ANoneOf lower_alnum_chars) c = negb (is_lower_alnum c).
Proof. destruct c as [[] [] [] [] [] [] [] []]; reflexivity. Qed.

Lemma star_takes_the_run s :
  star (ANoneOf lower_alnum_chars)
    (fun r => Some (@nil string, r)) s = Some ([], drop_run s).
Proof.
  induction s as [|c s IH]; [reflexivity|].
  cbn [star drop_run]. rewrite class_is_lower_alnum.
  destruct (is_lower_alnum c); cbn [negb]; [reflexivity|]. now rewrite IH.
Qed.

Lemma match_other_run c s :
  match_here other_run (String c s) =
    if is_lower_alnum c then None else Some ([], drop_run s).
Proof.
  unfold other_run. cbn [match_here]. rewrite class_is_lower_alnum.
  destruct (is_lower_alnum c); cbn [negb]; [reflexivity|].
  apply star_takes_the_run.
Qed.

Lemma drop_run_length s :
  String.length s = run_length s + String.length (drop_run s).
Proof.
  induction s as [|c s IH]; [reflexivity|].
  cbn [drop_run run_length]. destruct (is_lower_alnum c); cbn; lia.
Qed.

Lemma matched_run_length c s :
  matched_length (String c s) (drop_run s) = S (run_length s).
Proof.
  unfold matched_length. cbn [String.length].
  rewrite (drop_run_length s) at 1. lia.
Qed.

(** [label.replace(/[^a-z0-9]+/g, '-')], computed by the matcher, is
    [collapse]: inside a run that is being replaced the rest of the run is
    passed over, outside every run is replaced by one hyphen. *)
Lemma replace_other_runs s :
  replace_all other_run "-" (run_length s) s = collapse true s
  /\ replace_all other_run "-" 0 s = collapse false s.
Proof.
  induction s as [|c s [IHrun IH0]]; [split; reflexivity|].
  assert (H0 : replace_all other_run "-" 0 (String c s) =
               collapse false (String c s)).
  { cbn [replace_all collapse]. rewrite match_other_run.
    destruct (is_lower_alnum c).
    - now rewrite IH0.
    - rewrite matched_run_length. now rewrite IHrun. }
  split; [|exact H0].
  cbn [run_length]. destruct (is_lower_alnum c) eqn:Hc.
  - rewrite H0. cbn [collapse]. now rewrite Hc.
  - cbn [replace_all collapse]. rewrite Hc. exact IHrun.
Qed.

Lemma collapse_is_the_replacement label :
  replace_all other_run "-" 0 label = collapse false label.
Proof. apply replace_other_runs. Qed.

End RegexFacts.

(* ===================================================================== *)
(** ** Reasoning about runs *)
(* ===================================================================== *)

Module RunFacts.
Import Convex Runtime.
Import RegexSpec RunSpec.

(** *** Normal return *)

Section NeverThrows.
Context {L : Type}.

Lemma never_throws_ret {A} (a : A) : never_throws (@ret L A a).
Proof. intros l w. exact I. Qed.

Lemma never_throws_bind {A B} (m : M L A) (k : A -> M L B) :
  never_throws m -> (forall a, never_throws (k a)) -> never_throws (bind m k).
Proof.
  intros Hm Hk l w. unfold bind, result_of. specialize (Hm l w).
  unfold result_of in Hm.
  destruct (m l w) as [[[a|e] l'] w']; simpl in *; [apply Hk | contradiction].
Qed.

Lemma never_throws_try_catch {A} (m : M L A) (h : string -> M L A) :
  (forall e, never_throws (h e)) -> never_throws (try_catch m h).
Proof.
  intros Hh l w. unfold try_catch, result_of.
  destruct (m l w) as [[[a|e] l'] w']; simpl; [exact I | apply Hh].
Qed.

Lemma never_throws_log (line : Line) : never_throws (@log L line).
Proof. intros l w. exact I. Qed.

Lemma never_throws_sleep (ms : nat) : never_throws (@sleep L ms).
Proof. intros l w. exact I. Qed.

Lemma never_throws_update (f : L -> L) : never_throws (update f).
Proof. intros l w. exact I. Qed.

Lemma never_throws_read : never_throws (@read L).
Proof. intros l w. exact I. Qed.

Lemma never_throws_traced_ok {A} (ev : Event) (a : A) :
  never_throws (@traced L A ev (Ok a)).
Proof. intros l w. exact I. Qed.

Lemma never_throws_when (b : bool) (m : M L unit) :
  never_throws m -> never_throws (when b m).
Proof. destruct b; [trivial | intros _; apply never_throws_ret]. Qed.

Lemma never_throws_foldM {A B} (body : B -> A -> M L B) (xs : list A) :
  (forall acc x, never_throws (body acc x)) ->
  forall acc, never_throws (foldM body xs acc).
Proof.
  intros Hb. induction xs as [|x xs IH]; intros acc; simpl.
  - apply never_throws_ret.
  - apply never_throws_bind; [apply Hb | exact IH].
Qed.

Lemma never_throws_forM_indexed {A} (body : nat -> A -> M L unit) (xs : list A) :
  (forall i x, never_throws (body i x)) ->
  forall i, never_throws (forM_indexed body i xs).
Proof.
  intros Hb. induction xs as [|x xs IH]; intros i; simpl.
  - apply never_throws_ret.
  - apply never_throws_bind; [apply Hb | intros _; apply IH].
Qed.

End NeverThrows.

Ltac never_throws_tac :=
  repeat first
    [ progress intros
    | lazymatch goal with
      | |- never_throws (ret _) => apply never_throws_ret
      | |- never_throws (log _) => apply never_throws_log
      | |- never_throws (sleep _) => apply never_throws_sleep
      | |- never_throws (update _) => apply never_throws_update
      | |- never_throws read => apply never_throws_read
      | |- never_throws (traced _ (Ok _)) => apply never_throws_traced_ok
      | |- never_throws (try_catch _ _) => apply never_throws_try_catch
      | |- never_throws (bind _ _) => apply never_throws_bind
      | |- never_throws (when _ _) => apply never_throws_when
      | |- never_throws (foldM _ _ _) => apply never_throws_foldM
      | |- never_throws (forM_indexed _ _ _) => apply never_throws_forM_indexed
      | |- never_throws (if ?b then _ else _) => destruct b
      | |- never_throws (match ?x with _ => _ end) => destruct x
      end ].

(** *** Local variables *)

Section KeepsLocals.
Context {L : Type}.

Lemma keeps_locals_ret {A} (a : A) : keeps_locals (@ret L A a).
Proof. intros l w. reflexivity. Qed.

Lemma keeps_locals_throw {A} (msg : string) : keeps_locals (@throw L A msg).
Proof. intros l w. reflexivity. Qed.

Lemma keeps_locals_lift {A} (r : Result A) : keeps_locals (@lift L A r).
Proof. intros l w. reflexivity. Qed.

Lemma keeps_locals_bind {A B} (m : M L A) (k : A -> M L B) :
  keeps_locals m -> (forall a, keeps_locals (k a)) -> keeps_locals (bind m k).
Proof.
  intros Hm Hk l w. unfold bind, locals_of. specialize (Hm l w).
  unfold locals_of in Hm.
  destruct (m l w) as [[[a|e] l'] w']; simpl in *; subst l'.
  - apply Hk.
  - reflexivity.
Qed.

Lemma keeps_locals_try_catch {A} (m : M L A) (h : string -> M L A) :
  keeps_locals m -> (forall e, keeps_locals (h e)) ->
  keeps_locals (try_catch m h).
Proof.
  intros Hm Hh l w. unfold try_catch, locals_of. specialize (Hm l w).
  unfold locals_of in Hm.
  destruct (m l w) as [[[a|e] l'] w']; simpl in *; subst l'.
  - reflexivity.
  - apply Hh.
Qed.

Lemma keeps_locals_log (line : Line) : keeps_locals (@log L line).
Proof. intros l w. reflexivity. Qed.

Lemma keeps_locals_sleep (ms : nat) : keeps_locals (@sleep L ms).
Proof. intros l w. reflexivity. Qed.

Lemma keeps_locals_read : keeps_locals (@read L).
Proof. intros l w. reflexivity. Qed.

Lemma keeps_locals_traced {A} (ev : Event) (r : Result A) :
  keeps_locals (@traced L A ev r).
Proof. intros l w. reflexivity. Qed.

Lemma keeps_locals_turndown_call (E : Env) (html : string) :
  keeps_locals (@turndown_call L E html).
Proof. intros l w. reflexivity. Qed.

Lemma keeps_locals_upload_call (E : Env) (url alt : string) :
  keeps_locals (@upload_call L E url alt).
Proof. intros l w. reflexivity. Qed.

Lemma keeps_locals_convex_call {A} (E : Env) (ev : Event) (h : Handler A) :
  keeps_locals (@convex_call L A E ev h).
Proof.
  intros l w. unfold convex_call, locals_of.
  destruct (transport E (requests w)); [reflexivity|].
  destruct (h (db w) (clock w)). reflexivity.
Qed.

Lemma keeps_locals_when (b : bool) (m : M L unit) :
  keeps_locals m -> keeps_locals (when b m).
Proof. destruct b; [trivial | intros _; apply keeps_locals_ret]. Qed.

Lemma keeps_locals_foldM {A B} (body : B -> A -> M L B) (xs : list A) :
  (forall acc x, keeps_locals (body acc x)) ->
  forall acc, keeps_locals (foldM body xs acc).
Proof.
  intros Hb. induction xs as [|x xs IH]; intros acc; simpl.
  - apply keeps_locals_ret.
  - apply keeps_locals_bind; [apply Hb | exact IH].
Qed.

End KeepsLocals.

Ltac keeps_locals_tac :=
  repeat first
    [ progress intros
    | lazymatch goal with
      | |- keeps_locals (ret _) => apply keeps_locals_ret
      | |- keeps_locals (throw _) => apply keeps_locals_throw
      | |- keeps_locals (lift _) => apply keeps_locals_lift
      | |- keeps_locals (log _) => apply keeps_locals_log
      | |- keeps_locals (sleep _) => apply keeps_locals_sleep
      | |- keeps_locals read => apply keeps_locals_read
      | |- keeps_locals (traced _ _) => apply keeps_locals_traced
      | |- keeps_locals (turndown_call _ _) => apply keeps_locals_turndown_call
      | |- keeps_locals (upload_call _ _ _) => apply keeps_locals_upload_call
      | |- keeps_locals (convex_call _ _ _) => apply keeps_locals_convex_call
      | |- keeps_locals (try_catch _ _) => apply keeps_locals_try_catch
      | |- keeps_locals (bind _ _) => apply keeps_locals_bind
      | |- keeps_locals (when _ _) => apply keeps_locals_when
      | |- keeps_locals (foldM _ _ _) => apply keeps_locals_foldM
      | |- keeps_locals (if ?b then _ else _) => destruct b
      | |- keeps_locals (match ?x with _ => _ end) => destruct x
      end ].

(** *** Properties of the content store *)

Section KeepsDb.
Context {L : Type} (P : Db -> Prop).

Lemma keeps_db_ret {A} (a : A) : keeps_db P (@ret L A a).
Proof. intros l w H. exact H. Qed.

Lemma keeps_db_throw {A} (msg : string) : keeps_db P (@throw L A msg).
Proof. intros l w H. exact H. Qed.

Lemma keeps_db_lift {A} (r : Result A) : keeps_db P (@lift L A r).
Proof. intros l w H. exact H. Qed.

Lemma keeps_db_bind {A B} (m : M L A) (k : A -> M L B) :
  keeps_db P m -> (forall a, keeps_db P (k a)) -> keeps_db P (bind m k).
Proof.
  intros Hm Hk l w H. unfold bind, world_of. specialize (Hm l w H).
  unfold world_of in Hm.
  destruct (m l w) as [[[a|e] l'] w']; simpl in *; [now apply Hk | exact Hm].
Qed.

Lemma keeps_db_try_catch {A} (m : M L A) (h : string -> M L A) :
  keeps_db P m -> (forall e, keeps_db P (h e)) -> keeps_db P (try_catch m h).
Proof.
  intros Hm Hh l w H. unfold try_catch, world_of. specialize (Hm l w H).
  unfold world_of in Hm.
  destruct (m l w) as [[[a|e] l'] w']; simpl in *; [exact Hm | now apply Hh].
Qed.

Lemma keeps_db_log (line : Line) : keeps_db P (@log L line).
Proof. intros l w H. exact H. Qed.

Lemma keeps_db_sleep (ms : nat) : keeps_db P (@sleep L ms).
Proof. intros l w H. exact H. Qed.

Lemma keeps_db_update (f : L -> L) : keeps_db P (update f).
Proof. intros l w H. exact H. Qed.

Lemma keeps_db_read : keeps_db P (@read L).
Proof. intros l w H. exact H. Qed.

Lemma keeps_db_traced {A} (ev : Event) (r : Result A) :
  keeps_db P (@traced L A ev r).
Proof. intros l w H. exact H. Qed.

Lemma keeps_db_turndown_call (E : Env) (html : string) :
  keeps_db P (@turndown_call L E html).
Proof. intros l w H. exact H. Qed.

Lemma keeps_db_upload_call (E : Env) (url alt : string) :
  keeps_db P (@upload_call L E url alt).
Proof. intros l w H. exact H. Qed.

Lemma keeps_db_convex_call {A} (E : Env) (ev : Event) (h : Handler A) :
  handler_keeps P h -> keeps_db P (@convex_call L A E ev h).
Proof.
  intros Hh l w H. unfold convex_call, world_of.
  destruct (transport E (requests w)); [exact H|].
  specialize (Hh (db w) (clock w) H).
  destruct (h (db w) (clock w)). exact Hh.
Qed.

Lemma keeps_db_when (b : bool) (m : M L unit) :
  keeps_db P m -> keeps_db P (when b m).
Proof. destruct b; [trivial | intros _; apply keeps_db_ret]. Qed.

Lemma keeps_db_foldM {A B} (body : B -> A -> M L B) (xs : list A) :
  (forall acc x, keeps_db P (body acc x)) ->
  forall acc, keeps_db P (foldM body xs acc).
Proof.
  intros Hb. induction xs as [|x xs IH]; intros acc; simpl.
  - apply keeps_db_ret.
  - apply keeps_db_bind; [apply Hb | exact IH].
Qed.

Lemma keeps_db_forM_indexed {A} (body : nat -> A -> M L unit) (xs : list A) :
  (forall i x, keeps_db P (body i x)) ->
  forall i, keeps_db P (forM_indexed body i xs).
Proof.
  intros Hb. induction xs as [|x xs IH]; intros i; simpl.
  - apply keeps_db_ret.
  - apply keeps_db_bind; [apply Hb | intros _; apply IH].
Qed.

End KeepsDb.

(** Queries leave the store as it is. *)
Lemma handler_keeps_posts_getBySlug P slug :
  handler_keeps P (posts_getBySlug slug).
Proof.
  intros d now H. unfold posts_getBySlug.
  destruct (first_post_by_slug d slug); exact H.
Qed.

Lemma handler_keeps_posts_list P : handler_keeps P posts_list.
Proof. intros d now H. exact H. Qed.

Lemma handler_keeps_categories_getBySlug P slug :
  handler_keeps P (categories_getBySlug slug).
Proof. intros d now H. exact H. Qed.

Ltac keeps_db_tac :=
  repeat first
    [ progress intros
    | lazymatch goal with
      | |- keeps_db _ (ret _) => apply keeps_db_ret
      | |- keeps_db _ (throw _) => apply keeps_db_throw
      | |- keeps_db _ (lift _) => apply keeps_db_lift
      | |- keeps_db _ (log _) => apply keeps_db_log
      | |- keeps_db _ (sleep _) => apply keeps_db_sleep
      | |- keeps_db _ (update _) => apply keeps_db_update
      | |- keeps_db _ read => apply keeps_db_read
      | |- keeps_db _ (traced _ _) => apply keeps_db_traced
      | |- keeps_db _ (turndown_call _ _) => apply keeps_db_turndown_call
      | |- keeps_db _ (upload_call _ _ _) => apply keeps_db_upload_call
      | |- keeps_db _ (convex_call _ _ _) =>
          apply keeps_db_convex_call;
          first [ apply handler_keeps_posts_getBySlug
                | apply handler_keeps_posts_list
                | apply handler_keeps_categories_getBySlug
                | solve [auto] ]
      | |- keeps_db _ (try_catch _ _) => apply keeps_db_try_catch
      | |- keeps_db _ (bind _ _) => apply keeps_db_bind
      | |- keeps_db _ (when _ _) => apply keeps_db_when
      | |- keeps_db _ (foldM _ _ _) => apply keeps_db_foldM
      | |- keeps_db _ (forM_indexed _ _ _) => apply keeps_db_forM_indexed
      | |- keeps_db _ (if ?b then _ else _) => destruct b
      | |- keeps_db _ (match ?x with _ => _ end) => destruct x
      end ].

(** Unfolding a sequence whose first part keeps the locals. *)
Lemma bind_run {L A B} (m : M L A) (k : A -> M L B) l w :
  bind m k l w =
  match m l w with
  | (Ok a, l', w') => k a l' w'
  | (Throw e, l', w') => (Throw e, l', w')
  end.
Proof. reflexivity. Qed.

End RunFacts.

(* ===================================================================== *)
(** ** Facts about the content store *)
(* ===================================================================== *)

Module ConvexFacts.
Import Convex Runtime RunFacts.
Import RegexSpec RunSpec ConvexSpec.

Lemma first_post_by_slug_none d s :
  first_post_by_slug d s = None <-> ~ In s (post_slugs d).
Proof.
  unfold first_post_by_slug, post_slugs.
  induction (posts d) as [|p ps IH]; simpl.
  - split; [intros _ [] | reflexivity].
  - destruct (String.eqb (p_slug p) s) eqn:Heq.
    + apply String.eqb_eq in Heq. split; [discriminate|].
      intros H. exfalso. apply H. now left.
    + apply String.eqb_neq in Heq. rewrite IH. split.
      * intros H [H1 | H1]; [now apply Heq | now apply H].
      * intros H H1. apply H. now right.
Qed.

Lemma first_post_by_slug_some d s p :
  first_post_by_slug d s = Some p -> In p (posts d) /\ p_slug p = s.
Proof.
  unfold first_post_by_slug. intros H. apply find_some in H.
  destruct H as [Hin Heq]. apply String.eqb_eq in Heq. now split.
Qed.

Lemma first_post_by_slug_in d s :
  In s (post_slugs d) -> exists p, first_post_by_slug d s = Some p.
Proof.
  intros H. destruct (first_post_by_slug d s) as [p|] eqn:Hf; [eauto|].
  apply first_post_by_slug_none in Hf. contradiction.
Qed.

(** A rejected call: the error, and the store as it was. *)
Lemma posts_create_existing args d now :
  In (a_slug args) (post_slugs d) ->
  posts_create args d now =
    (Throw (slug_exists_message "Post" (a_slug args)), d).
Proof.
  intros H. apply first_post_by_slug_in in H. destruct H as [p Hp].
  unfold posts_create. now rewrite Hp.
Qed.

(** An accepted call: one document appended, under a fresh id. *)
Lemma posts_create_fresh args d now :
  ~ In (a_slug args) (post_slugs d) ->
  posts_create args d now =
    (Ok (nextId d),
     {| posts := posts d ++ [new_post (nextId d) now args];
        categories := categories d;
        nextId := S (nextId d) |}).
Proof.
  intros H. apply first_post_by_slug_none in H.
  unfold posts_create. now rewrite H.
Qed.

Lemma NoDup_snoc {A} (l : list A) (x : A) :
  NoDup l -> ~ In x l -> NoDup (l ++ [x]).
Proof.
  intros Hl Hx. apply NoDup_app. split; [exact Hl|]. split.
  - intros y Hy Hin. apply list_elem_of_singleton in Hin. subst y.
    apply Hx. now apply list_elem_of_In.
  - apply NoDup_singleton.
Qed.

Lemma posts_create_unique args : handler_keeps unique_slugs (posts_create args).
Proof.
  intros d now H. unfold posts_create.
  destruct (first_post_by_slug d (a_slug args)) as [p|] eqn:Hf; [exact H|].
  apply first_post_by_slug_none in Hf. simpl.
  unfold unique_slugs, post_slugs in *. simpl. rewrite map_app. simpl.
  now apply NoDup_snoc.
Qed.

Lemma categories_create_posts name slug description d now :
  posts (snd (categories_create name slug description d now)) = posts d.
Proof.
  unfold categories_create.
  destruct (first_category_by_slug d slug); reflexivity.
Qed.

Lemma categories_create_unique name slug description :
  handler_keeps unique_slugs (categories_create name slug description).
Proof.
  intros d now H. unfold unique_slugs, post_slugs in *.
  now rewrite categories_create_posts.
Qed.

Lemma patch_post_slugs id img now d :
  post_slugs (patch_post id (set_featuredImage img now) d) = post_slugs d.
Proof.
  unfold post_slugs, patch_post. simpl. rewrite map_map.
  apply map_ext. intros p. now destruct (Nat.eqb (p_id p) id).
Qed.

Lemma posts_updateFeaturedImage_unique id img :
  handler_keeps unique_slugs (posts_updateFeaturedImage id img).
Proof.
  intros d now H. unfold posts_updateFeaturedImage.
  destruct (get_post d id); [|exact H]. simpl.
  unfold unique_slugs. now rewrite patch_post_slugs.
Qed.

(** *** What the scripts maintain, given what the mutations maintain *)

Section Scripts.
Variable P : Db -> Prop.
Hypothesis posts_create_keeps :
  forall args, handler_keeps P (posts_create args).
Hypothesis categories_create_keeps :
  forall name slug description,
    handler_keeps P (categories_create name slug description).
Hypothesis posts_updateFeaturedImage_keeps :
  forall id img, handler_keeps P (posts_updateFeaturedImage id img).

Lemma importer_import_post_keeps E total i post :
  keeps_db P (Importer.import_post E total i post).
Proof.
  unfold Importer.import_post, Importer.import_attempt,
    Importer.import_new_post, Importer.convertContentToMarkdown,
    Importer.migrate_inline, Importer.replace_url,
    Importer.getOrCreateCategory, Importer.migrateImage.
  keeps_db_tac.
Qed.

Lemma importer_importPosts_keeps E posts :
  keeps_db P (Importer.importPosts E posts).
Proof.
  unfold Importer.importPosts. keeps_db_tac.
  apply importer_import_post_keeps.
Qed.

Lemma basic_import_post_keeps E total i post :
  keeps_db P (BasicImporter.import_post E total i post).
Proof.
  unfold BasicImporter.import_post, BasicImporter.import_attempt,
    BasicImporter.convertContentToMarkdown, BasicImporter.migrate_inline,
    Importer.replace_url, BasicImporter.getOrCreateCategory,
    BasicImporter.migrateImage.
  keeps_db_tac.
Qed.

Lemma basic_importPosts_keeps E posts :
  keeps_db P (BasicImporter.importPosts E posts).
Proof.
  unfold BasicImporter.importPosts. keeps_db_tac.
  apply basic_import_post_keeps.
Qed.

End Scripts.

Lemma basic_importPosts_unique E posts :
  keeps_db unique_slugs (BasicImporter.importPosts E posts).
Proof.
  apply basic_importPosts_keeps.
  - apply posts_create_unique.
  - apply categories_create_unique.
Qed.

Lemma importer_importPosts_unique E posts :
  keeps_db unique_slugs (Importer.importPosts E posts).
Proof.
  apply importer_importPosts_keeps.
  - apply posts_create_unique.
  - apply categories_create_unique.
Qed.

(** C6.  The create mutation, called with a slug that a stored post already
    has, throws and leaves the store unchanged; called with a slug that no
    stored post has, it appends exactly one post with that slug and returns
    its id.  Hence slugs that are pairwise distinct stay so under the
    mutation, and under a whole run of the importer variant that makes no
    existence check. *)
Theorem create_never_duplicates_a_slug (args : PostArgs) (d : Db) (now : nat) :
  (In (a_slug args) (post_slugs d) ->
     exists msg, posts_create args d now = (Throw msg, d))
  /\ (~ In (a_slug args) (post_slugs d) ->
     exists doc,
       posts_create args d now =
         (Ok (p_id doc),
          {| posts := posts d ++ [doc];
             categories := categories d;
             nextId := S (nextId d) |})
       /\ p_slug doc = a_slug args
       /\ p_id doc = nextId d)
  /\ (NoDup (post_slugs d) ->
     NoDup (post_slugs (snd (posts_create args d now))))
  /\ (forall E posts c w,
       NoDup (post_slugs (db w)) ->
       NoDup (post_slugs
                (db (world_of (BasicImporter.importPosts E posts c w))))).
Proof.
  repeat split.
  - intros H. eexists. now apply posts_create_existing.
  - intros H. exists (new_post (nextId d) now args).
    rewrite posts_create_fresh by assumption. now repeat split.
  - apply posts_create_unique.
  - intros E posts c w. apply basic_importPosts_unique.
Qed.

End ConvexFacts.

(* ===================================================================== *)
(** ** Facts about the importer *)
(* ===================================================================== *)

Module ImporterFacts.
Import Str Convex Runtime Wxr Cloudflare RunFacts.
Import RegexSpec RunSpec ConvexSpec ImporterSpec.

Lemma emit_emits ev w : emit ev w = emits [ev] w.
Proof. reflexivity. Qed.

Lemma emits_emits a b w : emits b (emits a w) = emits (a ++ b) w.
Proof. unfold emits. simpl. now rewrite app_assoc. Qed.

Lemma emits_nil w : emits [] w = w.
Proof. destruct w. unfold emits. simpl. now rewrite app_nil_r. Qed.

(** *** The existence check *)


(** *** Parsing the export *)

Lemma extract_posts_run {L} attachments items : forall posts (l : L) w,
  foldM (Importer.extract_post attachments) items posts l w =
    (Ok (posts ++ map (Importer.to_post attachments) (List.filter eligible items)),
     l, emits (map skip_line (List.filter skip_printed items)) w).
Proof.
  induction items as [|item items IH]; intros posts l w.
  - simpl. now rewrite app_nil_r, emits_nil.
  - cbn [foldM List.filter]. rewrite bind_run.
    unfold Importer.extract_post at 1, eligible at 1, skip_printed at 1.
    destruct (is_text (wp_post_type item) "post"); cbn [negb andb].
    + destruct (is_text (wp_status item) "publish"); cbn [negb].
      * unfold ret at 1. rewrite IH. cbn [map]. now rewrite <- app_assoc.
      * rewrite bind_run. unfold log at 1, ret at 1. rewrite IH.
        rewrite emit_emits, emits_emits. reflexivity.
    + unfold ret at 1. now rewrite IH.
Qed.

Lemma basic_extract_posts_run {L} items : forall posts (l : L) w,
  foldM BasicImporter.extract_post items posts l w =
    (Ok (posts ++ map BasicImporter.to_post (List.filter basic_eligible items)),
     l, w).
Proof.
  induction items as [|item items IH]; intros posts l w.
  - simpl. now rewrite app_nil_r.
  - cbn [foldM List.filter]. rewrite bind_run.
    unfold BasicImporter.extract_post at 1, basic_eligible at 1.
    destruct (is_text (wp_post_type item) "post"); cbn [negb andb].
    + destruct (is_text (wp_status item) "trash"); cbn [negb].
      * unfold ret at 1. now rewrite IH.
      * unfold ret at 1. rewrite IH. cbn [map]. now rewrite <- app_assoc.
    + unfold ret at 1. now rewrite IH.
Qed.

(** What [parseWordPressXML] returns and prints. *)
Lemma parseWordPressXML_run {L} items (l : L) w :
  Importer.parseWordPressXML items l w =
    (Ok (map (Importer.to_post (build_attachments items))
           (List.filter eligible items)),
     l,
     emits
       ([Console ReadingExport; Console ParsingXml;
         Console (FoundItems (length items));
         Console (FoundAttachments (size (build_attachments items)))]
        ++ map skip_line (List.filter skip_printed items)
        ++ [Console (FoundPosts (length (List.filter eligible items)))])
       w).
Proof.
  unfold Importer.parseWordPressXML, bind, log.
  rewrite extract_posts_run. unfold ret.
  rewrite !emit_emits, !emits_emits. cbn [app].
  now rewrite length_map.
Qed.

Lemma basic_parseWordPressXML_run {L} items (l : L) w :
  BasicImporter.parseWordPressXML items l w =
    (Ok (map BasicImporter.to_post (List.filter basic_eligible items)),
     l,
     emits
       [Console ReadingExport; Console ParsingXml;
        Console (FoundItems (length items));
        Console (FoundPosts (length (List.filter basic_eligible items)))]
       w).
Proof.
  unfold BasicImporter.parseWordPressXML, bind, log.
  rewrite basic_extract_posts_run. unfold ret.
  rewrite !emit_emits, !emits_emits. cbn [app].
  now rewrite length_map.
Qed.

(** An item is passed on if and only if it is a published post. *)
Lemma eligible_iff (item : WpItem) :
  eligible item = true <->
  wp_post_type item = Some "post" /\ wp_status item = Some "publish".
Proof.
  unfold eligible, is_text. split.
  - intros H. apply andb_true_iff in H. destruct H as [H1 H2].
    destruct (wp_post_type item) as [t|]; [|discriminate].
    destruct (wp_status item) as [s|]; [|discriminate].
    apply String.eqb_eq in H1, H2. now subst.
  - intros [-> ->]. reflexivity.
Qed.

(** C2, as the code has it.  The importer passes on exactly the items whose
    type is [post] and whose status is [publish], in export order; every
    other item is skipped and the run goes on to the end.  A skip line is
    printed for the posts whose status is not [publish], and for no other
    item: an item of another type is skipped without a line.  The basic
    importer skips, without a line, the items of other types and the
    trashed posts, and passes on every other post. *)
Theorem only_published_posts_are_passed_on (items : list WpItem) (w : World) :
  Importer.parseWordPressXML items tt w =
    (Ok (map (Importer.to_post (build_attachments items))
           (List.filter eligible items)),
     tt,
     emits
       ([Console ReadingExport; Console ParsingXml;
         Console (FoundItems (length items));
         Console (FoundAttachments (size (build_attachments items)))]
        ++ map skip_line (List.filter skip_printed items)
        ++ [Console (FoundPosts (length (List.filter eligible items)))])
       w)
  /\ (forall item,
        In item (List.filter eligible items) <->
        In item items
        /\ wp_post_type item = Some "post"
        /\ wp_status item = Some "publish")
  /\ (forall item,
        In item (List.filter skip_printed items) <->
        In item items
        /\ wp_post_type item = Some "post"
        /\ wp_status item <> Some "publish")
  /\ BasicImporter.parseWordPressXML items tt w =
    (Ok (map BasicImporter.to_post (List.filter basic_eligible items)),
     tt,
     emits
       [Console ReadingExport; Console ParsingXml;
        Console (FoundItems (length items));
        Console (FoundPosts (length (List.filter basic_eligible items)))]
       w).
Proof.
  split; [apply parseWordPressXML_run|].
  split; [|split; [|apply basic_parseWordPressXML_run]].
  - intros item. rewrite filter_In, eligible_iff. reflexivity.
  - intros item. rewrite filter_In. unfold skip_printed, is_text.
    split; intros [Hin H]; (split; [exact Hin|]).
    + apply andb_true_iff in H. destruct H as [H1 H2].
      destruct (wp_post_type item) as [t|]; [|discriminate].
      apply String.eqb_eq in H1. subst t. split; [reflexivity|].
      intros Hs. rewrite Hs in H2. discriminate.
    + destruct H as [-> Hs]. cbn.
      destruct (wp_status item) as [s|]; [|reflexivity].
      destruct (String.eqb s "publish") eqn:He; [|reflexivity].
      apply String.eqb_eq in He. subst s. now contradiction Hs.
Qed.

(** The claim C2 fails as stated: a page is excluded without any line,
    and the basic importer passes a draft on. *)
Lemma page_is_skipped_without_a_line :
  wp_post_type Sample.page_item <> Some "post"
  /\ Importer.parseWordPressXML [Sample.page_item] tt
       (Sample.start Sample.empty_db) =
     (Ok [], tt,
      emits
        [Console ReadingExport; Console ParsingXml; Console (FoundItems 1);
         Console (FoundAttachments 0); Console (FoundPosts 0)]
        (Sample.start Sample.empty_db))
  /\ wp_status (Sample.post_item "Notes" "notes" "draft" "<p>x</p>" []) <>
       Some "publish"
  /\ BasicImporter.parseWordPressXML
       [Sample.post_item "Notes" "notes" "draft" "<p>x</p>" []] tt
       (Sample.start Sample.empty_db) =
     (Ok [BasicImporter.to_post
            (Sample.post_item "Notes" "notes" "draft" "<p>x</p>" [])],
      tt,
      emits
        [Console ReadingExport; Console ParsingXml; Console (FoundItems 1);
         Console (FoundPosts 1)]
        (Sample.start Sample.empty_db)).
Proof.
  split; [discriminate|]. split; [reflexivity|].
  split; [discriminate|]. reflexivity.
Qed.

(** *** Image migration *)

Lemma evolves_refl w : evolves w w.
Proof. split; [reflexivity | reflexivity | exists []; now rewrite app_nil_r]. Qed.

Lemma evolves_trans w1 w2 w3 : evolves w1 w2 -> evolves w2 w3 -> evolves w1 w3.
Proof.
  intros [P1 C1 [e1 T1]] [P2 C2 [e2 T2]]. split.
  - congruence.
  - congruence.
  - exists (e1 ++ e2). rewrite T2, T1. now rewrite app_assoc.
Qed.

Lemma evolves_emits evs w : evolves w (emits evs w).
Proof. split; [reflexivity | reflexivity | now exists evs]. Qed.


Lemma delivery_url_truthy imageId :
  truthy (Some (getImageUrl imageId large)) = true.
Proof. reflexivity. Qed.

(** [migrateImage] always returns; it makes at most one upload request and
    leaves the store alone. *)
Lemma migrateImage_run {L} E url alt (l : L) w :
  exists w',
    Importer.migrateImage E url alt l w =
      (Ok (migrate_result E alt (uploads w) url), l, w')
    /\ evolves w w'
    /\ db w' = db w
    /\ requests w' = requests w
    /\ uploads w' = uploads_after (uploads w) url.
Proof.
  unfold Importer.migrateImage, migrate_result, uploads_after, valid_url,
    try_catch, bind, log, upload_call, ret.
  destruct (nonempty url); cbn [negb orb andb].
  - destruct (startsWith "http" url); cbn [negb].
    + cbn [emit db clock requests uploads trace].
      destruct (uploadImageFromUrl E (uploads w) url alt) as [imageId|e];
        eexists; (split; [reflexivity|]);
        (split; [|now repeat split]);
        (split; [reflexivity | reflexivity |]);
        cbn; rewrite <- !app_assoc; eauto.
    + eexists. split; [reflexivity|].
      split; [|now repeat split].
      rewrite !emit_emits, emits_emits. apply evolves_emits.
  - eexists. split; [reflexivity|].
    split; [|now repeat split].
    rewrite !emit_emits, emits_emits. apply evolves_emits.
Qed.

Lemma migrate_inline_run {L} E title acc url (l : L) w :
  exists w',
    Importer.migrate_inline E title acc url l w =
      (Ok (apply_result acc (url, migrate_result E title (uploads w) url)),
       l, w')
    /\ evolves w w'
    /\ db w' = db w
    /\ requests w' = requests w
    /\ uploads w' = uploads_after (uploads w) url.
Proof.
  destruct acc as [imageMapping imagesFailed].
  destruct (migrateImage_run E url title l w) as (w' & Hrun & Hev & Hrest).
  exists w'. split; [|now split].
  unfold Importer.migrate_inline. rewrite bind_run, Hrun.
  unfold apply_result, migrate_result. cbn [fst snd].
  destruct (valid_url url); [|reflexivity].
  destruct (uploadImageFromUrl E (uploads w) url title); reflexivity.
Qed.

(** The image loop always returns: it counts the failed migrations and
    maps the migrated URLs. *)
Lemma inline_loop_run {L} E title urls : forall acc (l : L) w,
  exists w',
    foldM (Importer.migrate_inline E title) urls acc l w =
      (Ok (fold_left apply_result (inline_results E title (uploads w) urls) acc),
       l, w')
    /\ evolves w w'
    /\ db w' = db w
    /\ requests w' = requests w.
Proof.
  induction urls as [|url urls IH]; intros acc l w.
  - exists w. split; [reflexivity|]. split; [apply evolves_refl | now split].
  - destruct (migrate_inline_run E title acc url l w)
      as (w1 & Hrun & Hev & Hdb & Hreq & Hup).
    destruct (IH (apply_result acc (url, migrate_result E title (uploads w) url))
                l w1) as (w2 & Hrun2 & Hev2 & Hdb2 & Hreq2).
    exists w2. split.
    + cbn [foldM inline_results fold_left]. rewrite bind_run, Hrun, Hrun2.
      now rewrite Hup.
    + split; [now apply (evolves_trans w w1 w2) | split; congruence].
Qed.

(** The failure count grows by the number of failed migrations. *)
Lemma apply_results_failed rs : forall acc,
  snd (fold_left apply_result rs acc) = snd acc + failed_migrations rs.
Proof.
  unfold failed_migrations.
  induction rs as [|[url [newUrl|]] rs IH]; intros acc; cbn [fold_left].
  - cbn. lia.
  - rewrite IH. unfold apply_result. cbn. lia.
  - rewrite IH. unfold apply_result. cbn. lia.
Qed.






(** *** Substitution of the migrated URLs *)

Lemma replace_loop_run {L} E imageMapping : forall html (l : L) w,
  foldM (Importer.replace_url E) imageMapping html l w =
    (replace_urls E imageMapping html, l, w).
Proof.
  induction imageMapping as [|[oldUrl newUrl] rest IH]; intros html l w.
  - reflexivity.
  - cbn [foldM replace_urls]. rewrite bind_run.
    unfold Importer.replace_url at 1, lift.
    destruct (regexpReplace E oldUrl newUrl html); [apply IH | reflexivity].
Qed.

(** [convertContentToMarkdown] by its parts: the image loop, the
    substitutions, the converter. *)
Lemma convertContentToMarkdown_run {L} E html title (l : L) w :
  let acc :=
    fold_left apply_result
      (inline_results E title (uploads w) (Regex.extract_image_urls html))
      ([], 0) in
  exists w1,
    evolves w w1 /\ db w1 = db w /\ requests w1 = requests w
    /\ Importer.convertContentToMarkdown E html title l w =
       match replace_urls E (fst acc) html with
       | Ok updatedHtml =>
           (match turndown E updatedHtml with
            | Ok markdown => Ok (markdown, snd acc)
            | Throw e => Throw e
            end, l, emit (Turndown updatedHtml) w1)
       | Throw e => (Throw e, l, w1)
       end.
Proof.
  intros acc.
  destruct (inline_loop_run E title (Regex.extract_image_urls html) ([], 0) l w)
    as (w1 & Hrun & Hev & Hdb & Hreq).
  exists w1. repeat (split; [assumption|]).
  unfold Importer.convertContentToMarkdown. rewrite bind_run, Hrun.
  fold acc. destruct acc as [imageMapping imagesFailed]. cbn [fst snd].
  rewrite bind_run, replace_loop_run.
  destruct (replace_urls E imageMapping html) as [updatedHtml|e]; [|reflexivity].
  rewrite bind_run. unfold turndown_call, traced.
  destruct (turndown E updatedHtml); reflexivity.
Qed.

(** *** The category resolver *)


Lemma resolver_empty_label {L} E (l : L) w :
  Importer.getOrCreateCategory E EmptyString l w = (Ok None, l, w).
Proof. reflexivity. Qed.

Lemma resolver_found {L} E name (l : L) w cat :
  nonempty name = true ->
  transport E (requests w) = None ->
  first_category_by_slug (db w) (Slug.slugify name) = Some cat ->
  Importer.getOrCreateCategory E name l w =
    (Ok (Some (c_id cat)), l,
     {| db := db w; clock := clock w; requests := S (requests w);
        uploads := uploads w;
        trace := trace w ++ [QueryCategoriesGetBySlug (Slug.slugify name)] |}).
Proof.
  intros Hn Ht Hf. unfold Importer.getOrCreateCategory.
  rewrite Hn. cbn [negb]. unfold bind, convex_call, categories_getBySlug.
  rewrite Ht, Hf. reflexivity.
Qed.

Lemma resolver_creates {L} E name (l : L) w :
  nonempty name = true ->
  isDryRun E = false ->
  transport E (requests w) = None ->
  transport E (S (requests w)) = None ->
  first_category_by_slug (db w) (Slug.slugify name) = None ->
  Importer.getOrCreateCategory E name l w =
    (Ok (Some (nextId (db w))), l,
     {| db := with_category (db w) name; clock := clock w;
        requests := S (S (requests w)); uploads := uploads w;
        trace := trace w ++
          [QueryCategoriesGetBySlug (Slug.slugify name);
           Console (CreatingCategory name);
           MutationCategoriesCreate name (Slug.slugify name)] |}).
Proof.
  intros Hn Hd Ht1 Ht2 Hf. unfold Importer.getOrCreateCategory.
  rewrite Hn, Hd. cbn [negb].
  unfold bind, convex_call, categories_getBySlug, categories_create, log, ret,
    emit.
  cbn [db clock requests uploads trace].
  rewrite Ht1, Hf. cbn [db clock requests uploads trace].
  rewrite Ht2, Hf. cbn [db clock requests uploads trace].
  now rewrite <- !app_assoc.
Qed.


(** The category that was created is the one the next lookup finds. *)
Lemma created_category_is_found d name :
  first_category_by_slug d (Slug.slugify name) = None ->
  first_category_by_slug (with_category d name) (Slug.slugify name) =
    Some (new_category d name).
Proof.
  unfold first_category_by_slug, with_category. cbn [categories].
  induction (categories d) as [|c cs IH]; cbn.
  - now rewrite String.eqb_refl.
  - destruct (String.eqb (c_slug c) (Slug.slugify name)); [discriminate|].
    exact IH.
Qed.

(** *** A post that is created *)






(** [import_new_post] as the sequence of its steps. *)
Lemma import_new_post_steps E post :
  Importer.import_new_post E post =
  bind (Importer.convertContentToMarkdown E (Importer.content post)
          (Importer.title post))
    (fun '(content, imagesFailed) =>
  bind (excerpt_step E post) (fun excerpt =>
  bind (match Importer.categories post with
        | first :: _ =>
            if nonempty first then Importer.getOrCreateCategory E first
            else ret None
        | [] => ret None
        end) (fun categoryId =>
  bind (featured_step E post) (fun '(featuredImage, featuredImageFailed) =>
  let args :=
    Importer.create_args post content excerpt featuredImage categoryId in
  bind (convex_call E (MutationPostsCreate args) (posts_create args)) (fun _ =>
  bind (log ImportedSuccessfully) (fun _ =>
  bind (when (featuredImageFailed || (0 <? imagesFailed)%nat)
          (bind (log (PostCreatedButImagesFailed featuredImageFailed
                        imagesFailed))
             (fun _ => update Importer.incr_imageFail))) (fun _ =>
  update Importer.incr_success))))))).
Proof. reflexivity. Qed.


Lemma import_post_new E total i post c w :
  transport E (requests w) = None ->
  isDryRun E = false ->
  first_post_by_slug (db w) (Importer.slug post) = None ->
  Importer.import_post E total i post c w =
    try_catch (Importer.import_new_post E post) on_error c
      (after_check total i post w).
Proof.
  intros Ht Hd Hf.
  unfold Importer.import_post, Importer.import_attempt.
  rewrite bind_run. unfold log at 1. unfold try_catch.
  rewrite bind_run. unfold convex_call at 1, posts_getBySlug.
  cbn [emit db clock requests uploads trace].
  rewrite Ht, Hf, Hd. cbn [emit db clock requests uploads trace].
  unfold after_check. now rewrite <- app_assoc.
Qed.


(** *** Failed inline images *)





(** *** The attachment index *)













(** *** Errors inside the loop *)

(** Case analysis on a sequence whose first part keeps the locals. *)
Lemma bind_cases {L A B} (m : M L A) (k : A -> M L B)
  (Q : Result B * L * World -> Prop) l w :
  keeps_locals m ->
  (forall a w', Q (k a l w')) ->
  (forall e w', Q (Throw e, l, w')) ->
  Q (bind m k l w).
Proof.
  intros Hm Hk He. unfold bind. specialize (Hm l w). unfold locals_of in Hm.
  destruct (m l w) as [[[a|e] l'] w']; cbn in Hm; subst l'; auto.
Qed.

Lemma keeps_locals_migrateImage {L} E url alt :
  keeps_locals (@Importer.migrateImage L E url alt).
Proof. unfold Importer.migrateImage. keeps_locals_tac. Qed.

Lemma keeps_locals_convert {L} E html title :
  keeps_locals (@Importer.convertContentToMarkdown L E html title).
Proof.
  unfold Importer.convertContentToMarkdown, Importer.migrate_inline,
    Importer.replace_url, Importer.migrateImage.
  keeps_locals_tac.
Qed.

Lemma keeps_locals_resolver {L} E name :
  keeps_locals (@Importer.getOrCreateCategory L E name).
Proof. unfold Importer.getOrCreateCategory. keeps_locals_tac. Qed.

Lemma import_new_post_effect E post c w :
  attempt_effect c (Importer.import_new_post E post c w).
Proof.
  rewrite import_new_post_steps.
  apply bind_cases; [apply keeps_locals_convert | | reflexivity].
  intros [content imagesFailed] w1.
  apply bind_cases; [unfold excerpt_step; keeps_locals_tac | | reflexivity].
  intros excerpt w2.
  apply bind_cases;
    [destruct (Importer.categories post) as [|first rest];
       [apply keeps_locals_ret |
        destruct (nonempty first);
          [apply keeps_locals_resolver | apply keeps_locals_ret]]
    | | reflexivity].
  intros categoryId w3.
  apply bind_cases;
    [unfold featured_step, Importer.migrateImage; keeps_locals_tac
    | | reflexivity].
  intros [featuredImage featuredImageFailed] w4. cbn zeta.
  apply bind_cases; [apply keeps_locals_convex_call | | reflexivity].
  intros _ w5. unfold bind, log, when, update, attempt_effect.
  destruct (featuredImageFailed || (0 <? imagesFailed)%nat); cbn; auto.
Qed.

Lemma import_attempt_effect E post c w :
  attempt_effect c (Importer.import_attempt E post c w).
Proof.
  unfold Importer.import_attempt.
  apply bind_cases; [apply keeps_locals_convex_call | | reflexivity].
  intros [existing|] w1.
  - cbn. auto.
  - destruct (isDryRun E).
    + cbn. auto.
    + apply import_new_post_effect.
Qed.

Lemma import_post_unfold E total i post c w :
  Importer.import_post E total i post c w =
    try_catch (Importer.import_attempt E post) on_error c
      (emit (Console (Processing (i + 1) total (Importer.title post))) w).
Proof. reflexivity. Qed.

(** One turn of the loop: it returns; an error thrown in the [try] block
    costs one increment of [failCount] and a line with the message. *)
Lemma import_post_run E total i post c w :
  match Importer.import_attempt E post c
          (emit (Console (Processing (i + 1) total (Importer.title post))) w)
  with
  | (Throw error, _, w1) =>
      Importer.import_post E total i post c w =
        (Ok tt, Importer.incr_fail c, emit (Console (FailedToImport error)) w1)
  | (Ok _, c1, w1) =>
      Importer.import_post E total i post c w = (Ok tt, c1, w1)
      /\ Importer.failCount c1 = Importer.failCount c
  end.
Proof.
  pose proof (import_attempt_effect E post c
    (emit (Console (Processing (i + 1) total (Importer.title post))) w)) as H.
  rewrite import_post_unfold. unfold try_catch.
  destruct (Importer.import_attempt E post c _) as [[[[]|error] c1] w1];
    cbn in H.
  - split; [reflexivity|]. destruct H as [-> | [-> | ->]]; reflexivity.
  - subst c1. reflexivity.
Qed.

Lemma import_post_counts E total i post c w :
  exists c' w',
    Importer.import_post E total i post c w = (Ok tt, c', w')
    /\ processed c' = S (processed c).
Proof.
  pose proof (import_post_run E total i post c w) as Hrun.
  pose proof (import_attempt_effect E post c
    (emit (Console (Processing (i + 1) total (Importer.title post))) w)) as H.
  destruct (Importer.import_attempt E post c _) as [[[[]|error] c1] w1];
    cbn in H.
  - destruct Hrun as [Hrun _]. exists c1, w1. split; [exact Hrun|].
    destruct H as [-> | [-> | ->]]; unfold processed; cbn; lia.
  - eexists _, _. split; [exact Hrun|]. unfold processed. cbn. lia.
Qed.

Lemma import_loop_counts E total posts : forall i c w,
  exists c' w',
    forM_indexed (Importer.import_post E total) i posts c w = (Ok tt, c', w')
    /\ processed c' = processed c + length posts.
Proof.
  induction posts as [|post posts IH]; intros i c w.
  - exists c, w. split; [reflexivity | cbn; lia].
  - destruct (import_post_counts E total i post c w) as (c1 & w1 & Hrun & Hc).
    destruct (IH (S i) c1 w1) as (c2 & w2 & Hrun2 & Hc2).
    exists c2, w2. split.
    + cbn [forM_indexed]. now rewrite bind_run, Hrun.
    + cbn [length]. lia.
Qed.

(** The loop goes through all posts, whatever fails on the way. *)
Lemma importPosts_counts E posts c w :
  exists c' w',
    Importer.importPosts E posts c w = (Ok tt, c', w')
    /\ processed c' = length posts.
Proof.
  unfold Importer.importPosts.
  rewrite bind_run. unfold log at 1. rewrite bind_run. unfold update at 1.
  destruct (import_loop_counts E (length posts) posts 0 Importer.no_counts
              (emit (Console (ImportHeader (isDryRun E))) w))
    as (c' & w' & Hrun & Hc).
  rewrite bind_run, Hrun. exists c'.
  unfold bind, read, log, when.
  destruct (0 <? Importer.imageFailCount c')%nat; eexists;
    (split; [reflexivity | exact Hc]).
Qed.

(** *** What ends a turn of the loop in its [catch] block *)

Lemma on_error_run error c w :
  on_error error c w =
    (Ok tt, Importer.incr_fail c, emit (Console (FailedToImport error)) w).
Proof. reflexivity. Qed.

(** The existence check does not get through. *)
Lemma import_post_check_fails E total i post c w msg :
  transport E (requests w) = Some msg ->
  Importer.import_post E total i post c w =
    (Ok tt, Importer.incr_fail c,
     emit (Console (FailedToImport msg)) (after_check total i post w)).
Proof.
  intros Ht.
  unfold Importer.import_post, Importer.import_attempt, bind, try_catch,
    convex_call, log, update, emit, after_check.
  cbn [db clock requests uploads trace]. rewrite Ht.
  cbn [db clock requests uploads trace]. now rewrite <- !app_assoc.
Qed.

Lemma import_post_found E total i post c w existing :
  transport E (requests w) = None ->
  first_post_by_slug (db w) (Importer.slug post) = Some existing ->
  Importer.import_post E total i post c w =
    (Ok tt, Importer.incr_skip c,
     emit (Console AlreadyExists) (after_check total i post w)).
Proof.
  intros Ht Hf.
  unfold Importer.import_post, Importer.import_attempt, bind, try_catch,
    convex_call, posts_getBySlug, log, update, emit, after_check.
  cbn [db clock requests uploads trace]. rewrite Ht, Hf.
  cbn [db clock requests uploads trace]. now rewrite <- !app_assoc.
Qed.

Lemma import_post_dry E total i post c w :
  transport E (requests w) = None ->
  isDryRun E = true ->
  first_post_by_slug (db w) (Importer.slug post) = None ->
  exists w',
    Importer.import_post E total i post c w =
      (Ok tt, Importer.incr_success c, w')
    /\ db w' = db w.
Proof.
  intros Ht Hd Hf.
  unfold Importer.import_post, Importer.import_attempt, bind, try_catch,
    convex_call, posts_getBySlug, log, update, emit.
  cbn [db clock requests uploads trace]. rewrite Ht, Hf, Hd.
  eexists. split; reflexivity.
Qed.

(** Case analysis on a sequence whose first part keeps the locals and a
    property of the store. *)
Lemma bind_cases_db {L A B} (P : Db -> Prop) (m : M L A) (k : A -> M L B)
  (Q : Result B * L * World -> Prop) l w :
  keeps_locals m -> keeps_db P m -> P (db w) ->
  (forall a w', P (db w') -> Q (k a l w')) ->
  (forall e w', P (db w') -> Q (Throw e, l, w')) ->
  Q (bind m k l w).
Proof.
  intros Hm Hdb Hw Hk He. unfold bind.
  specialize (Hm l w). specialize (Hdb l w Hw).
  unfold locals_of in Hm. unfold world_of in Hdb.
  destruct (m l w) as [[[a|e] l'] w']; cbn [fst snd] in Hm, Hdb; subst l'; auto.
Qed.

Lemma categories_create_posts_as d0 name slug description :
  handler_keeps (posts_as d0) (categories_create name slug description).
Proof.
  intros d now H. unfold categories_create.
  now destruct (first_category_by_slug d slug).
Qed.

Lemma import_new_post_outcome E post c w :
  first_post_by_slug (db w) (Importer.slug post) = None ->
  new_post_outcome post c (db w) (Importer.import_new_post E post c w).
Proof.
  intros Hfree.
  pose proof (categories_create_posts_as (db w)) as Hcat.
  rewrite import_new_post_steps.
  apply (bind_cases_db (posts_as (db w)));
    [apply keeps_locals_convert
    | unfold Importer.convertContentToMarkdown, Importer.migrate_inline,
        Importer.replace_url, Importer.migrateImage; keeps_db_tac
    | reflexivity | | intros e w' Hw'; now split].
  intros [content imagesFailed] w1 Hw1.
  apply (bind_cases_db (posts_as (db w)));
    [unfold excerpt_step; keeps_locals_tac
    | unfold excerpt_step; keeps_db_tac
    | exact Hw1 | | intros e w' Hw'; now split].
  intros excerpt w2 Hw2.
  apply (bind_cases_db (posts_as (db w)));
    [destruct (Importer.categories post) as [|first rest];
       [apply keeps_locals_ret |
        destruct (nonempty first);
          [apply keeps_locals_resolver | apply keeps_locals_ret]]
    | unfold Importer.getOrCreateCategory; keeps_db_tac
    | exact Hw2 | | intros e w' Hw'; now split].
  intros categoryId w3 Hw3.
  apply (bind_cases_db (posts_as (db w)));
    [unfold featured_step, Importer.migrateImage; keeps_locals_tac
    | unfold featured_step, Importer.migrateImage; keeps_db_tac
    | exact Hw3 | | intros e w' Hw'; now split].
  intros [featuredImage featuredImageFailed] w4 Hw4. cbn zeta.
  assert (Hfree4 : first_post_by_slug (db w4) (Importer.slug post) = None).
  { unfold first_post_by_slug in *. unfold posts_as in Hw4. now rewrite Hw4. }
  unfold bind, convex_call, posts_create, insert_post, log, when, update, emit.
  cbn [Importer.create_args a_slug db clock requests uploads trace].
  destruct (transport E (requests w4)) as [msg|].
  - cbn [new_post_outcome db]. now split.
  - rewrite Hfree4.
    destruct (featuredImageFailed || (0 <? imagesFailed)%nat);
      cbn [new_post_outcome db posts]; (split; [auto|]);
      eexists; (split; [now rewrite Hw4 | reflexivity]).
Qed.

(** Every turn of the loop returns, and its counters say what happened to
    the store: a success is a post that is in the store afterwards, a
    failure is a turn that made no post. *)
Lemma import_post_outcome E total i post c w :
  exists c' w',
    Importer.import_post E total i post c w = (Ok tt, c', w')
    /\ turn_outcome E post c c' w w'.
Proof.
  destruct (transport E (requests w)) as [msg|] eqn:Ht.
  { rewrite (import_post_check_fails E total i post c w msg Ht).
    do 2 eexists. split; [reflexivity|]. do 3 right.
    split; [reflexivity|]. split; [reflexivity|]. eauto. }
  destruct (first_post_by_slug (db w) (Importer.slug post)) as [existing|]
    eqn:Hf.
  { rewrite (import_post_found E total i post c w existing Ht Hf).
    do 2 eexists. split; [reflexivity|]. left.
    split; [reflexivity|]. split; [reflexivity|]. eauto. }
  destruct (isDryRun E) eqn:Hd.
  { destruct (import_post_dry E total i post c w Ht Hd Hf) as (w' & Hrun & Hdb).
    exists (Importer.incr_success c), w'. split; [exact Hrun|].
    right. left. now repeat split. }
  rewrite (import_post_new E total i post c w Ht Hd Hf). unfold try_catch.
  pose proof (import_new_post_outcome E post c (after_check total i post w) Hf)
    as H.
  destruct (Importer.import_new_post E post c (after_check total i post w))
    as [[[[]|error] c1] w1]; cbn [new_post_outcome] in H.
  - exists c1, w1. split; [reflexivity|]. right. right. left.
    destruct H as [Hc (p & Hp & Hslug)]. split; [exact Hd|].
    split; [exact Hc|]. exists p. now split.
  - destruct H as [-> Hp]. rewrite on_error_run.
    do 2 eexists. split; [reflexivity|]. do 3 right.
    split; [reflexivity|]. split; [exact Hp|]. eauto.
Qed.

(** *** The steps of a turn, and the errors they throw *)

Lemma import_new_post_stages E post :
  Importer.import_new_post E post =
  bind (Importer.convertContentToMarkdown E (Importer.content post)
          (Importer.title post))
    (fun '(content, imagesFailed) =>
  bind (excerpt_step E post) (fun excerpt =>
  bind (category_step E post) (fun categoryId =>
  finish E post content imagesFailed excerpt categoryId))).
Proof. reflexivity. Qed.

Lemma thrown_error_is_counted E total i post c w error :
  transport E (requests w) = None ->
  isDryRun E = false ->
  first_post_by_slug (db w) (Importer.slug post) = None ->
  throws_without_post E post c (after_check total i post w) error ->
  counted_as_failure E total i post c w error.
Proof.
  intros Ht Hd Hf (w1 & Hrun & Hposts). exists w1.
  rewrite (import_post_new E total i post c w Ht Hd Hf).
  unfold try_catch. rewrite Hrun. split; [apply on_error_run | exact Hposts].
Qed.

(** The conversion of the content throws. *)
Lemma content_error E post c w error :
  replace_urls E (fst (inline_outcome E post (uploads w)))
    (Importer.content post) = Throw error
  \/ (exists updatedHtml,
        replace_urls E (fst (inline_outcome E post (uploads w)))
          (Importer.content post) = Ok updatedHtml
        /\ turndown E updatedHtml = Throw error) ->
  throws_without_post E post c w error.
Proof.
  intros H.
  destruct (convertContentToMarkdown_run E (Importer.content post)
              (Importer.title post) c w) as (w1 & _ & Hdb & _ & Hrun).
  unfold inline_outcome in H. unfold throws_without_post.
  rewrite import_new_post_stages, bind_run, Hrun.
  destruct H as [Hrep | (updatedHtml & Hrep & Hmd)]; rewrite Hrep.
  - exists w1. split; [reflexivity | now rewrite Hdb].
  - rewrite Hmd. eexists. split; [reflexivity|]. cbn [emit db].
    now rewrite Hdb.
Qed.

(** The turn after the conversion of the content. *)
Lemma after_content E post c w :
  content_converts E post w ->
  exists markdown w1,
    db w1 = db w /\ requests w1 = requests w
    /\ Importer.import_new_post E post c w =
       bind (excerpt_step E post) (fun excerpt =>
       bind (category_step E post) (fun categoryId =>
       finish E post markdown (snd (inline_outcome E post (uploads w)))
         excerpt categoryId)) c w1.
Proof.
  intros (updatedHtml & markdown & Hrep & Hmd).
  destruct (convertContentToMarkdown_run E (Importer.content post)
              (Importer.title post) c w) as (w1 & _ & Hdb & Hreq & Hrun).
  unfold inline_outcome in *.
  exists markdown, (emit (Turndown updatedHtml) w1).
  split; [exact Hdb|]. split; [exact Hreq|].
  rewrite import_new_post_stages, bind_run, Hrun, Hrep, Hmd. reflexivity.
Qed.

Lemma excerpt_step_run E post c w :
  excerpt_step E post c w =
    if nonempty (Importer.excerpt post) then
      (match turndown E (Importer.excerpt post) with
       | Ok markdown => Ok (Some markdown)
       | Throw e => Throw e
       end, c, emit (Turndown (Importer.excerpt post)) w)
    else (Ok None, c, w).
Proof.
  unfold excerpt_step. destruct (nonempty (Importer.excerpt post));
    [|reflexivity].
  unfold bind, turndown_call, traced, ret.
  now destruct (turndown E (Importer.excerpt post)).
Qed.

(** The conversion of the excerpt throws. *)
Lemma excerpt_error E post c w error :
  content_converts E post w ->
  nonempty (Importer.excerpt post) = true ->
  turndown E (Importer.excerpt post) = Throw error ->
  throws_without_post E post c w error.
Proof.
  intros Hcontent Hn Hex.
  destruct (after_content E post c w Hcontent)
    as (markdown & w1 & Hdb & _ & Hrun).
  unfold throws_without_post.
  rewrite Hrun, bind_run, excerpt_step_run, Hn, Hex.
  eexists. split; [reflexivity|]. cbn [emit db]. now rewrite Hdb.
Qed.

(** The turn after both conversions. *)
Lemma after_excerpt E post c w :
  content_converts E post w ->
  excerpt_converts E post ->
  exists markdown excerpt w2,
    db w2 = db w /\ requests w2 = requests w
    /\ Importer.import_new_post E post c w =
       bind (category_step E post) (fun categoryId =>
       finish E post markdown (snd (inline_outcome E post (uploads w)))
         excerpt categoryId) c w2.
Proof.
  intros Hcontent Hexcerpt.
  destruct (after_content E post c w Hcontent)
    as (markdown & w1 & Hdb & Hreq & Hrun).
  rewrite Hrun, bind_run, excerpt_step_run.
  destruct (nonempty (Importer.excerpt post)) eqn:Hn.
  - destruct (Hexcerpt Hn) as [md Hmd]. rewrite Hmd.
    exists markdown, (Some md), (emit (Turndown (Importer.excerpt post)) w1).
    now repeat split.
  - exists markdown, None, w1. now repeat split.
Qed.

Lemma category_step_label E post c w first :
  resolved_label post = Some first ->
  nonempty first = true
  /\ category_step E post c w = Importer.getOrCreateCategory E first c w.
Proof.
  unfold resolved_label, category_step.
  destruct (Importer.categories post) as [|label rest]; [discriminate|].
  destruct (nonempty label) eqn:Hn; [|discriminate].
  intros [= <-]. now split.
Qed.

Lemma category_step_none E post c w :
  resolved_label post = None ->
  category_step E post c w = (Ok None, c, w).
Proof.
  unfold resolved_label, category_step.
  destruct (Importer.categories post) as [|label rest]; [reflexivity|].
  now destruct (nonempty label).
Qed.

Lemma resolver_query_fails {L} E name (l : L) w msg :
  nonempty name = true ->
  transport E (requests w) = Some msg ->
  Importer.getOrCreateCategory E name l w =
    (Throw msg, l,
     {| db := db w; clock := clock w; requests := S (requests w);
        uploads := uploads w;
        trace := trace w ++ [QueryCategoriesGetBySlug (Slug.slugify name)] |}).
Proof.
  intros Hn Ht. unfold Importer.getOrCreateCategory.
  rewrite Hn. cbn [negb]. unfold bind, convex_call. now rewrite Ht.
Qed.

Lemma resolver_create_fails {L} E name (l : L) w msg :
  nonempty name = true ->
  isDryRun E = false ->
  transport E (requests w) = None ->
  first_category_by_slug (db w) (Slug.slugify name) = None ->
  transport E (S (requests w)) = Some msg ->
  Importer.getOrCreateCategory E name l w =
    (Throw msg, l,
     {| db := db w; clock := clock w; requests := S (S (requests w));
        uploads := uploads w;
        trace := trace w ++
          [QueryCategoriesGetBySlug (Slug.slugify name);
           Console (CreatingCategory name);
           MutationCategoriesCreate name (Slug.slugify name)] |}).
Proof.
  intros Hn Hd Ht1 Hf Ht2. unfold Importer.getOrCreateCategory.
  rewrite Hn, Hd. cbn [negb].
  unfold bind, convex_call, categories_getBySlug, log, emit.
  cbn [db clock requests uploads trace].
  rewrite Ht1, Hf. cbn [db clock requests uploads trace].
  rewrite Ht2. now rewrite <- !app_assoc.
Qed.

(** The resolution of the category throws: the query does not get
    through, or it finds nothing and the create mutation does not get
    through. *)
Lemma category_error E post c w first msg :
  isDryRun E = false ->
  content_converts E post w ->
  excerpt_converts E post ->
  resolved_label post = Some first ->
  transport E (requests w) = Some msg
  \/ (transport E (requests w) = None
      /\ first_category_by_slug (db w) (Slug.slugify first) = None
      /\ transport E (S (requests w)) = Some msg) ->
  throws_without_post E post c w msg.
Proof.
  intros Hd Hcontent Hexcerpt Hlabel H.
  destruct (after_excerpt E post c w Hcontent Hexcerpt)
    as (markdown & excerpt & w2 & Hdb & Hreq & Hrun).
  destruct (category_step_label E post c w2 first Hlabel) as [Hn Hstep].
  unfold throws_without_post. rewrite Hrun, bind_run, Hstep.
  destruct H as [Ht | (Ht1 & Hf & Ht2)].
  - rewrite (resolver_query_fails E first c w2 msg Hn)
      by (now rewrite Hreq).
    eexists. split; [reflexivity|]. cbn [db]. now rewrite Hdb.
  - rewrite (resolver_create_fails E first c w2 msg Hn Hd)
      by (rewrite ?Hreq, ?Hdb; assumption).
    eexists. split; [reflexivity|]. cbn [db]. now rewrite Hdb.
Qed.

Lemma featured_step_run E post c w :
  exists r w',
    featured_step E post c w = (Ok r, c, w')
    /\ db w' = db w /\ requests w' = requests w
    /\ exists evs, trace w' = trace w ++ evs.
Proof.
  unfold featured_step.
  destruct (Importer.featuredImageUrl post) as [url|].
  - destruct (nonempty url).
    + destruct (migrateImage_run E url (Importer.title post) c w)
        as (w' & Hrun & Hev & Hdb & Hreq & _).
      rewrite bind_run, Hrun.
      destruct (truthy (migrate_result E (Importer.title post) (uploads w) url));
        do 2 eexists; (split; [reflexivity|]);
        (split; [exact Hdb|]); (split; [exact Hreq|]); apply Hev.
    + exists (None, false), w. split; [reflexivity|].
      split; [reflexivity|]. split; [reflexivity|].
      exists []. now rewrite app_nil_r.
  - exists (None, false), w. split; [reflexivity|].
    split; [reflexivity|]. split; [reflexivity|].
    exists []. now rewrite app_nil_r.
Qed.

(** The create mutation does not get through. *)
Lemma finish_create_fails E post content imagesFailed excerpt categoryId c w
  msg :
  transport E (requests w) = Some msg ->
  exists args w1,
    finish E post content imagesFailed excerpt categoryId c w =
      (Throw msg, c, w1)
    /\ db w1 = db w
    /\ In (MutationPostsCreate args) (trace w1)
    /\ a_slug args = Importer.slug post.
Proof.
  intros Ht.
  destruct (featured_step_run E post c w)
    as ([featuredImage featuredImageFailed] & w4 & Hrun & Hdb & Hreq & _).
  unfold finish. rewrite bind_run, Hrun. cbn zeta.
  unfold bind, convex_call. rewrite Hreq, Ht.
  do 2 eexists. split; [reflexivity|]. cbn [db trace].
  split; [exact Hdb|].
  split; [apply in_or_app; right; now left | reflexivity].
Qed.

(** The category step on a store that answers. *)
Lemma category_step_returns E post c w :
  isDryRun E = false ->
  (forall n, requests w <= n < requests w + category_requests (db w) post ->
             transport E n = None) ->
  exists categoryId w3,
    category_step E post c w = (Ok categoryId, c, w3)
    /\ posts (db w3) = posts (db w)
    /\ requests w3 = requests w + category_requests (db w) post.
Proof.
  intros Hd Ht. unfold category_requests in *.
  destruct (resolved_label post) as [first|] eqn:Hlabel.
  - destruct (category_step_label E post c w first Hlabel) as [Hn Hstep].
    rewrite Hstep.
    destruct (first_category_by_slug (db w) (Slug.slugify first)) as [cat|]
      eqn:Hf.
    + rewrite (resolver_found E first c w cat Hn) by (try apply Ht; auto; lia).
      do 2 eexists. split; [reflexivity|]. cbn [db requests].
      split; [reflexivity | lia].
    + rewrite (resolver_creates E first c w Hn Hd)
        by (try apply Ht; auto; lia).
      do 2 eexists. split; [reflexivity|]. cbn [db requests with_category posts].
      split; [reflexivity | lia].
  - rewrite (category_step_none E post c w Hlabel).
    do 2 eexists. split; [reflexivity|]. split; [reflexivity | lia].
Qed.

(** The create mutation is sent and does not get through. *)
Lemma create_error E post c w msg :
  isDryRun E = false ->
  content_converts E post w ->
  excerpt_converts E post ->
  (forall n, requests w <= n < requests w + category_requests (db w) post ->
             transport E n = None) ->
  transport E (requests w + category_requests (db w) post) = Some msg ->
  throws_without_post E post c w msg.
Proof.
  intros Hd Hcontent Hexcerpt Hpass Hfail.
  destruct (after_excerpt E post c w Hcontent Hexcerpt)
    as (markdown & excerpt & w2 & Hdb & Hreq & Hrun).
  destruct (category_step_returns E post c w2 Hd)
    as (categoryId & w3 & Hstep & Hposts & Hreq3).
  { rewrite Hreq, Hdb. exact Hpass. }
  unfold throws_without_post. rewrite Hrun, bind_run, Hstep.
  destruct (finish_create_fails E post markdown
              (snd (inline_outcome E post (uploads w))) excerpt categoryId
              c w3 msg)
    as (args & w4 & Hfinish & Hdb4 & _).
  { now rewrite Hreq3, Hreq, Hdb. }
  exists w4. split; [exact Hfinish|]. now rewrite Hdb4, Hposts, Hdb.
Qed.

(** *** The resolver in a run *)

Lemma only_checks_refl w : only_checks w w.
Proof. split; [reflexivity|]. exists []. now rewrite app_nil_r. Qed.

Lemma only_checks_trans w1 w2 w3 :
  only_checks w1 w2 -> only_checks w2 w3 -> only_checks w1 w3.
Proof.
  intros [D1 (e1 & T1 & F1)] [D2 (e2 & T2 & F2)]. split; [congruence|].
  exists (e1 ++ e2). rewrite T2, T1, <- app_assoc. split; [reflexivity|].
  rewrite forallb_app. now rewrite F1, F2.
Qed.

Lemma only_checks_log line w : only_checks w (emit (Console line) w).
Proof. split; [reflexivity|]. now exists [Console line]. Qed.

(** In a dry run a turn of the loop ends at the existence check or at the
    dry-run exit. *)
Lemma dry_import_post E total i post c w :
  isDryRun E = true ->
  exists c' w',
    Importer.import_post E total i post c w = (Ok tt, c', w')
    /\ only_checks w w'.
Proof.
  intros Hd.
  unfold Importer.import_post, Importer.import_attempt, bind, try_catch,
    convex_call, posts_getBySlug, log, update, emit.
  cbn [db clock requests uploads trace]. rewrite Hd.
  destruct (transport E (requests w)) as [msg|].
  - do 2 eexists. split; [reflexivity|]. split; [reflexivity|].
    cbn [db trace]. rewrite <- !app_assoc. eexists. split; [reflexivity|].
    reflexivity.
  - destruct (first_post_by_slug (db w) (Importer.slug post)) as [existing|].
    + do 2 eexists. split; [reflexivity|]. split; [reflexivity|].
      cbn [db trace]. rewrite <- !app_assoc. eexists.
      split; [reflexivity|]. reflexivity.
    + do 2 eexists. split; [reflexivity|]. split; [reflexivity|].
      cbn [db trace]. rewrite <- !app_assoc. eexists.
      split; [reflexivity|]. reflexivity.
Qed.

Lemma dry_import_loop E total posts : forall i c w,
  isDryRun E = true ->
  exists c' w',
    forM_indexed (Importer.import_post E total) i posts c w = (Ok tt, c', w')
    /\ only_checks w w'.
Proof.
  induction posts as [|post posts IH]; intros i c w Hd.
  - exists c, w. split; [reflexivity | apply only_checks_refl].
  - destruct (dry_import_post E total i post c w Hd) as (c1 & w1 & Hrun & H1).
    destruct (IH (S i) c1 w1 Hd) as (c2 & w2 & Hloop & H2).
    exists c2, w2. split.
    + cbn [forM_indexed]. now rewrite bind_run, Hrun.
    + now apply (only_checks_trans w w1 w2).
Qed.

Lemma dry_importPosts E posts c w :
  isDryRun E = true ->
  exists c' w',
    Importer.importPosts E posts c w = (Ok tt, c', w')
    /\ only_checks w w'.
Proof.
  intros Hd. unfold Importer.importPosts.
  rewrite bind_run. unfold log at 1. rewrite bind_run. unfold update at 1.
  destruct (dry_import_loop E (length posts) posts 0 Importer.no_counts
              (emit (Console (ImportHeader (isDryRun E))) w) Hd)
    as (c' & w' & Hrun & Hchecks).
  rewrite bind_run, Hrun.
  assert (H0 : only_checks w w').
  { apply (only_checks_trans w _ w' (only_checks_log _ w) Hchecks). }
  unfold bind, read, log, when.
  destruct (0 <? Importer.imageFailCount c')%nat; do 2 eexists;
    (split; [reflexivity|]);
    repeat (eapply only_checks_trans; [|apply only_checks_log]);
    exact H0.
Qed.

(** C9.  The resolver returns [undefined] for the empty label.  For a
    non-empty label it queries the store by the derived slug and returns
    the reference of the record found; if there is none, it creates a
    category with that name and slug and returns the new reference, and
    the same label presented again to a store in that state gets the same
    reference from the query alone, with no second create.  The creation
    is stated for a run that is not a dry run, which is how the resolver
    is always called: it is called from the loop of [importPosts] only,
    after the dry-run exit of the turn, so that in a dry run the loop
    sends no category request at all. *)
Theorem category_is_looked_up_or_created (E : Env) (name : string) (w : World) :
  Importer.getOrCreateCategory E EmptyString tt w = (Ok None, tt, w)
  /\ (forall cat,
       nonempty name = true ->
       transport E (requests w) = None ->
       first_category_by_slug (db w) (Slug.slugify name) = Some cat ->
       Importer.getOrCreateCategory E name tt w =
         (Ok (Some (c_id cat)), tt,
          {| db := db w; clock := clock w; requests := S (requests w);
             uploads := uploads w;
             trace := trace w ++
               [QueryCategoriesGetBySlug (Slug.slugify name)] |}))
  /\ (nonempty name = true ->
      isDryRun E = false ->
      transport E (requests w) = None ->
      transport E (S (requests w)) = None ->
      first_category_by_slug (db w) (Slug.slugify name) = None ->
      Importer.getOrCreateCategory E name tt w =
        (Ok (Some (nextId (db w))), tt,
         {| db := with_category (db w) name; clock := clock w;
            requests := S (S (requests w)); uploads := uploads w;
            trace := trace w ++
              [QueryCategoriesGetBySlug (Slug.slugify name);
               Console (CreatingCategory name);
               MutationCategoriesCreate name (Slug.slugify name)] |})
      /\ forall E2 w2,
           db w2 = with_category (db w) name ->
           transport E2 (requests w2) = None ->
           Importer.getOrCreateCategory E2 name tt w2 =
             (Ok (Some (nextId (db w))), tt,
              {| db := db w2; clock := clock w2; requests := S (requests w2);
                 uploads := uploads w2;
                 trace := trace w2 ++
                   [QueryCategoriesGetBySlug (Slug.slugify name)] |}))
  /\ (isDryRun E = true ->
      forall posts c,
        exists c' w',
          Importer.importPosts E posts c w = (Ok tt, c', w')
          /\ db w' = db w
          /\ exists evs,
               trace w' = trace w ++ evs
               /\ forallb check_event evs = true).
Proof.
  split; [reflexivity|]. split; [|split].
  - intros cat. apply resolver_found.
  - intros Hn Hd Ht1 Ht2 Hf. split; [now apply resolver_creates|].
    intros E2 w2 Hdb Ht.
    apply (resolver_found E2 name tt w2 (new_category (db w) name) Hn Ht).
    rewrite Hdb. now apply created_category_is_found.
  - intros Hd posts c. apply dry_importPosts. exact Hd.
Qed.

Lemma category_is_looked_up_or_created_witness :
  Importer.getOrCreateCategory (Sample.working (fun _ => "id") false)
    "Case Studies" tt (Sample.start Sample.empty_db) =
    (Ok (Some 0), tt,
     {| db := with_category Sample.empty_db "Case Studies"; clock := 0;
        requests := 2; uploads := 0;
        trace := [QueryCategoriesGetBySlug "case-studies";
                  Console (CreatingCategory "Case Studies");
                  MutationCategoriesCreate "Case Studies" "case-studies"] |})
  /\ Importer.getOrCreateCategory (Sample.working (fun _ => "id") false)
       "Case Studies" tt
       (Sample.start (with_category Sample.empty_db "Case Studies")) =
     (Ok (Some 0), tt,
      {| db := with_category Sample.empty_db "Case Studies"; clock := 0;
         requests := 1; uploads := 0;
         trace := [QueryCategoriesGetBySlug "case-studies"] |}).
Proof.
  destruct (category_is_looked_up_or_created
              (Sample.working (fun _ => "id") false) "Case Studies"
              (Sample.start Sample.empty_db))
    as (_ & _ & Hcreate & _).
  destruct Hcreate as [Hfirst Hsecond]; try reflexivity.
  split; [exact Hfirst|].
  apply (Hsecond (Sample.working (fun _ => "id") false)
           (Sample.start (with_category Sample.empty_db "Case Studies")));
    reflexivity.
Defined.

End ImporterFacts.

(* ===================================================================== *)
(** ** Facts about the featured-image fixer *)
(* ===================================================================== *)

Module FixFacts.
Import Str Convex Runtime Wxr Cloudflare RunFacts ImporterFacts.
Import FixImages.
Import RegexSpec RunSpec ConvexSpec ImporterSpec FixSpec.

(** The body of [uploadToCloudflare], for any fuel. *)
Lemma uploadToCloudflare_fuel_unfold {L} fuel E imageUrl filename attemptNum :
  @uploadToCloudflare_fuel L fuel E imageUrl filename attemptNum =
  try_catch
    (bind (log (UploadingAttempt attemptNum RETRY_ATTEMPTS)) (fun _ =>
     bind (upload_call E imageUrl filename) (fun imageId =>
     bind (log (UploadedSuccessfully (getImageUrl imageId large))) (fun _ =>
     ret (Some (getImageUrl imageId large))))))
    (fun errorMsg =>
       if (attemptNum <? RETRY_ATTEMPTS)%nat then
         bind (log (UploadFailed errorMsg)) (fun _ =>
         bind (log (RetryingIn RETRY_DELAY_MS)) (fun _ =>
         bind (sleep RETRY_DELAY_MS) (fun _ =>
         match fuel with
         | S fuel' =>
             uploadToCloudflare_fuel fuel' E imageUrl filename (attemptNum + 1)
         | 0 => throw "out of fuel"
         end)))
       else
         bind (log (UploadFailedAfter RETRY_ATTEMPTS errorMsg)) (fun _ =>
         ret None)).
Proof. destruct fuel; reflexivity. Qed.

(** The fuel is enough: the wrapper returns from every state. *)
Lemma uploadToCloudflare_fuel_returns {L} E imageUrl filename fuel :
  forall attemptNum,
    RETRY_ATTEMPTS - attemptNum <= fuel ->
    never_throws (@uploadToCloudflare_fuel L fuel E imageUrl filename attemptNum).
Proof.
  induction fuel as [|fuel IH]; intros attemptNum Hfuel;
    rewrite uploadToCloudflare_fuel_unfold;
    apply never_throws_try_catch; intros errorMsg;
    destruct (attemptNum <? RETRY_ATTEMPTS)%nat eqn:Hlt;
    try (apply Nat.ltb_lt in Hlt); never_throws_tac.
  - lia.
  - apply IH. lia.
Qed.

Lemma uploadToCloudflare_returns {L} E imageUrl filename attemptNum :
  never_throws (@uploadToCloudflare L E imageUrl filename attemptNum).
Proof. unfold uploadToCloudflare. now apply uploadToCloudflare_fuel_returns. Qed.

Lemma uploadToCloudflare_fuel_keeps_locals {L} E imageUrl filename fuel :
  forall attemptNum,
    keeps_locals (@uploadToCloudflare_fuel L fuel E imageUrl filename attemptNum).
Proof.
  induction fuel as [|fuel IH]; intros attemptNum;
    rewrite uploadToCloudflare_fuel_unfold; keeps_locals_tac.
  apply IH.
Qed.

Lemma uploadToCloudflare_keeps_db {L} P E imageUrl filename fuel :
  forall attemptNum,
    keeps_db P (@uploadToCloudflare_fuel L fuel E imageUrl filename attemptNum).
Proof.
  induction fuel as [|fuel IH]; intros attemptNum;
    rewrite uploadToCloudflare_fuel_unfold; keeps_db_tac.
  apply IH.
Qed.

(** A failed attempt that is not the last: two lines, the delay, and the
    next attempt. *)
Lemma attempt_fails {L} fuel E imageUrl filename attemptNum (l : L) w e :
  uploadImageFromUrl E (uploads w) imageUrl filename = Throw e ->
  (attemptNum <? RETRY_ATTEMPTS)%nat = true ->
  uploadToCloudflare_fuel (S fuel) E imageUrl filename attemptNum l w =
    uploadToCloudflare_fuel fuel E imageUrl filename (attemptNum + 1) l
      {| db := db w; clock := clock w + RETRY_DELAY_MS;
         requests := requests w; uploads := S (uploads w);
         trace := trace w ++
           [Console (UploadingAttempt attemptNum RETRY_ATTEMPTS);
            Upload imageUrl filename;
            Console (UploadFailed e);
            Console (RetryingIn RETRY_DELAY_MS);
            Sleep RETRY_DELAY_MS] |}.
Proof.
  intros He Hlt. rewrite uploadToCloudflare_fuel_unfold.
  unfold try_catch, bind, log, upload_call, sleep, emit.
  cbn [db clock requests uploads trace]. rewrite He, Hlt.
  cbn [db clock requests uploads trace]. now rewrite <- !app_assoc.
Qed.

(** The last attempt fails: the wrapper returns [null]. *)
Lemma last_attempt_fails {L} fuel E imageUrl filename attemptNum (l : L) w e :
  uploadImageFromUrl E (uploads w) imageUrl filename = Throw e ->
  (attemptNum <? RETRY_ATTEMPTS)%nat = false ->
  uploadToCloudflare_fuel fuel E imageUrl filename attemptNum l w =
    (Ok None, l,
     {| db := db w; clock := clock w; requests := requests w;
        uploads := S (uploads w);
        trace := trace w ++
          [Console (UploadingAttempt attemptNum RETRY_ATTEMPTS);
           Upload imageUrl filename;
           Console (UploadFailedAfter RETRY_ATTEMPTS e)] |}).
Proof.
  intros He Hlt. rewrite uploadToCloudflare_fuel_unfold.
  unfold try_catch, bind, log, upload_call, ret, emit.
  cbn [db clock requests uploads trace]. rewrite He, Hlt.
  cbn [db clock requests uploads trace]. now rewrite <- !app_assoc.
Qed.

(** An attempt succeeds: the wrapper returns the delivery URL. *)
Lemma attempt_succeeds {L} fuel E imageUrl filename attemptNum (l : L) w imageId :
  uploadImageFromUrl E (uploads w) imageUrl filename = Ok imageId ->
  uploadToCloudflare_fuel fuel E imageUrl filename attemptNum l w =
    (Ok (Some (getImageUrl imageId large)), l,
     {| db := db w; clock := clock w; requests := requests w;
        uploads := S (uploads w);
        trace := trace w ++
          [Console (UploadingAttempt attemptNum RETRY_ATTEMPTS);
           Upload imageUrl filename;
           Console (UploadedSuccessfully (getImageUrl imageId large))] |}).
Proof.
  intros He. rewrite uploadToCloudflare_fuel_unfold.
  unfold try_catch, bind, log, upload_call, ret, emit.
  cbn [db clock requests uploads trace]. rewrite He.
  cbn [db clock requests uploads trace]. now rewrite <- !app_assoc.
Qed.

(** Three failures in a row. *)
Lemma uploadToCloudflare_gives_up {L} E imageUrl filename (l : L) w e1 e2 e3 :
  uploadImageFromUrl E (uploads w) imageUrl filename = Throw e1 ->
  uploadImageFromUrl E (S (uploads w)) imageUrl filename = Throw e2 ->
  uploadImageFromUrl E (S (S (uploads w))) imageUrl filename = Throw e3 ->
  uploadToCloudflare E imageUrl filename 1 l w =
    (Ok None, l,
     {| db := db w;
        clock := clock w + RETRY_DELAY_MS + RETRY_DELAY_MS;
        requests := requests w;
        uploads := S (S (S (uploads w)));
        trace := trace w ++
          [Console (UploadingAttempt 1 RETRY_ATTEMPTS);
           Upload imageUrl filename;
           Console (UploadFailed e1);
           Console (RetryingIn RETRY_DELAY_MS);
           Sleep RETRY_DELAY_MS;
           Console (UploadingAttempt 2 RETRY_ATTEMPTS);
           Upload imageUrl filename;
           Console (UploadFailed e2);
           Console (RetryingIn RETRY_DELAY_MS);
           Sleep RETRY_DELAY_MS;
           Console (UploadingAttempt 3 RETRY_ATTEMPTS);
           Upload imageUrl filename;
           Console (UploadFailedAfter RETRY_ATTEMPTS e3)] |}).
Proof.
  intros H1 H2 H3. unfold uploadToCloudflare.
  change (RETRY_ATTEMPTS - 1) with 2.
  rewrite (attempt_fails 1 E imageUrl filename 1 l w e1 H1) by reflexivity.
  rewrite (attempt_fails 0 E imageUrl filename (1 + 1) l _ e2)
    by (try exact H2; reflexivity).
  rewrite (last_attempt_fails 0 E imageUrl filename (1 + 1 + 1) l _ e3)
    by (try exact H3; reflexivity).
  cbn [db clock requests uploads trace]. now rewrite <- !app_assoc.
Qed.

Lemma emits_three a b c w : emits [a; b; c] w = emit c (emit b (emit a w)).
Proof. now rewrite !emit_emits, !emits_emits. Qed.

Lemma processPost_uploads E post featuredImages index total url s w :
  isDryRun E = false ->
  truthy (p_featuredImage post) && negb (isForce E) = false ->
  featuredImages !! p_slug post = Some url ->
  nonempty url = true ->
  processPost E post featuredImages index total s w =
    bind (uploadToCloudflare E url (filename_of (p_slug post) url) 1)
      (fun cloudflareUrl =>
         match cloudflareUrl with
         | None =>
             bind (update incr_failed) (fun _ =>
             update (push_error (p_slug post) upload_failure_message))
         | Some newUrl =>
             bind
               (try_catch
                  (bind (updatePostFeaturedImage E (p_id post) newUrl) (fun _ =>
                   bind (update incr_success) (fun _ =>
                   log FeaturedImageMigrationComplete)))
                  (fun errorMsg =>
                     bind (update incr_failed) (fun _ =>
                     bind (update (push_error (p_slug post)
                                     ("Failed to update post: " +:+ errorMsg)))
                       (fun _ => log (FailedToUpdatePost errorMsg)))))
               (fun _ => sleep RATE_LIMIT_DELAY_MS)
         end)
      s (before_upload post index total url w).
Proof.
  intros Hd Hskip Hf Hn. unfold processPost.
  rewrite Hskip, Hf, Hn, Hd. cbn [negb].
  unfold before_upload, filename_of.
  rewrite (emits_three _ _ _ w). reflexivity.
Qed.

(** C4.  When the upload fails on each of three attempts, the retrying
    wrapper returns [null] and does not throw: it made exactly three upload
    requests, with a delay of [RETRY_DELAY_MS] after the first and after the
    second.  Its caller then counts one failure, records it under the
    post's slug, and returns without touching the post, so the run goes on
    without the image. *)
Theorem upload_gives_up_after_three_attempts (E : Env) (post : Post)
  (featuredImages : gmap string string) (index total : nat) (s : Stats)
  (w : World) (url e1 e2 e3 : string) :
  let filename := filename_of (p_slug post) url in
  let called := before_upload post index total url w in
  let gave_up := {|
    db := db w;
    clock := clock w + RETRY_DELAY_MS + RETRY_DELAY_MS;
    requests := requests w;
    uploads := S (S (S (uploads w)));
    trace := trace called ++
      [Console (UploadingAttempt 1 RETRY_ATTEMPTS);
       Upload url filename;
       Console (UploadFailed e1);
       Console (RetryingIn RETRY_DELAY_MS);
       Sleep RETRY_DELAY_MS;
       Console (UploadingAttempt 2 RETRY_ATTEMPTS);
       Upload url filename;
       Console (UploadFailed e2);
       Console (RetryingIn RETRY_DELAY_MS);
       Sleep RETRY_DELAY_MS;
       Console (UploadingAttempt 3 RETRY_ATTEMPTS);
       Upload url filename;
       Console (UploadFailedAfter RETRY_ATTEMPTS e3)] |} in
  uploadImageFromUrl E (uploads w) url filename = Throw e1 ->
  uploadImageFromUrl E (S (uploads w)) url filename = Throw e2 ->
  uploadImageFromUrl E (S (S (uploads w))) url filename = Throw e3 ->
  isDryRun E = false ->
  truthy (p_featuredImage post) && negb (isForce E) = false ->
  featuredImages !! p_slug post = Some url ->
  nonempty url = true ->
  uploadToCloudflare E url filename 1 s called = (Ok None, s, gave_up)
  /\ processPost E post featuredImages index total s w =
       (Ok tt,
        {| total := FixImages.total s; success := success s;
           skipped := skipped s; failed := S (failed s);
           errors := errors s ++ [(p_slug post, upload_failure_message)] |},
        gave_up).
Proof.
  intros filename called gave_up H1 H2 H3 Hd Hskip Hf Hn.
  assert (Hup : uploadToCloudflare E url filename 1 s called =
                  (Ok None, s, gave_up)).
  { now rewrite (uploadToCloudflare_gives_up E url filename s called e1 e2 e3). }
  split; [exact Hup|].
  rewrite (processPost_uploads E post featuredImages index total url s w)
    by assumption.
  fold filename called. rewrite bind_run, Hup. reflexivity.
Qed.

Lemma updatePostFeaturedImage_keeps_locals {L} E id url :
  keeps_locals (@updatePostFeaturedImage L E id url).
Proof. unfold updatePostFeaturedImage. keeps_locals_tac. Qed.

(** [processPost] always returns, and a counted failure always comes with
    an entry of the error list under the slug of the post. *)
Lemma processPost_records_failures E post featuredImages index total s w :
  exists s' w',
    processPost E post featuredImages index total s w = (Ok tt, s', w')
    /\ failure_recorded (p_slug post) s s'.
Proof.
  unfold failure_recorded.
  destruct (truthy (p_featuredImage post) && negb (isForce E)) eqn:Hskip.
  { unfold processPost. rewrite Hskip.
    do 2 eexists. split; [reflexivity | left; now split]. }
  destruct (featuredImages !! p_slug post) as [url|] eqn:Hf.
  2: { unfold processPost. rewrite Hskip, Hf.
       do 2 eexists. split; [reflexivity | left; now split]. }
  destruct (nonempty url) eqn:Hn.
  2: { unfold processPost. rewrite Hskip, Hf, Hn.
       do 2 eexists. split; [reflexivity | left; now split]. }
  destruct (isDryRun E) eqn:Hd.
  { unfold processPost. rewrite Hskip, Hf, Hn, Hd.
    do 2 eexists. split; [reflexivity | left; now split]. }
  rewrite (processPost_uploads E post featuredImages index total url s w
             Hd Hskip Hf Hn).
  set (filename := filename_of (p_slug post) url).
  set (w0 := before_upload post index total url w).
  rewrite bind_run.
  pose proof (uploadToCloudflare_returns E url filename 1 s w0) as Hret.
  pose proof (uploadToCloudflare_fuel_keeps_locals E url filename
                (RETRY_ATTEMPTS - 1) 1 s w0) as Hkeep.
  fold (@uploadToCloudflare Stats E url filename 1) in Hkeep.
  unfold result_of in Hret. unfold locals_of in Hkeep.
  destruct (uploadToCloudflare E url filename 1 s w0)
    as [[[cloudflareUrl|e] s1] w1]; cbn in Hret, Hkeep; [|contradiction].
  subst s1. destruct cloudflareUrl as [newUrl|].
  - rewrite bind_run. unfold try_catch. rewrite bind_run.
    pose proof (updatePostFeaturedImage_keeps_locals E (p_id post) newUrl s w1)
      as Hkeep2.
    unfold locals_of in Hkeep2.
    destruct (updatePostFeaturedImage E (p_id post) newUrl s w1)
      as [[[[]|e] s2] w2]; cbn in Hkeep2; subst s2.
    + do 2 eexists. split; [reflexivity | left; now split].
    + do 2 eexists. split; [reflexivity|]. right. eexists. now split.
  - do 2 eexists. split; [reflexivity|]. right. eexists. now split.
Qed.

(** The loop over the posts of the store returns. *)
Lemma process_all_returns E featuredImages posts :
  never_throws (process_all E featuredImages posts).
Proof.
  unfold process_all. apply never_throws_forM_indexed.
  intros i post s w.
  destruct (processPost_records_failures E post featuredImages i
              (length posts) s w) as (s' & w' & Hrun & _).
  unfold result_of. now rewrite Hrun.
Qed.

End FixFacts.

(* ===================================================================== *)
(** ** The pipeline as a whole *)
(* ===================================================================== *)

Module PipelineFacts.
Import Str Convex Runtime Wxr Cloudflare RunFacts ImporterFacts FixFacts.
Import RegexSpec RunSpec ConvexSpec ImporterSpec FixSpec PipelineSpec.


Lemma create_never_duplicates_a_slug_witness :
  (exists msg,
     posts_create (Sample.args_for "hello")
       (Sample.db_with (Sample.stored_post 0 "hello" None)) 7 =
       (Throw msg, Sample.db_with (Sample.stored_post 0 "hello" None)))
  /\ (exists doc,
        posts_create (Sample.args_for "other")
          (Sample.db_with (Sample.stored_post 0 "hello" None)) 7 =
          (Ok (p_id doc),
           {| posts := [Sample.stored_post 0 "hello" None; doc];
              categories := []; nextId := 2 |})
        /\ p_slug doc = "other" /\ p_id doc = 1).
Proof.
  split.
  - apply (ConvexFacts.create_never_duplicates_a_slug (Sample.args_for "hello")
             (Sample.db_with (Sample.stored_post 0 "hello" None)) 7).
    left. reflexivity.
  - apply (ConvexFacts.create_never_duplicates_a_slug (Sample.args_for "other")
             (Sample.db_with (Sample.stored_post 0 "hello" None)) 7).
    intros [H | []]. discriminate H.
Defined.

Lemma upload_gives_up_after_three_attempts_witness :
  FixImages.processPost Sample.images_down (Sample.stored_post 0 "hello" None)
    {["hello" := "http://old.site/f.jpg"]} 0 1 FixImages.no_stats
    (Sample.start (Sample.db_with (Sample.stored_post 0 "hello" None))) =
    (Ok tt,
     {| FixImages.total := 0; FixImages.success := 0; FixImages.skipped := 0;
        FixImages.failed := 1;
        FixImages.errors := [("hello", FixImages.upload_failure_message)] |},
     {| db := Sample.db_with (Sample.stored_post 0 "hello" None);
        clock := 4000; requests := 0; uploads := 3;
        trace :=
          [Console (Processing 1 1 "Stored");
           Console (SlugIs "hello");
           Console (WordPressUrl "http://old.site/f.jpg");
           Console (UploadingAttempt 1 3);
           Upload "http://old.site/f.jpg" "f.jpg";
           Console (UploadFailed "upload refused");
           Console (RetryingIn 2000);
           Sleep 2000;
           Console (UploadingAttempt 2 3);
           Upload "http://old.site/f.jpg" "f.jpg";
           Console (UploadFailed "upload refused");
           Console (RetryingIn 2000);
           Sleep 2000;
           Console (UploadingAttempt 3 3);
           Upload "http://old.site/f.jpg" "f.jpg";
           Console (UploadFailedAfter 3 "upload refused")] |}).
Proof.
  apply (upload_gives_up_after_three_attempts Sample.images_down
           (Sample.stored_post 0 "hello" None)
           {["hello" := "http://old.site/f.jpg"]} 0 1 FixImages.no_stats
           (Sample.start (Sample.db_with (Sample.stored_post 0 "hello" None)))
           "http://old.site/f.jpg" "upload refused" "upload refused"
           "upload refused"); reflexivity.
Defined.

(** C3, as the code has it.  Every turn of the loop of the importer
    returns, and its counters say what happened to the store: a turn is
    counted as a success only if its post is in the store afterwards (or
    the run is a dry run), and a turn that is neither skipped nor
    successful made no post, incremented [failCount] once and no other
    counter, and printed the message as its last line.  In particular an
    error of the existence check, of the content transform (a
    substitution, the converter on the content or on the excerpt), of the
    category resolution (its query or its create mutation) or of the
    create mutation of the post ends the turn in that way, with the
    message of that error; the message is stored nowhere and no slug goes
    with it.  The loop deals with every post, so that [importPosts]
    returns with as many counted posts as it was given.  In the
    featured-image fixer [processPost] returns as well, and each failure
    it counts comes with one entry of the error list under the slug of
    the post. *)
Theorem post_errors_are_counted_and_swallowed (E : Env) (total i : nat)
  (post : Importer.WordPressPost) (posts : list Importer.WordPressPost)
  (c : Importer.Counters) (w : World)
  (stored : Post) (featuredImages : gmap string string) (index count : nat)
  (s : FixImages.Stats) :
  (exists c' w',
     Importer.import_post E total i post c w = (Ok tt, c', w')
     /\ turn_outcome E post c c' w w')
  /\ (forall msg,
        transport E (requests w) = Some msg ->
        counted_as_failure E total i post c w msg)
  /\ (transport E (requests w) = None ->
      isDryRun E = false ->
      first_post_by_slug (db w) (Importer.slug post) = None ->
      (forall error,
         replace_urls E (fst (inline_outcome E post (uploads w)))
           (Importer.content post) = Throw error
         \/ (exists updatedHtml,
               replace_urls E (fst (inline_outcome E post (uploads w)))
                 (Importer.content post) = Ok updatedHtml
               /\ turndown E updatedHtml = Throw error) ->
         counted_as_failure E total i post c w error)
      /\ (forall error,
            content_converts E post w ->
            nonempty (Importer.excerpt post) = true ->
            turndown E (Importer.excerpt post) = Throw error ->
            counted_as_failure E total i post c w error)
      /\ (forall first msg,
            content_converts E post w ->
            excerpt_converts E post ->
            resolved_label post = Some first ->
            transport E (S (requests w)) = Some msg
            \/ (transport E (S (requests w)) = None
                /\ first_category_by_slug (db w) (Slug.slugify first) = None
                /\ transport E (S (S (requests w))) = Some msg) ->
            counted_as_failure E total i post c w msg)
      /\ (forall msg,
            content_converts E post w ->
            excerpt_converts E post ->
            (forall n,
               S (requests w) <= n
               < S (requests w) + category_requests (db w) post ->
               transport E n = None) ->
            transport E (S (requests w) + category_requests (db w) post) =
              Some msg ->
            counted_as_failure E total i post c w msg))
  /\ (exists c' w',
        Importer.importPosts E posts c w = (Ok tt, c', w')
        /\ Importer.successCount c' + Importer.skipCount c'
           + Importer.failCount c' = length posts)
  /\ (exists s' w',
        FixImages.processPost E stored featuredImages index count s w =
          (Ok tt, s', w')
        /\ failure_recorded (p_slug stored) s s').
Proof.
  split; [apply import_post_outcome|]. split; [|split; [|split]].
  - intros msg Ht. eexists. split.
    + apply (import_post_check_fails E total i post c w msg Ht).
    + reflexivity.
  - intros Ht Hd Hf.
    assert (Hcount : forall error,
              throws_without_post E post c (after_check total i post w) error ->
              counted_as_failure E total i post c w error).
    { intros error. now apply thrown_error_is_counted. }
    split; [|split; [|split]].
    + intros error H. apply Hcount.
      exact (content_error E post c (after_check total i post w) error H).
    + intros error Hcontent Hn Hex. apply Hcount.
      exact (excerpt_error E post c (after_check total i post w) error
               Hcontent Hn Hex).
    + intros first msg Hcontent Hexcerpt Hlabel H. apply Hcount.
      exact (category_error E post c (after_check total i post w) first msg
               Hd Hcontent Hexcerpt Hlabel H).
    + intros msg Hcontent Hexcerpt Hpass Hfail. apply Hcount.
      exact (create_error E post c (after_check total i post w) msg
               Hd Hcontent Hexcerpt Hpass Hfail).
  - apply importPosts_counts.
  - apply processPost_records_failures.
Qed.

(** A converter that throws, and a create mutation that does not get
    through: each is counted as a failure, with its message. *)
Lemma post_errors_are_counted_and_swallowed_witness :
  counted_as_failure Sample.converter_down 1 0 (post_with_slug "hello")
    Importer.no_counts (Sample.start Sample.empty_db) "converter failed"
  /\ counted_as_failure second_request_fails 1 0 (post_with_slug "hello")
       Importer.no_counts (Sample.start Sample.empty_db) "connection lost".
Proof.
  split.
  - destruct (post_errors_are_counted_and_swallowed Sample.converter_down 1 0
                (post_with_slug "hello") [] Importer.no_counts
                (Sample.start Sample.empty_db)
                (Sample.stored_post 0 "hello" None) ∅ 0 0 FixImages.no_stats)
      as (_ & _ & H & _).
    destruct H as (Hcontent & _); [reflexivity | reflexivity | reflexivity|].
    apply Hcontent. right. exists "<p>Hi</p>". split; reflexivity.
  - destruct (post_errors_are_counted_and_swallowed second_request_fails 1 0
                (post_with_slug "hello") [] Importer.no_counts
                (Sample.start Sample.empty_db)
                (Sample.stored_post 0 "hello" None) ∅ 0 0 FixImages.no_stats)
      as (_ & _ & H & _).
    destruct H as (_ & _ & _ & Hcreate);
      [reflexivity | reflexivity | reflexivity|].
    apply Hcreate.
    + exists "<p>Hi</p>", "<p>Hi</p>". split; reflexivity.
    + intros Hn. discriminate Hn.
    + intros n Hn. cbn in Hn. lia.
    + reflexivity.
Defined.

(** The claim C3 fails as stated: the importer counts the failure and
    prints the message, and neither the counters nor the console tell for
    which slug; two posts that differ in their slug only leave the same
    record. *)
Lemma error_is_not_keyed_by_slug :
  let run slug :=
    Importer.import_post Sample.converter_down 1 0 (post_with_slug slug)
      Importer.no_counts (Sample.start Sample.empty_db) in
  result_of (run "first") = Ok tt
  /\ locals_of (run "first") =
       {| Importer.successCount := 0; Importer.skipCount := 0;
          Importer.failCount := 1; Importer.imageFailCount := 0 |}
  /\ console (trace (world_of (run "first"))) =
       [Processing 1 1 "Hello"; FailedToImport "converter failed"]
  /\ locals_of (run "second") = locals_of (run "first")
  /\ console (trace (world_of (run "second"))) =
       console (trace (world_of (run "first"))).
Proof. cbn zeta. repeat split; vm_compute; reflexivity. Qed.

(** C8 at an image URL with a query string: the upload succeeds, and the
    content goes to the converter with the old URL in every place, because
    the URL is used as a pattern in which [?] makes the letter before it
    optional. *)
Theorem migrated_url_with_query_is_not_replaced :
  let html := Sample.img "http://old.site/a.jpg?w=300" in
  let run :=
    Importer.convertContentToMarkdown (Sample.working (fun _ => "ID") false)
      html "Hello" tt (Sample.start Sample.empty_db) in
  Regex.extract_image_urls html = ["http://old.site/a.jpg?w=300"]
  /\ In (Console (ImageUploaded (getImageUrl "ID" large))) (trace (world_of run))
  /\ In (Turndown html) (trace (world_of run))
  /\ result_of run = Ok (html, 0)
  /\ html <> Sample.img (getImageUrl "ID" large).
Proof.
  cbn zeta. split; [vm_compute; reflexivity|].
  split; [vm_compute; tauto|]. split; [vm_compute; tauto|].
  split; [vm_compute; reflexivity | vm_compute; discriminate].
Qed.

(** The same content with a URL free of pattern syntax other than the dot
    is rewritten in every place. *)
Example migrated_plain_url_is_replaced :
  result_of
    (Importer.convertContentToMarkdown (Sample.working (fun _ => "ID") false)
       (Sample.img "http://old.site/a.jpg" +:+ Sample.img "http://old.site/a.jpg")
       "Hello" tt (Sample.start Sample.empty_db)) =
  Ok (Sample.img (getImageUrl "ID" large)
      +:+ Sample.img (getImageUrl "ID" large), 0).
Proof. vm_compute. reflexivity. Qed.

(** *** The basic importer on the same inputs *)


(** The basic importer has no attachment index: what it passes as the URL
    of the featured image is the meta element itself. *)
Example basic_importer_uploads_the_meta_element :
  let run :=
    BasicImporter.import_post (Sample.working (fun _ => "ID") false) 1 0
      (basic_post_with_slug "hello" (Some (Sample.thumbnail "10")))
      {| BasicImporter.successCount := 0; BasicImporter.failCount := 0 |}
      (Sample.start Sample.empty_db) in
  In (Upload BasicImporter.object_as_string "Hello") (trace (world_of run)).
Proof. cbn zeta. vm_compute. tauto. Qed.


End PipelineFacts.

(* ===================================================================== *)
(** ** Laws of the slug derivation *)
(* ===================================================================== *)

Module SlugLaws.
Import Str Slug Regex SlugFacts RegexFacts.
Import RegexSpec RunSpec ConvexSpec ImporterSpec FixSpec PipelineSpec SlugLawsSpec.

Lemma has_alnum_collapse s : forall in_run,
  has_alnum (collapse in_run s) = has_alnum s.
Proof.
  induction s as [|c s IH]; intros in_run; cbn [collapse has_alnum];
    [reflexivity|].
  destruct (is_lower_alnum c) eqn:Ha.
  - cbn [has_alnum]. now rewrite Ha.
  - destruct in_run; [now rewrite IH|].
    cbn [has_alnum]. now rewrite hyphen_not_alnum, IH.
Qed.

Lemma hyphen_is_not_alnum c : is_hyphen c = true -> is_lower_alnum c = false.
Proof. intros H. apply is_hyphen_eq in H. now subst c. Qed.

Lemma has_alnum_strip_leading s : has_alnum (strip_leading s) = has_alnum s.
Proof.
  induction s as [|c s IH]; [reflexivity|].
  cbn [strip_leading]. destruct (is_hyphen c) eqn:Hc; [|reflexivity].
  cbn [has_alnum]. now rewrite (hyphen_is_not_alnum c Hc), IH.
Qed.

Lemma has_alnum_strip_trailing s : has_alnum (strip_trailing s) = has_alnum s.
Proof.
  induction s as [|c s IH]; [reflexivity|].
  rewrite strip_trailing_cons. cbn [has_alnum]. rewrite <- IH.
  destruct (strip_trailing s) as [|d r].
  - destruct (is_hyphen c) eqn:Hc; [|reflexivity].
    now rewrite (hyphen_is_not_alnum c Hc).
  - reflexivity.
Qed.

Lemma has_alnum_slugify label :
  has_alnum (slugify label) = has_alnum (toLowerCase label).
Proof.
  unfold slugify, strip_hyphens.
  now rewrite has_alnum_strip_trailing, has_alnum_strip_leading,
    has_alnum_collapse.
Qed.

(** Text without a character of [a-z0-9] collapses to nothing or to one
    hyphen. *)
Lemma collapse_without_alnum s :
  has_alnum s = false ->
  collapse true s = EmptyString
  /\ (collapse false s = EmptyString
      \/ collapse false s = String hyphen EmptyString).
Proof.
  induction s as [|c s IH]; [now split; [|left]|].
  cbn [has_alnum collapse]. intros H. apply orb_false_iff in H.
  destruct H as [Hc Hs]. rewrite Hc. destruct (IH Hs) as [Hrun _].
  split; [exact Hrun|]. right. now rewrite Hrun.
Qed.

(** X1.  Whatever the label, the derived slug is made of the characters
    [a-z], [0-9] and the hyphen, has no hyphen at either end and no two
    hyphens in a row. *)
Theorem derived_slug_is_well_formed (label : string) :
  all_slug_chars (slugify label) = true
  /\ starts_with_hyphen (slugify label) = false
  /\ ends_with_hyphen (slugify label) = false
  /\ has_double_hyphen (slugify label) = false.
Proof. apply valid_slug_parts, slugify_valid. Qed.

(** X2.  Deriving a slug twice gives what deriving it once gives, for
    every label; and the texts the derivation leaves unchanged are exactly
    the valid slugs. *)
Theorem slugify_is_idempotent (label : string) :
  slugify (slugify label) = slugify label
  /\ (slugify label = label <-> valid_slug label = true).
Proof. split; [apply slugify_twice | apply slugify_fixed_iff]. Qed.

(** X3.  The derived slug is empty exactly for the labels without an ASCII
    letter or digit: such a label (punctuation, blanks, the empty text) has
    no character of [a-z0-9] once lower-cased. *)
Theorem slug_is_empty_iff_no_alphanumeric (label : string) :
  slugify label = EmptyString <-> has_alnum (toLowerCase label) = false.
Proof.
  split.
  - intros H. rewrite <- has_alnum_slugify, H. reflexivity.
  - intros H. unfold slugify.
    destruct (collapse_without_alnum (toLowerCase label) H) as [_ [-> | ->]];
      reflexivity.
Qed.

End SlugLaws.

(* ===================================================================== *)
(** ** The image pattern *)
(* ===================================================================== *)

Module ImageUrls.
Import Str Regex Runtime RunFacts ImporterFacts.
Import RegexSpec RunSpec ConvexSpec ImporterSpec FixSpec PipelineSpec SlugLawsSpec ImageUrlsSpec.

(** *** Text *)

Lemma app_cons c s t : String c s +:+ t = String c (s +:+ t).
Proof. reflexivity. Qed.

Lemma app_empty_l s : EmptyString +:+ s = s.
Proof. reflexivity. Qed.

Lemma app_assoc_text s t u : (s +:+ t) +:+ u = s +:+ (t +:+ u).
Proof.
  induction s as [|c s IH]; [reflexivity|]. rewrite !app_cons. now rewrite IH.
Qed.

Lemma length_app_text s t :
  String.length (s +:+ t) = String.length s + String.length t.
Proof.
  induction s as [|c s IH]; [reflexivity|].
  rewrite app_cons. cbn [String.length]. now rewrite IH.
Qed.

Lemma take_app u v : take (String.length u) (u +:+ v) = u.
Proof.
  unfold take. induction u as [|c u IH].
  - rewrite app_empty_l. destruct v; reflexivity.
  - rewrite app_cons. cbn [String.length String.substring]. now rewrite IH.
Qed.

(** *** The matcher *)

(** What a greedy repetition gave: a run of characters of the class, and
    the continuation on the rest. *)
Lemma star_inversion {R} a (k : string -> option R) s r :
  star a k s = Some r ->
  exists u rest,
    s = u +:+ rest /\ all_chars (atom_matches a) u = true /\ k rest = Some r.
Proof.
  induction s as [|c s IH]; cbn [star].
  - intros H. exists EmptyString, EmptyString. now repeat split.
  - destruct (atom_matches a c) eqn:Hc.
    + destruct (star a k s) as [r'|] eqn:Hs.
      * intros [= ->]. destruct (IH eq_refl) as (u & rest & -> & Hu & Hk).
        exists (String c u), rest. rewrite app_cons. cbn [all_chars].
        now rewrite Hc, Hu.
      * intros H. exists EmptyString, (String c s). now repeat split.
    + intros H. exists EmptyString, (String c s). now repeat split.
Qed.

(** A match of [pre ++ suf], where [pre] has no mark, ends with a match of
    [suf] on a later part of the text, which gives the marks. *)
Lemma match_here_prefix pre suf :
  no_marks pre = true ->
  forall s ms r,
    match_here (pre ++ suf) s = Some (ms, r) ->
    exists passed s',
      s = passed +:+ s' /\ match_here suf s' = Some (ms, r).
Proof.
  induction pre as [|[a q|] pre IH]; cbn [no_marks forallb andb];
    [| |discriminate].
  - intros _ s ms r H. exists EmptyString, s. now split.
  - intros Hpre s ms r H. specialize (IH Hpre).
    cbn [app match_here] in H.
    assert (Hk : forall t passed,
              s = passed +:+ t ->
              match_here (pre ++ suf) t = Some (ms, r) ->
              exists passed' s',
                s = passed' +:+ s' /\ match_here suf s' = Some (ms, r)).
    { intros t passed -> Ht. destruct (IH t ms r Ht) as (p & s' & -> & Hs').
      exists (passed +:+ p), s'. now rewrite app_assoc_text. }
    destruct q.
    + destruct s as [|c s]; [discriminate|].
      destruct (atom_matches a c); [|discriminate].
      apply (Hk s (String c EmptyString)); [reflexivity | exact H].
    + destruct s as [|c s].
      * apply (Hk EmptyString EmptyString); [reflexivity | exact H].
      * destruct (atom_matches a c).
        -- destruct (match_here (pre ++ suf) s) as [x|] eqn:Hs.
           ++ injection H as ->.
              apply (Hk s (String c EmptyString)); [reflexivity | exact Hs].
           ++ apply (Hk (String c s) EmptyString); [reflexivity | exact H].
        -- apply (Hk (String c s) EmptyString); [reflexivity | exact H].
    + apply star_inversion in H. destruct H as (u & rest & -> & _ & Hrest).
      now apply (Hk rest u).
    + destruct s as [|c s]; [discriminate|].
      destruct (atom_matches a c); [|discriminate].
      apply star_inversion in H. destruct H as (u & rest & -> & _ & Hrest).
      apply (Hk rest (String c u)); [reflexivity | exact Hrest].
Qed.

(** Every entry of the match list comes from a match at some place of the
    text. *)
Lemma scan_matches its s : forall skip ms,
  In ms (scan its skip s) ->
  exists passed s' r,
    s = passed +:+ s' /\ match_here its s' = Some (ms, r).
Proof.
  induction s as [|c s IH]; intros skip ms H.
  - destruct skip; cbn [scan] in H; [|contradiction].
    destruct (match_here its EmptyString) as [[ms' r]|] eqn:Hm;
      [|contradiction].
    destruct H as [<- | []]. exists EmptyString, EmptyString, r. now split.
  - assert (Hlater : forall k,
              In ms (scan its k s) ->
              exists passed s' r,
                String c s = passed +:+ s' /\ match_here its s' = Some (ms, r)).
    { intros k Hk. destruct (IH k ms Hk) as (p & s' & r & -> & Hm).
      exists (String c p), s', r. now split. }
    destruct skip; cbn [scan] in H; [|now apply (Hlater skip)].
    destruct (match_here its (String c s)) as [[ms' r]|] eqn:Hm.
    + destruct H as [<- | H].
      * exists EmptyString, (String c s), r. now split.
      * now apply (Hlater _ H).
    + now apply (Hlater 0).
Qed.

Lemma imgRegex_parts : imgRegex = before_group ++ group_and_quote.
Proof. reflexivity. Qed.

(** A match of the capture group and the closing quote: the group took a
    non-empty run of the class, and a double quote follows. *)
Lemma group_match s ms r :
  match_here group_and_quote s = Some (ms, r) ->
  exists url,
    nonempty url = true /\ all_chars is_url_char url = true
    /\ s = url +:+ String dquote r /\ group1 ms = url.
Proof.
  unfold group_and_quote. cbn [match_here].
  destruct s as [|c s]; [discriminate|].
  destruct (atom_matches (ANoneOf [dquote; ">"%char]) c) eqn:Hc; [|discriminate].
  destruct (star _ _ s) as [[ms' r']|] eqn:Hs; [|discriminate].
  intros [= <- <-].
  apply star_inversion in Hs. destruct Hs as (u & rest & -> & Hu & Hrest).
  cbn [match_here] in Hrest.
  destruct rest as [|d rest]; [discriminate|].
  cbn [atom_matches] in Hrest.
  destruct (Ascii.eqb d dquote) eqn:Hd; [|discriminate].
  apply Ascii.eqb_eq in Hd. subst d. injection Hrest as <- <-.
  exists (String c u). split; [reflexivity|]. split.
  { cbn [all_chars]. unfold is_url_char at 1. now rewrite Hc. }
  split; [reflexivity|].
  unfold group1, matched_length.
  change (String c (u +:+ String dquote rest))
    with (String c u +:+ String dquote rest).
  rewrite length_app_text.
  replace (String.length (String c u) + String.length (String dquote rest)
           - String.length (String dquote rest))
    with (String.length (String c u)) by lia.
  apply take_app.
Qed.

(** X4.  Every URL the image loop takes from the content is a piece of the
    content that a double quote follows; it is not empty and has neither a
    double quote nor [>] in it. *)
Theorem extracted_urls_are_quoted_text (html url : string) :
  In url (extract_image_urls html) ->
  nonempty url = true
  /\ all_chars is_url_char url = true
  /\ exists before after, html = before +:+ url +:+ String dquote after.
Proof.
  unfold extract_image_urls. intros H. apply in_map_iff in H.
  destruct H as (ms & <- & Hms).
  apply scan_matches in Hms. destruct Hms as (p1 & s1 & r & -> & Hm).
  rewrite imgRegex_parts in Hm.
  apply match_here_prefix in Hm; [|reflexivity].
  destruct Hm as (p2 & s2 & -> & Hm).
  apply group_match in Hm. destruct Hm as (u & Hne & Hchars & -> & ->).
  split; [exact Hne|]. split; [exact Hchars|].
  exists (p1 +:+ p2), r. now rewrite app_assoc_text.
Qed.

Lemma extracted_urls_are_quoted_text_witness :
  nonempty "http://old.site/a.png" = true
  /\ all_chars is_url_char "http://old.site/a.png" = true
  /\ exists before after,
       Sample.img "http://old.site/a.png" =
       before +:+ "http://old.site/a.png" +:+ String dquote after.
Proof.
  apply (extracted_urls_are_quoted_text (Sample.img "http://old.site/a.png")).
  vm_compute. now left.
Defined.

End ImageUrls.

(* ===================================================================== *)
(** ** Whole runs of the importer *)
(* ===================================================================== *)

Module ImporterRuns.
Import Str Convex Runtime Wxr Cloudflare RunFacts ConvexFacts ImporterFacts.
Import RegexSpec RunSpec ConvexSpec ImporterSpec FixSpec PipelineSpec SlugLawsSpec ImageUrlsSpec ImporterRunsSpec.

(** *** Runs that write nothing *)

Lemma quiet_refl w : quiet w w.
Proof.
  split; try reflexivity. exists []. now rewrite app_nil_r.
Qed.

Lemma quiet_trans w1 w2 w3 : quiet w1 w2 -> quiet w2 w3 -> quiet w1 w3.
Proof.
  intros [D1 U1 C1 (e1 & T1 & R1)] [D2 U2 C2 (e2 & T2 & R2)].
  split; try congruence.
  exists (e1 ++ e2). split.
  - rewrite T2, T1. now rewrite app_assoc.
  - rewrite forallb_app. now rewrite R1, R2.
Qed.

Lemma quiet_emit ev w : read_only ev = true -> quiet w (emit ev w).
Proof.
  intros H. split; try reflexivity. exists [ev]. split; [reflexivity|].
  cbn. now rewrite H.
Qed.

Section StaysQuiet.
Context {L : Type}.

Lemma stays_quiet_ret {A} (a : A) : stays_quiet (@ret L A a).
Proof. intros l w. apply quiet_refl. Qed.

Lemma stays_quiet_update (f : L -> L) : stays_quiet (update f).
Proof. intros l w. apply quiet_refl. Qed.

Lemma stays_quiet_read : stays_quiet (@read L).
Proof. intros l w. apply quiet_refl. Qed.

Lemma stays_quiet_log (line : Line) : stays_quiet (@log L line).
Proof. intros l w. now apply quiet_emit. Qed.

Lemma stays_quiet_bind {A B} (m : M L A) (k : A -> M L B) :
  stays_quiet m -> (forall a, stays_quiet (k a)) -> stays_quiet (bind m k).
Proof.
  intros Hm Hk l w. unfold bind, world_of. specialize (Hm l w).
  unfold world_of in Hm.
  destruct (m l w) as [[[a|e] l'] w']; cbn in *; [|exact Hm].
  apply (quiet_trans w w'); [exact Hm | apply Hk].
Qed.

Lemma stays_quiet_try_catch {A} (m : M L A) (h : string -> M L A) :
  stays_quiet m -> (forall e, stays_quiet (h e)) -> stays_quiet (try_catch m h).
Proof.
  intros Hm Hh l w. unfold try_catch, world_of. specialize (Hm l w).
  unfold world_of in Hm.
  destruct (m l w) as [[[a|e] l'] w']; cbn in *; [exact Hm|].
  apply (quiet_trans w w'); [exact Hm | apply Hh].
Qed.

Lemma stays_quiet_when (b : bool) (m : M L unit) :
  stays_quiet m -> stays_quiet (when b m).
Proof. destruct b; [trivial | intros _; apply stays_quiet_ret]. Qed.

Lemma stays_quiet_foldM {A B} (body : B -> A -> M L B) (xs : list A) :
  (forall acc x, stays_quiet (body acc x)) ->
  forall acc, stays_quiet (foldM body xs acc).
Proof.
  intros Hb. induction xs as [|x xs IH]; intros acc; cbn [foldM].
  - apply stays_quiet_ret.
  - apply stays_quiet_bind; [apply Hb | exact IH].
Qed.

Lemma stays_quiet_forM_indexed {A} (body : nat -> A -> M L unit) (xs : list A) :
  (forall i x, stays_quiet (body i x)) ->
  forall i, stays_quiet (forM_indexed body i xs).
Proof.
  intros Hb. induction xs as [|x xs IH]; intros i; cbn [forM_indexed].
  - apply stays_quiet_ret.
  - apply stays_quiet_bind; [apply Hb | intros _; apply IH].
Qed.

(** A query: a request that is read-only and whose handler returns the
    store it was given. *)
Lemma stays_quiet_query {A} (E : Env) (ev : Event) (h : Handler A) :
  read_only ev = true ->
  (forall d now, snd (h d now) = d) ->
  stays_quiet (@convex_call L A E ev h).
Proof.
  intros Hev Hh l w. unfold convex_call, world_of.
  destruct (transport E (requests w)).
  - split; try reflexivity. exists [ev]. split; [reflexivity|].
    cbn. now rewrite Hev.
  - pose proof (Hh (db w) (clock w)) as Hd.
    destruct (h (db w) (clock w)) as [r d]. cbn [snd] in Hd.
    split; cbn [db uploads clock trace]; try reflexivity; [exact Hd|].
    exists [ev]. split; [reflexivity|]. cbn. now rewrite Hev.
Qed.

End StaysQuiet.

Lemma posts_getBySlug_reads slug d now : snd (posts_getBySlug slug d now) = d.
Proof. unfold posts_getBySlug. now destruct (first_post_by_slug d slug). Qed.

Ltac stays_quiet_tac :=
  repeat first
    [ progress intros
    | lazymatch goal with
      | |- stays_quiet (ret _) => apply stays_quiet_ret
      | |- stays_quiet (log _) => apply stays_quiet_log
      | |- stays_quiet (update _) => apply stays_quiet_update
      | |- stays_quiet read => apply stays_quiet_read
      | |- stays_quiet (convex_call _ _ _) =>
          apply stays_quiet_query;
          [ reflexivity
          | first [ apply posts_getBySlug_reads | intros; reflexivity ] ]
      | |- stays_quiet (try_catch _ _) => apply stays_quiet_try_catch
      | |- stays_quiet (bind _ _) => apply stays_quiet_bind
      | |- stays_quiet (when _ _) => apply stays_quiet_when
      | |- stays_quiet (foldM _ _ _) => apply stays_quiet_foldM
      | |- stays_quiet (forM_indexed _ _ _) => apply stays_quiet_forM_indexed
      | |- stays_quiet (if ?b then _ else _) => destruct b
      | |- stays_quiet (match ?x with _ => _ end) => destruct x
      end ].

Lemma stays_quiet_parse {L} items :
  stays_quiet (@Importer.parseWordPressXML L items).
Proof.
  unfold Importer.parseWordPressXML, Importer.extract_post. stays_quiet_tac.
Qed.

Lemma stays_quiet_dry_import E posts :
  isDryRun E = true -> stays_quiet (Importer.importPosts E posts).
Proof.
  intros Hd.
  unfold Importer.importPosts, Importer.import_post, Importer.import_attempt.
  rewrite Hd. stays_quiet_tac.
Qed.

(** X5.  In a dry run [main] writes nothing: the store is as it was, no
    upload is requested, no time passes, and every event of the run is a
    console line or a query; in particular the converter is not called, no
    mutation is sent and the Enter key is not awaited. *)
Theorem dry_run_writes_nothing (E : Env) (items : list WpItem)
  (c : Importer.Counters) (w : World) :
  isDryRun E = true ->
  db (world_of (Importer.main E items c w)) = db w
  /\ uploads (world_of (Importer.main E items c w)) = uploads w
  /\ clock (world_of (Importer.main E items c w)) = clock w
  /\ exists evs,
       trace (world_of (Importer.main E items c w)) = trace w ++ evs
       /\ forallb read_only evs = true.
Proof.
  intros Hd.
  assert (H : stays_quiet (Importer.main E items)).
  { unfold Importer.main. rewrite Hd. cbn [negb when].
    apply stays_quiet_bind; [apply stays_quiet_log|]. intros ?.
    apply stays_quiet_bind; [stays_quiet_tac|]. intros ?.
    apply stays_quiet_bind; [apply stays_quiet_parse|]. intros [|post posts].
    - apply stays_quiet_log.
    - apply stays_quiet_bind; [stays_quiet_tac|]. intros ?.
      apply stays_quiet_bind; [now apply stays_quiet_dry_import|]. intros ?.
      apply stays_quiet_log. }
  destruct (H c w) as [Hdb Hup Hclock Htrace]. now repeat split.
Qed.

Lemma dry_run_writes_nothing_witness :
  let run :=
    Importer.main (Sample.working (fun _ => "ID") true)
      [Sample.post_item "Hello" "hello" "publish"
         (Sample.img "http://old.site/a.png") []]
      Importer.no_counts (Sample.start Sample.empty_db) in
  db (world_of run) = Sample.empty_db
  /\ uploads (world_of run) = 0
  /\ clock (world_of run) = 0
  /\ exists evs,
       trace (world_of run) = [] ++ evs /\ forallb read_only evs = true.
Proof.
  apply (dry_run_writes_nothing (Sample.working (fun _ => "ID") true)
           [Sample.post_item "Hello" "hello" "publish"
              (Sample.img "http://old.site/a.png") []]
           Importer.no_counts (Sample.start Sample.empty_db)).
  reflexivity.
Defined.

(** *** Images that are not sent *)

Lemma migrateImage_invalid {L} E url alt (l : L) w :
  valid_url url = false ->
  Importer.migrateImage E url alt l w =
    (Ok None, l,
     emits [Console (MigratingImage url); Console (InvalidImageUrl url)] w).
Proof.
  unfold valid_url. intros H.
  unfold Importer.migrateImage, try_catch, bind, log, ret.
  destruct (nonempty url); destruct (startsWith "http" url);
    try discriminate; cbn [negb orb];
    now rewrite !emit_emits, emits_emits.
Qed.

Lemma inline_loop_invalid {L} E title urls : forall acc (l : L) w,
  (forall url, In url urls -> valid_url url = false) ->
  foldM (Importer.migrate_inline E title) urls acc l w =
    (Ok (fst acc, snd acc + length urls), l, emits (invalid_lines urls) w).
Proof.
  induction urls as [|url urls IH]; intros [imageMapping imagesFailed] l w H.
  - cbn [foldM fst snd length invalid_lines flat_map]. unfold ret.
    now rewrite emits_nil, Nat.add_0_r.
  - cbn [foldM]. rewrite bind_run.
    unfold Importer.migrate_inline at 1. rewrite bind_run.
    rewrite migrateImage_invalid by (apply H; now left).
    cbn [truthy]. unfold ret at 1.
    rewrite IH by (intros u Hu; apply H; now right).
    cbn [fst snd length invalid_lines flat_map app].
    rewrite emits_emits. cbn [app]. now rewrite Nat.add_succ_comm.
Qed.

Lemma no_http_is_invalid url : startsWith "http" url = false -> valid_url url = false.
Proof. unfold valid_url. intros ->. apply andb_false_r. Qed.

(** X6.  When no image URL of the content starts with [http] (relative
    URLs, data URLs, or no image at all), no upload is requested: each
    image is counted as failed, and the converter receives the content as
    it was. *)
Theorem images_without_http_url_are_not_uploaded (E : Env)
  (html title : string) (w : World) :
  (forall url,
     In url (Regex.extract_image_urls html) -> startsWith "http" url = false) ->
  Importer.convertContentToMarkdown E html title tt w =
    (match turndown E html with
     | Ok markdown => Ok (markdown, length (Regex.extract_image_urls html))
     | Throw e => Throw e
     end,
     tt,
     emits (invalid_lines (Regex.extract_image_urls html) ++ [Turndown html]) w).
Proof.
  intros H. unfold Importer.convertContentToMarkdown.
  rewrite bind_run.
  rewrite inline_loop_invalid
    by (intros url Hurl; apply no_http_is_invalid, H, Hurl).
  cbn [fst snd]. rewrite bind_run. cbn [foldM]. unfold ret at 1.
  rewrite bind_run. unfold turndown_call, traced.
  rewrite emit_emits, emits_emits.
  destruct (turndown E html); reflexivity.
Qed.

Lemma images_without_http_url_are_not_uploaded_witness :
  Importer.convertContentToMarkdown (Sample.working (fun _ => "ID") false)
    (Sample.img "/wp-content/uploads/a.png") "Hello" tt
    (Sample.start Sample.empty_db) =
    (Ok (Sample.img "/wp-content/uploads/a.png", 1), tt,
     emits
       [Console (MigratingImage "/wp-content/uploads/a.png");
        Console (InvalidImageUrl "/wp-content/uploads/a.png");
        Turndown (Sample.img "/wp-content/uploads/a.png")]
       (Sample.start Sample.empty_db)).
Proof.
  apply (images_without_http_url_are_not_uploaded
           (Sample.working (fun _ => "ID") false)
           (Sample.img "/wp-content/uploads/a.png") "Hello"
           (Sample.start Sample.empty_db)).
  intros url Hurl. vm_compute in Hurl. destruct Hurl as [<- | []].
  reflexivity.
Defined.

(** *** The number of uploads *)

Lemma uploads_after_count n url :
  uploads_after n url = n + length (List.filter valid_url [url]).
Proof.
  unfold uploads_after. cbn [List.filter].
  destruct (valid_url url); cbn [length]; lia.
Qed.

Lemma inline_loop_uploads {L} E title urls : forall acc (l : L) w,
  exists w',
    foldM (Importer.migrate_inline E title) urls acc l w =
      (Ok (fold_left apply_result (inline_results E title (uploads w) urls) acc),
       l, w')
    /\ uploads w' = uploads w + length (List.filter valid_url urls)
    /\ db w' = db w
    /\ requests w' = requests w.
Proof.
  induction urls as [|url urls IH]; intros acc l w.
  - exists w. cbn. repeat split; lia.
  - destruct (migrate_inline_run E title acc url l w)
      as (w1 & Hrun & _ & Hdb & Hreq & Hup).
    destruct (IH (apply_result acc (url, migrate_result E title (uploads w) url))
                l w1) as (w2 & Hrun2 & Hup2 & Hdb2 & Hreq2).
    exists w2. split.
    + cbn [foldM inline_results fold_left]. rewrite bind_run, Hrun, Hrun2.
      now rewrite Hup.
    + split; [|split; congruence].
      rewrite Hup2, Hup. unfold uploads_after. cbn [List.filter].
      destruct (valid_url url); cbn [length]; lia.
Qed.

Lemma failed_migrations_bounds E alt urls : forall n,
  length (List.filter (fun url => negb (valid_url url)) urls)
    <= failed_migrations (inline_results E alt n urls)
  /\ failed_migrations (inline_results E alt n urls) <= length urls.
Proof.
  unfold failed_migrations.
  induction urls as [|url urls IH]; intros n; [cbn; lia|].
  cbn [inline_results List.filter length].
  specialize (IH (uploads_after n url)).
  destruct (valid_url url) eqn:Hv; cbn [negb].
  - destruct (is_failed (url, migrate_result E alt n url)); cbn [length]; lia.
  - assert (Hf : is_failed (url, migrate_result E alt n url) = true).
    { unfold is_failed, migrate_result. cbn [snd]. now rewrite Hv. }
    rewrite Hf. cbn [length]. lia.
Qed.

(** X7.  Converting the content of a post requests exactly one upload for
    each image element whose URL starts with [http], repeated URLs
    included, and touches neither the store nor the counters of the
    caller; when it returns, the number of failed images it reports lies
    between the number of URLs that were not sent and the number of image
    elements. *)
Theorem one_upload_for_each_http_image (E : Env) (html title : string)
  (c : Importer.Counters) (w : World) :
  uploads (world_of (Importer.convertContentToMarkdown E html title c w)) =
    uploads w + length (List.filter valid_url (Regex.extract_image_urls html))
  /\ db (world_of (Importer.convertContentToMarkdown E html title c w)) = db w
  /\ locals_of (Importer.convertContentToMarkdown E html title c w) = c
  /\ forall markdown imagesFailed,
       result_of (Importer.convertContentToMarkdown E html title c w) =
         Ok (markdown, imagesFailed) ->
       length (List.filter (fun url => negb (valid_url url))
                 (Regex.extract_image_urls html)) <= imagesFailed
       /\ imagesFailed <= length (Regex.extract_image_urls html).
Proof.
  unfold Importer.convertContentToMarkdown.
  set (urls := Regex.extract_image_urls html).
  destruct (inline_loop_uploads E title urls ([], 0) c w)
    as (w1 & Hrun & Hup & Hdb & _).
  rewrite bind_run, Hrun.
  pose proof (apply_results_failed (inline_results E title (uploads w) urls)
                ([], 0)) as Hfailed.
  pose proof (failed_migrations_bounds E title urls (uploads w)) as Hbounds.
  destruct (fold_left apply_result _ _) as [imageMapping imagesFailed].
  cbn [snd] in Hfailed.
  rewrite bind_run, replace_loop_run.
  destruct (replace_urls E imageMapping html) as [updatedHtml|e].
  - rewrite bind_run. unfold turndown_call, traced.
    destruct (turndown E updatedHtml) as [markdown|e];
      cbn [world_of locals_of result_of fst snd emit uploads db ret];
      (split; [exact Hup|]); (split; [exact Hdb|]);
      (split; [reflexivity|]); intros md n [= ]; subst; lia.
  - cbn [world_of locals_of result_of fst snd].
    split; [exact Hup|]. split; [exact Hdb|]. split; [reflexivity|].
    intros md n [= ].
Qed.

(** *** What a run accounts for *)

Lemma import_post_accounts E total i post c w n :
  accounts_for n c ->
  exists c' w',
    Importer.import_post E total i post c w = (Ok tt, c', w')
    /\ accounts_for (S n) c'.
Proof.
  intros [Hn Hle].
  pose proof (import_post_run E total i post c w) as Hrun.
  pose proof (import_attempt_effect E post c
    (emit (Console (Processing (i + 1) total (Importer.title post))) w)) as H.
  destruct (Importer.import_attempt E post c _) as [[[[]|error] c1] w1];
    cbn in H.
  - destruct Hrun as [Hrun _]. exists c1, w1. split; [exact Hrun|].
    unfold accounts_for, processed in *.
    destruct H as [-> | [-> | ->]]; cbn; lia.
  - eexists _, _. split; [exact Hrun|].
    unfold accounts_for, processed in *. cbn. lia.
Qed.

Lemma import_loop_accounts E total posts : forall i c w n,
  accounts_for n c ->
  exists c' w',
    forM_indexed (Importer.import_post E total) i posts c w = (Ok tt, c', w')
    /\ accounts_for (n + length posts) c'.
Proof.
  induction posts as [|post posts IH]; intros i c w n Hc.
  - exists c, w. split; [reflexivity|]. cbn [length]. now rewrite Nat.add_0_r.
  - destruct (import_post_accounts E total i post c w n Hc)
      as (c1 & w1 & Hrun & Hc1).
    destruct (IH (S i) c1 w1 (S n) Hc1) as (c2 & w2 & Hrun2 & Hc2).
    exists c2, w2. split.
    + cbn [forM_indexed]. now rewrite bind_run, Hrun.
    + cbn [length]. now rewrite Nat.add_succ_r.
Qed.

Lemma importPosts_accounts E posts c w :
  exists c' w',
    Importer.importPosts E posts c w = (Ok tt, c', w')
    /\ accounts_for (length posts) c'.
Proof.
  unfold Importer.importPosts.
  rewrite bind_run. unfold log at 1. rewrite bind_run. unfold update at 1.
  destruct (import_loop_accounts E (length posts) posts 0 Importer.no_counts
              (emit (Console (ImportHeader (isDryRun E))) w) 0)
    as (c' & w' & Hrun & Hc); [split; cbn; lia|].
  rewrite bind_run, Hrun. exists c'.
  unfold bind, read, log, when.
  destruct (0 <? Importer.imageFailCount c')%nat; eexists;
    (split; [reflexivity | exact Hc]).
Qed.

(** [main] up to the end of the parse. *)
Lemma main_after_parse E items c w :
  Importer.main E items c w =
  match map (Importer.to_post (build_attachments items))
          (List.filter eligible items)
  with
  | [] => log NoPostsToMigrate
  | post :: rest =>
      bind (when (negb (isDryRun E))
              (bind (log (AboutToImport (length (post :: rest)))) (fun _ =>
               bind (log ImagesWillBeUploaded) (fun _ =>
               bind (log PressEnterToContinue) (fun _ =>
               traced AwaitEnter (Ok tt))))))
        (fun _ =>
           bind (Importer.importPosts E (post :: rest)) (fun _ =>
           log (RunComplete (isDryRun E))))
  end c (emits (parse_events E items) w).
Proof.
  unfold Importer.main, parse_events.
  rewrite bind_run. unfold log at 1. rewrite bind_run.
  assert (Hwhen : forall w0,
            when (isDryRun E) (log DryRunNotice) c w0 =
            (Ok tt, c,
             emits (if isDryRun E then [Console DryRunNotice] else []) w0)).
  { intros w0. destruct (isDryRun E); cbn [when].
    - unfold log. now rewrite emit_emits.
    - unfold ret. now rewrite emits_nil. }
  rewrite Hwhen, bind_run, parseWordPressXML_run.
  rewrite emit_emits, !emits_emits.
  destruct (map _ _); reflexivity.
Qed.

(** On items whose category elements all have attributes, [main] returns
    normally, and its counters account for every published post. *)
Lemma main_accounts (E : Env) (items : list WpItem) (w : World) :
  exists c' w',
    Importer.main E items Importer.no_counts w = (Ok tt, c', w')
    /\ Importer.successCount c' + Importer.skipCount c'
       + Importer.failCount c' = length (List.filter eligible items)
    /\ Importer.imageFailCount c' <= Importer.successCount c'.
Proof.
  rewrite main_after_parse.
  set (w0 := emits (parse_events E items) w).
  rewrite <- (length_map (Importer.to_post (build_attachments items))
                (List.filter eligible items)).
  destruct (map _ _) as [|post rest].
  - exists Importer.no_counts. eexists. split; [reflexivity|]. cbn. lia.
  - set (posts := post :: rest).
    rewrite bind_run.
    assert (Hwait : exists w1,
              when (negb (isDryRun E))
                (bind (log (AboutToImport (length posts))) (fun _ =>
                 bind (log ImagesWillBeUploaded) (fun _ =>
                 bind (log PressEnterToContinue) (fun _ =>
                 traced AwaitEnter (Ok tt))))) Importer.no_counts w0 =
              (Ok tt, Importer.no_counts, w1)).
    { destruct (isDryRun E); cbn [negb when]; eexists; reflexivity. }
    destruct Hwait as [w1 ->].
    destruct (importPosts_accounts E posts Importer.no_counts w1)
      as (c' & w' & Hrun & Hn & Hle).
    rewrite bind_run, Hrun. exists c'. eexists.
    split; [reflexivity|]. split; [exact Hn | exact Hle].
Qed.

(** X9.  An export without a published post: [main] prints what the parse
    found and that there is nothing to migrate, and stops; it sends no
    request to the store, awaits no key and leaves the counters alone. *)
Theorem export_without_published_posts (E : Env) (items : list WpItem)
  (c : Importer.Counters) (w : World) :
  List.filter eligible items = [] ->
  Importer.main E items c w =
    (Ok tt, c,
     emits (parse_events E items ++ [Console NoPostsToMigrate]) w).
Proof.
  intros H. rewrite main_after_parse, H. cbn [map].
  unfold log. now rewrite emit_emits, emits_emits.
Qed.

Lemma export_without_published_posts_witness :
  Importer.main (Sample.working (fun _ => "ID") false)
    [Sample.page_item; Sample.post_item "Notes" "notes" "draft" "<p>x</p>" []]
    Importer.no_counts (Sample.start Sample.empty_db) =
    (Ok tt, Importer.no_counts,
     emits
       [Console StartingMigration; Console ReadingExport; Console ParsingXml;
        Console (FoundItems 2); Console (FoundAttachments 0);
        Console (SkippingNonPublished "Notes"); Console (FoundPosts 0);
        Console NoPostsToMigrate]
       (Sample.start Sample.empty_db)).
Proof.
  apply (export_without_published_posts (Sample.working (fun _ => "ID") false)
           [Sample.page_item;
            Sample.post_item "Notes" "notes" "draft" "<p>x</p>" []]
           Importer.no_counts (Sample.start Sample.empty_db)).
  reflexivity.
Defined.

(** *** What a run keeps of the store *)

Lemma grows_from_refl d : grows_from d d.
Proof.
  split; [exists []; now rewrite app_nil_r|].
  split; [exists []; now rewrite app_nil_r | lia].
Qed.

Lemma posts_create_grows d0 args : handler_keeps (grows_from d0) (posts_create args).
Proof.
  intros d now ([ps Hp] & Hc & Hn). unfold posts_create.
  destruct (first_post_by_slug d (a_slug args)); cbn [snd].
  - split; [eauto | split; [exact Hc | exact Hn]].
  - unfold insert_post. cbn [snd]. unfold grows_from.
    cbn [posts categories nextId].
    split; [|split; [exact Hc | lia]].
    eexists. rewrite Hp, <- app_assoc. reflexivity.
Qed.

Lemma categories_create_grows d0 name slug description :
  handler_keeps (grows_from d0) (categories_create name slug description).
Proof.
  intros d now (Hp & [cs Hc] & Hn). unfold categories_create.
  destruct (first_category_by_slug d slug); cbn [snd].
  - split; [exact Hp | split; [eauto | exact Hn]].
  - unfold grows_from. cbn [posts categories nextId].
    split; [exact Hp|]. split; [|lia].
    eexists. rewrite Hc, <- app_assoc. reflexivity.
Qed.

Lemma first_category_by_slug_none d s :
  first_category_by_slug d s = None -> ~ In s (category_slugs d).
Proof.
  unfold first_category_by_slug, category_slugs.
  induction (categories d) as [|x xs IH]; cbn; [tauto|].
  destruct (String.eqb (c_slug x) s) eqn:Heq; [discriminate|].
  apply String.eqb_neq in Heq. intros H [H1 | H1]; [contradiction|].
  now apply IH.
Qed.

Lemma posts_create_category_slugs args :
  handler_keeps unique_category_slugs (posts_create args).
Proof.
  intros d now H. unfold posts_create.
  now destruct (first_post_by_slug d (a_slug args)).
Qed.

Lemma categories_create_category_slugs name slug description :
  handler_keeps unique_category_slugs (categories_create name slug description).
Proof.
  intros d now H. unfold categories_create.
  destruct (first_category_by_slug d slug) eqn:Hf; [exact H|].
  apply first_category_by_slug_none in Hf.
  unfold unique_category_slugs, category_slugs in *. cbn.
  rewrite map_app. cbn. now apply NoDup_snoc.
Qed.

(** [main] maintains what the two create mutations maintain. *)
Lemma main_keeps (P : Db -> Prop) E items :
  (forall args, handler_keeps P (posts_create args)) ->
  (forall name slug description,
     handler_keeps P (categories_create name slug description)) ->
  keeps_db P (Importer.main E items).
Proof.
  intros Hposts Hcats. unfold Importer.main, Importer.parseWordPressXML,
    Importer.extract_post.
  keeps_db_tac.
  apply importer_importPosts_keeps; assumption.
Qed.

(** X10.  A run of the importer never removes, reorders or changes a
    stored post or category: after [main], both tables begin with what
    they held before, and what the run created comes after. *)
Theorem importer_only_appends (E : Env) (items : list WpItem)
  (c : Importer.Counters) (w : World) :
  (exists added,
     posts (db (world_of (Importer.main E items c w))) =
       posts (db w) ++ added)
  /\ (exists added,
        categories (db (world_of (Importer.main E items c w))) =
          categories (db w) ++ added).
Proof.
  destruct (main_keeps (grows_from (db w)) E items
              (posts_create_grows (db w)) (categories_create_grows (db w))
              c w (grows_from_refl (db w))) as (Hp & Hc & _).
  now split.
Qed.

(** X11.  A store whose post slugs are pairwise distinct and whose
    category slugs are pairwise distinct is again such a store after a run
    of the importer, whatever fails during the run. *)
Theorem importer_keeps_slugs_distinct (E : Env) (items : list WpItem)
  (c : Importer.Counters) (w : World) :
  NoDup (post_slugs (db w)) ->
  NoDup (category_slugs (db w)) ->
  NoDup (post_slugs (db (world_of (Importer.main E items c w))))
  /\ NoDup (category_slugs (db (world_of (Importer.main E items c w)))).
Proof.
  intros Hp Hc. split.
  - apply (main_keeps unique_slugs E items); [| |exact Hp].
    + apply posts_create_unique.
    + apply categories_create_unique.
  - apply (main_keeps unique_category_slugs E items); [| |exact Hc].
    + apply posts_create_category_slugs.
    + apply categories_create_category_slugs.
Qed.

Lemma importer_keeps_slugs_distinct_witness :
  let run :=
    Importer.main (Sample.working (fun _ => "ID") false)
      [Sample.post_item "Hello" "hello" "publish" "<p>Hi</p>" [];
       Sample.post_item "Hello again" "hello" "publish" "<p>Hi</p>" []]
      Importer.no_counts (Sample.start Sample.empty_db) in
  NoDup (post_slugs (db (world_of run)))
  /\ NoDup (category_slugs (db (world_of run))).
Proof.
  apply (importer_keeps_slugs_distinct (Sample.working (fun _ => "ID") false)
           [Sample.post_item "Hello" "hello" "publish" "<p>Hi</p>" [];
            Sample.post_item "Hello again" "hello" "publish" "<p>Hi</p>" []]
           Importer.no_counts (Sample.start Sample.empty_db));
    apply NoDup_nil; exact I.
Defined.

(** *** A second run *)

Lemma import_post_existing E total i post c w existing :
  transport E (requests w) = None ->
  first_post_by_slug (db w) (Importer.slug post) = Some existing ->
  Importer.import_post E total i post c w =
    (Ok tt, Importer.incr_skip c,
     {| db := db w; clock := clock w; requests := S (requests w);
        uploads := uploads w;
        trace := trace w ++
          [Console (Processing (i + 1) total (Importer.title post));
           QueryPostsGetBySlug (Importer.slug post);
           Console AlreadyExists] |}).
Proof.
  intros Ht Hf.
  unfold Importer.import_post, Importer.import_attempt, bind, try_catch,
    log, update, convex_call, posts_getBySlug, emit.
  cbn [db clock requests uploads trace]. rewrite Ht, Hf.
  cbn [db clock requests uploads trace]. now rewrite <- !app_assoc.
Qed.

Lemma skip_loop E total posts : forall i c w,
  store_reachable E ->
  (forall post, In post posts -> In (Importer.slug post) (post_slugs (db w))) ->
  exists w',
    forM_indexed (Importer.import_post E total) i posts c w =
      (Ok tt, skipped_more (length posts) c, w')
    /\ quiet w w'.
Proof.
  induction posts as [|post posts IH]; intros i c w Ht Hin.
  - exists w. split; [|apply quiet_refl]. destruct c. reflexivity.
  - destruct (first_post_by_slug_in (db w) (Importer.slug post))
      as [existing Hf]; [apply Hin; now left|].
    pose proof (import_post_existing E total i post c w existing (Ht _) Hf)
      as Hrun.
    match type of Hrun with _ = (_, _, ?w1) =>
      destruct (IH (S i) (Importer.incr_skip c) w1 Ht) as (w' & Hloop & Hq)
    end.
    { intros p Hp. cbn [db]. apply Hin. now right. }
    exists w'. split.
    + cbn [forM_indexed]. rewrite bind_run, Hrun, Hloop.
      unfold skipped_more, Importer.incr_skip.
      cbn [Importer.successCount Importer.skipCount Importer.failCount
           Importer.imageFailCount length].
      now rewrite Nat.add_succ_r.
    + eapply quiet_trans; [|exact Hq].
      split; try reflexivity. eexists. split; [reflexivity|]. reflexivity.
Qed.

(** X12.  Running the importer again is safe: when the store answers and
    already has a post under the slug of every post of the list,
    [importPosts] skips them all; it counts as many skips as there are
    posts, converts nothing, uploads nothing and sends no mutation, and
    the store is as it was. *)
Theorem second_run_skips_every_post (E : Env)
  (posts : list Importer.WordPressPost) (c : Importer.Counters) (w : World) :
  (forall n, transport E n = None) ->
  (forall post, In post posts -> In (Importer.slug post) (post_slugs (db w))) ->
  exists w',
    Importer.importPosts E posts c w =
      (Ok tt,
       {| Importer.successCount := 0; Importer.skipCount := length posts;
          Importer.failCount := 0; Importer.imageFailCount := 0 |},
       w')
    /\ db w' = db w
    /\ uploads w' = uploads w
    /\ exists evs, trace w' = trace w ++ evs /\ forallb read_only evs = true.
Proof.
  intros Ht Hin. unfold Importer.importPosts.
  rewrite bind_run. unfold log at 1. rewrite bind_run. unfold update at 1.
  destruct (skip_loop E (length posts) posts 0 Importer.no_counts
              (emit (Console (ImportHeader (isDryRun E))) w) Ht)
    as (w1 & Hloop & Hq); [exact Hin|].
  rewrite bind_run, Hloop.
  unfold skipped_more. cbn [Importer.successCount Importer.skipCount
    Importer.failCount Importer.imageFailCount Importer.no_counts].
  rewrite Nat.add_0_r.
  unfold bind, read, log, when. cbn [Importer.imageFailCount Nat.ltb Nat.leb].
  eexists. split; [reflexivity|].
  assert (Hall : quiet w
            (emit (Console (SummaryFailed 0))
               (emit (Console (SummarySkipped (length posts)))
                  (emit (Console (SummarySuccessful 0))
                     (emit (Console (MigrationDone (isDryRun E))) w1))))).
  { eapply quiet_trans; [now apply (quiet_emit (Console (ImportHeader (isDryRun E))))|].
    eapply quiet_trans; [exact Hq|].
    repeat (eapply quiet_trans; [|now apply quiet_emit]).
    apply quiet_refl. }
  destruct Hall as [Hdb Hup _ Htrace]. now repeat split.
Qed.

Lemma second_run_skips_every_post_witness :
  exists w',
    Importer.importPosts (Sample.working (fun _ => "ID") false)
      [post_with_slug "hello"] Importer.no_counts
      (Sample.start (Sample.db_with (Sample.stored_post 0 "hello" None))) =
      (Ok tt,
       {| Importer.successCount := 0; Importer.skipCount := 1;
          Importer.failCount := 0; Importer.imageFailCount := 0 |},
       w')
    /\ db w' = Sample.db_with (Sample.stored_post 0 "hello" None)
    /\ uploads w' = 0
    /\ exists evs, trace w' = [] ++ evs /\ forallb read_only evs = true.
Proof.
  apply (second_run_skips_every_post (Sample.working (fun _ => "ID") false)
           [post_with_slug "hello"] Importer.no_counts
           (Sample.start (Sample.db_with (Sample.stored_post 0 "hello" None)))).
  - intros n. reflexivity.
  - intros post [<- | []]. now left.
Defined.

End ImporterRuns.

(* ===================================================================== *)
(** ** The importer on an export with category elements of both kinds *)
(* ===================================================================== *)

Module RawRuns.
Import Str Convex Runtime Wxr Cloudflare RawExport.
Import RunFacts ConvexFacts ImporterFacts ImporterRuns.
Import RegexSpec RunSpec ConvexSpec ImporterSpec FixSpec PipelineSpec SlugLawsSpec ImageUrlsSpec ImporterRunsSpec RawRunsSpec.

Lemma filter_by_domain_elements cats :
  forallb has_attributes cats = true ->
  filter_by_domain cats =
    Ok (List.filter (fun c => String.eqb (cat_domain c) "category")
          (elements cats)).
Proof.
  induction cats as [|[c|text] cats IH]; cbn [forallb has_attributes andb];
    [reflexivity | | discriminate].
  intros H. cbn [filter_by_domain]. rewrite (IH H).
  cbn [elements flat_map app List.filter].
  fold (elements cats).
  now destruct (String.eqb (cat_domain c) "category").
Qed.

Lemma filter_by_domain_text cats :
  forallb has_attributes cats = false ->
  filter_by_domain cats = Throw no_attributes.
Proof.
  induction cats as [|[c|text] cats IH]; cbn [forallb has_attributes andb];
    [discriminate | | reflexivity].
  intros H. cbn [filter_by_domain]. now rewrite (IH H).
Qed.

Lemma categories_of_attributed item :
  attributed item = true ->
  RawExport.categories_of item = Ok (Wxr.categories_of (as_item item)).
Proof.
  unfold attributed, RawExport.categories_of, Wxr.categories_of, as_item.
  cbn [category]. destruct (r_category item) as [cats|]; [|reflexivity].
  intros H. now rewrite (filter_by_domain_elements cats H).
Qed.

Lemma categories_of_text item :
  attributed item = false ->
  RawExport.categories_of item = Throw no_attributes.
Proof.
  unfold attributed, RawExport.categories_of.
  destruct (r_category item) as [cats|]; [|discriminate].
  intros H. now rewrite (filter_by_domain_text cats H).
Qed.

(** On an item whose categories are read without error, the loop body is
    the one on the item of module [Wxr]. *)
Lemma extract_post_agrees {L} attachments posts item (l : L) w :
  (is_published item = true -> attributed item = true) ->
  RawExport.extract_post attachments posts item l w =
    Importer.extract_post attachments posts (as_item item) l w.
Proof.
  unfold is_published, eligible, RawExport.extract_post, Importer.extract_post.
  cbn [as_item wp_post_type wp_status item_title].
  destruct (is_text (r_post_type item) "post"); cbn [negb andb]; [|reflexivity].
  destruct (is_text (r_status item) "publish"); cbn [negb]; [|reflexivity].
  intros H. rewrite bind_run. unfold lift.
  rewrite (categories_of_attributed item (H eq_refl)). reflexivity.
Qed.

Lemma extract_loop_agrees {L} attachments items : forall posts (l : L) w,
  (forall item, In item items -> is_published item = true ->
                attributed item = true) ->
  foldM (RawExport.extract_post attachments) items posts l w =
    foldM (Importer.extract_post attachments) (map as_item items) posts l w.
Proof.
  induction items as [|item items IH]; intros posts l w H; [reflexivity|].
  cbn [foldM map]. rewrite !bind_run.
  rewrite extract_post_agrees by (apply H; now left).
  destruct (Importer.extract_post attachments posts (as_item item) l w)
    as [[[posts'|e] l'] w']; [|reflexivity].
  apply IH. intros item' Hin. apply H. now right.
Qed.

Lemma parse_agrees {L} items (l : L) w :
  (forall item, In item items -> is_published item = true ->
                attributed item = true) ->
  RawExport.parseWordPressXML items l w =
    Importer.parseWordPressXML (map as_item items) l w.
Proof.
  intros H.
  unfold RawExport.parseWordPressXML, Importer.parseWordPressXML.
  cbv zeta. unfold bind, log. rewrite length_map.
  now rewrite (extract_loop_agrees _ items [] l _ H).
Qed.

Lemma bind_same {L A B} (m : M L A) (k1 k2 : A -> M L B) l w :
  (forall a l' w', k1 a l' w' = k2 a l' w') ->
  bind m k1 l w = bind m k2 l w.
Proof.
  intros H. unfold bind. destruct (m l w) as [[[a|e] l'] w']; [apply H|].
  reflexivity.
Qed.

Lemma main_agrees E items c w :
  (forall item, In item items -> is_published item = true ->
                attributed item = true) ->
  RawExport.main E items c w = Importer.main E (map as_item items) c w.
Proof.
  intros H. unfold RawExport.main, Importer.main.
  apply bind_same. intros _ c1 w1.
  apply bind_same. intros _ c2 w2.
  rewrite !bind_run. now rewrite (parse_agrees items c2 w2 H).
Qed.

(** The loop body on a is_published post one of whose category elements has
    no attributes. *)
Lemma extract_post_throws {L} attachments posts item (l : L) w :
  is_published item = true -> attributed item = false ->
  RawExport.extract_post attachments posts item l w =
    (Throw no_attributes, l, w).
Proof.
  unfold is_published, eligible, RawExport.extract_post.
  cbn [as_item wp_post_type wp_status].
  intros Hp Ha. apply andb_true_iff in Hp. destruct Hp as [-> ->].
  cbn [negb]. rewrite bind_run. unfold lift.
  now rewrite (categories_of_text item Ha).
Qed.

Lemma extract_post_prints {L} attachments posts item (l : L) w :
  exists r evs,
    RawExport.extract_post attachments posts item l w = (r, l, emits evs w).
Proof.
  unfold RawExport.extract_post.
  destruct (is_text (r_post_type item) "post"); cbn [negb].
  - destruct (is_text (r_status item) "publish"); cbn [negb].
    + rewrite bind_run. unfold lift.
      destruct (RawExport.categories_of item);
        do 2 eexists; now rewrite <- (emits_nil w) at 1.
    + do 2 eexists. unfold bind, log, ret. now rewrite emit_emits.
  - do 2 eexists. unfold ret. now rewrite <- (emits_nil w) at 1.
Qed.

Lemma extract_loop_throws {L} attachments items : forall posts (l : L) w,
  (exists item,
     In item items /\ is_published item = true /\ attributed item = false) ->
  exists evs,
    foldM (RawExport.extract_post attachments) items posts l w =
      (Throw no_attributes, l, emits evs w).
Proof.
  induction items as [|item items IH]; intros posts l w (bad & Hin & Hp & Ha);
    [destruct Hin|].
  cbn [foldM]. rewrite bind_run.
  destruct (is_published item && negb (attributed item)) eqn:Hbad.
  - apply andb_true_iff in Hbad. destruct Hbad as [Hp' Ha'].
    apply negb_true_iff in Ha'.
    rewrite (extract_post_throws attachments posts item l w Hp' Ha').
    exists []. now rewrite emits_nil.
  - assert (Hok : is_published item = true -> attributed item = true).
    { intros H. rewrite H in Hbad. cbn [andb] in Hbad.
      now apply negb_false_iff in Hbad. }
    destruct Hin as [-> | Hin].
    { rewrite (Hok Hp) in Ha. discriminate Ha. }
    destruct (extract_post_prints attachments posts item l w)
      as (r & evs & Hrun).
    rewrite Hrun. destruct r as [posts'|e].
    + destruct (IH posts' l (emits evs w)) as [evs' Hloop];
        [now exists bad|].
      exists (evs ++ evs'). now rewrite Hloop, emits_emits.
    + rewrite extract_post_agrees in Hrun by exact Hok.
      unfold Importer.extract_post in Hrun.
      destruct (negb (is_text (wp_post_type (as_item item)) "post"));
        [discriminate Hrun|].
      destruct (negb (is_text (wp_status (as_item item)) "publish"));
        discriminate Hrun.
Qed.

(** X8.  On an export in which the category elements of the is_published
    posts have attributes, [main] returns normally whatever the store,
    the image store and the converter do, and its counters account for
    every is_published post of the export: each one was counted once as
    successful, skipped or failed, and an image failure is only counted
    for a post that was counted as successful.  When a is_published post
    has a category element without attributes, [main] throws while it
    parses: it has sent no request, uploaded nothing and counted
    nothing. *)
Theorem main_accounts_for_every_published_post (E : Env)
  (items : list RawItem) (w : World) :
  ((forall item,
      In item items -> is_published item = true -> attributed item = true) ->
   exists c' w',
     RawExport.main E items Importer.no_counts w = (Ok tt, c', w')
     /\ Importer.successCount c' + Importer.skipCount c'
        + Importer.failCount c' = length (List.filter is_published items)
     /\ Importer.imageFailCount c' <= Importer.successCount c')
  /\ ((exists item,
         In item items /\ is_published item = true /\ attributed item = false) ->
      exists w',
        RawExport.main E items Importer.no_counts w =
          (Throw no_attributes, Importer.no_counts, w')
        /\ db w' = db w /\ requests w' = requests w
        /\ uploads w' = uploads w).
Proof.
  split.
  - intros H. rewrite (main_agrees E items Importer.no_counts w H).
    destruct (main_accounts E (map as_item items) w)
      as (c' & w' & Hrun & Hcount & Hle).
    exists c', w'. split; [exact Hrun|]. split; [|exact Hle].
    rewrite Hcount. unfold is_published.
    clear. induction items as [|item items IH]; [reflexivity|].
    cbn [map List.filter]. destruct (eligible (as_item item)); cbn [length];
      now rewrite IH.
  - intros Hbad. unfold RawExport.main, RawExport.parseWordPressXML.
    cbv zeta.
    set (attachments := build_attachments (map as_item items)).
    rewrite bind_run. unfold log at 1. rewrite bind_run.
    assert (Hwhen : forall w0,
              when (isDryRun E) (log DryRunNotice) Importer.no_counts w0 =
              (Ok tt, Importer.no_counts,
               emits (if isDryRun E then [Console DryRunNotice] else []) w0)).
    { intros w0. destruct (isDryRun E); cbn [when].
      - unfold log. now rewrite emit_emits.
      - unfold ret. now rewrite emits_nil. }
    rewrite Hwhen.
    rewrite bind_run, bind_run. unfold log at 1.
    rewrite bind_run. unfold log at 1.
    rewrite bind_run. unfold log at 1.
    rewrite bind_run. unfold log at 1.
    rewrite bind_run.
    rewrite !emit_emits, !emits_emits.
    match goal with
    | |- context [foldM (RawExport.extract_post attachments) items [] ?l ?w0] =>
        destruct (extract_loop_throws attachments items [] l w0 Hbad)
          as [evs Hloop]
    end.
    rewrite Hloop, emits_emits. eexists. split; [reflexivity|].
    now cbn.
Qed.

Lemma main_accounts_for_every_published_post_witness :
  (exists c' w',
     RawExport.main Sample.images_down plain_export Importer.no_counts (Sample.start Sample.empty_db)
       = (Ok tt, c', w')
     /\ Importer.successCount c' + Importer.skipCount c'
        + Importer.failCount c' = 1
     /\ Importer.imageFailCount c' <= Importer.successCount c')
  /\ exists w',
       RawExport.main Sample.images_down bare_export Importer.no_counts (Sample.start Sample.empty_db)
         = (Throw no_attributes, Importer.no_counts, w')
       /\ db w' = db (Sample.start Sample.empty_db) /\ requests w' = requests (Sample.start Sample.empty_db)
       /\ uploads w' = uploads (Sample.start Sample.empty_db).
Proof.
  destruct (main_accounts_for_every_published_post
              Sample.images_down plain_export (Sample.start Sample.empty_db)) as [Hgood _].
  destruct (main_accounts_for_every_published_post
              Sample.images_down bare_export (Sample.start Sample.empty_db)) as [_ Hthrows].
  split.
  - apply Hgood. intros item [<- | []] _. reflexivity.
  - apply Hthrows. exists (raw_post "Hello" "hello" [news_element; Text "Misc"]).
    split; [now left|]. split; reflexivity.
Defined.

End RawRuns.

(* ===================================================================== *)
(** ** Laws of the content store *)
(* ===================================================================== *)

Module StoreLaws.
Import Str Convex ConvexAdmin StoreMachine Runtime RunFacts ConvexFacts.
Import ImporterRuns.
Import RegexSpec RunSpec ConvexSpec ImporterSpec FixSpec PipelineSpec SlugLawsSpec ImageUrlsSpec ImporterRunsSpec RawRunsSpec StoreLawsSpec.

(** *** Lists without repetition *)

Lemma NoDup_cons_In {A} (x : A) l : NoDup (x :: l) <-> ~ In x l /\ NoDup l.
Proof. rewrite NoDup_cons, list_elem_of_In. reflexivity. Qed.

Lemma in_map_filter {A B} (g : A -> B) (f : A -> bool) l y :
  In y (map g (List.filter f l)) -> In y (map g l).
Proof.
  intros H. apply in_map_iff in H. destruct H as (x & <- & Hx).
  apply filter_In in Hx. apply in_map, Hx.
Qed.

Lemma NoDup_map_filter {A B} (g : A -> B) (f : A -> bool) l :
  NoDup (map g l) -> NoDup (map g (List.filter f l)).
Proof.
  induction l as [|x l IH]; cbn [map List.filter]; [trivial|].
  intros H. apply NoDup_cons_In in H. destruct H as [Hx Hl].
  destruct (f x); [|now apply IH].
  cbn [map]. apply NoDup_cons_In. split; [|now apply IH].
  intros Hin. apply Hx. now apply in_map_filter in Hin.
Qed.

(** One element of a list is replaced, found by a key that no other
    element has; its label changes to one that is its old label or new to
    the list.  Then the labels stay pairwise distinct. *)
Section PatchOne.
Context {A : Type} (key : A -> nat) (label : A -> string) (f : A -> A)
  (id : nat).

Lemma patch_list_other l :
  ~ In id (map key l) -> patch_list key f id l = l.
Proof.
  induction l as [|x l IH]; cbn [patch_list map]; [reflexivity|].
  intros H. destruct (Nat.eqb (key x) id) eqn:Hk.
  - apply Nat.eqb_eq in Hk. exfalso. apply H. now left.
  - f_equal. apply IH. intros Hin. apply H. now right.
Qed.

Lemma patch_list_labels l s' s :
  (forall x, In x l -> key x = id -> label (f x) = s') ->
  In s (map label (patch_list key f id l)) -> In s (map label l) \/ s = s'.
Proof.
  induction l as [|x l IH]; cbn [patch_list map]; [tauto|].
  intros Hf [H | H].
  - destruct (Nat.eqb (key x) id) eqn:Hk.
    + right. rewrite <- H. apply Hf; [now left | now apply Nat.eqb_eq].
    + left. now left.
  - destruct (IH (fun y Hy => Hf y (or_intror Hy)) H) as [H1 | H1];
      [left; now right | now right].
Qed.

Lemma patch_list_NoDup l x0 s' :
  NoDup (map key l) ->
  NoDup (map label l) ->
  find (fun x => Nat.eqb (key x) id) l = Some x0 ->
  (forall x, In x l -> key x = id -> label (f x) = s') ->
  s' = label x0 \/ ~ In s' (map label l) ->
  NoDup (map label (patch_list key f id l)).
Proof.
  induction l as [|x l IH]; [discriminate|].
  intros Hkeys Hlabels Hfind Hf Hs.
  cbn [map] in Hkeys, Hlabels.
  apply NoDup_cons_In in Hkeys. destruct Hkeys as [Hkx Hkl].
  apply NoDup_cons_In in Hlabels. destruct Hlabels as [Hlx Hll].
  cbn [find] in Hfind. cbn [patch_list map].
  destruct (Nat.eqb (key x) id) eqn:Hk.
  - apply Nat.eqb_eq in Hk. injection Hfind as <-.
    fold (patch_list key f id l). rewrite patch_list_other by now rewrite <- Hk.
    rewrite (Hf x) by (now left || exact Hk).
    apply NoDup_cons_In. split; [|exact Hll].
    destruct Hs as [Hs | Hs]; [rewrite Hs; exact Hlx|].
    intros Hin. apply Hs. now right.
  - fold (patch_list key f id l). apply NoDup_cons_In. split.
    + intros Hin.
      apply (patch_list_labels l s') in Hin;
        [|intros y Hy; apply Hf; now right].
      destruct Hin as [Hin | Heq]; [contradiction|].
      destruct Hs as [Hs | Hs].
      * apply Hlx. rewrite Heq, Hs. apply in_map.
        apply find_some in Hfind. apply Hfind.
      * apply Hs. rewrite <- Heq. now left.
    + apply (IH Hkl Hll Hfind); [intros y Hy; apply Hf; now right|].
      destruct Hs as [Hs | Hs]; [now left | right].
      intros Hin. apply Hs. now right.
Qed.

Lemma patch_list_keys l :
  (forall x, key (f x) = key x) -> map key (patch_list key f id l) = map key l.
Proof.
  intros Hf. unfold patch_list. rewrite map_map. apply map_ext.
  intros x. destruct (Nat.eqb (key x) id); [apply Hf | reflexivity].
Qed.

End PatchOne.

(** *** Lookups *)

Lemma get_post_in d id p : get_post d id = Some p -> In p (posts d) /\ p_id p = id.
Proof.
  unfold get_post. intros H. apply find_some in H.
  destruct H as [Hin Heq]. apply Nat.eqb_eq in Heq. now split.
Qed.

Lemma get_category_in d id c :
  get_category d id = Some c -> In c (categories d) /\ c_id c = id.
Proof.
  unfold get_category. intros H. apply find_some in H.
  destruct H as [Hin Heq]. apply Nat.eqb_eq in Heq. now split.
Qed.

Lemma first_category_by_slug_not_in d s :
  ~ In s (category_slugs d) -> first_category_by_slug d s = None.
Proof.
  unfold first_category_by_slug, category_slugs.
  induction (categories d) as [|x xs IH]; cbn; [reflexivity|].
  intros H. destruct (String.eqb (c_slug x) s) eqn:Heq.
  - apply String.eqb_eq in Heq. exfalso. apply H. now left.
  - apply IH. intros Hin. apply H. now right.
Qed.



Lemma find_filter_other {A} (key : A -> nat) id other l :
  find (fun x => Nat.eqb (key x) other)
    (List.filter (fun x => negb (Nat.eqb (key x) id)) l) =
    if Nat.eqb other id then None
    else find (fun x => Nat.eqb (key x) other) l.
Proof.
  induction l as [|x l IH]; cbn [List.filter find].
  - now destruct (Nat.eqb other id).
  - destruct (Nat.eqb (key x) id) eqn:Hk; cbn [negb find].
    + rewrite IH. destruct (Nat.eqb other id) eqn:Ho; [reflexivity|].
      destruct (Nat.eqb (key x) other) eqn:Hx; [|reflexivity].
      apply Nat.eqb_eq in Hk, Hx. subst. now rewrite Nat.eqb_refl in Ho.
    + rewrite IH. destruct (Nat.eqb (key x) other) eqn:Hx; [|reflexivity].
      apply Nat.eqb_eq in Hx. subst other. now rewrite Hk.
Qed.

(** *** The invariant, mutation by mutation *)

Lemma patch_post_as_list id f d :
  posts (patch_post id f d) = patch_list p_id f id (posts d).
Proof. reflexivity. Qed.

Lemma patch_category_as_list id f d :
  categories (patch_category id f d) = patch_list c_id f id (categories d).
Proof. reflexivity. Qed.

(** A patch of one post that keeps its id and its slug keeps all of the
    invariant but the dates. *)
Lemma patch_post_well_formed id f d :
  (forall p, p_id (f p) = p_id p) ->
  (forall p, p_slug (f p) = p_slug p) ->
  (forall p, dated p -> dated (f p)) ->
  well_formed d -> well_formed (patch_post id f d).
Proof.
  intros Hid Hslug Hdated [Hbelow Hpi Hci Hps Hcs Hd].
  assert (Hids : post_ids (patch_post id f d) = post_ids d).
  { unfold post_ids. rewrite patch_post_as_list. now apply patch_list_keys. }
  assert (Hslugs : post_slugs (patch_post id f d) = post_slugs d).
  { unfold post_slugs. rewrite patch_post_as_list. unfold patch_list.
    rewrite map_map. apply map_ext. intros p.
    destruct (Nat.eqb (p_id p) id); [apply Hslug | reflexivity]. }
  split.
  - unfold ids_below. rewrite Hids. exact Hbelow.
  - now rewrite Hids.
  - exact Hci.
  - now rewrite Hslugs.
  - exact Hcs.
  - rewrite patch_post_as_list. unfold patch_list.
    apply List.Forall_forall. intros p Hp. apply in_map_iff in Hp.
    destruct Hp as (q & <- & Hq).
    pose proof (proj1 (List.Forall_forall dated (posts d)) Hd q Hq) as Hdq.
    destruct (Nat.eqb (p_id q) id); [now apply Hdated | exact Hdq].
Qed.

Lemma posts_create_well_formed args :
  handler_keeps well_formed (posts_create args).
Proof.
  intros d now [[Hbp Hbc] Hpi Hci Hps Hcs Hd]. unfold posts_create.
  destruct (first_post_by_slug d (a_slug args)) eqn:Hf; [now split|].
  apply first_post_by_slug_none in Hf. cbn [snd insert_post].
  split; unfold ids_below, post_ids, category_ids, post_slugs, category_slugs
    in *; cbn [posts categories nextId].
  - split.
    + intros id Hin. rewrite map_app in Hin. apply in_app_or in Hin.
      destruct Hin as [Hin | [<- | []]]; [apply Hbp in Hin; lia | cbn; lia].
    + intros id Hin. apply Hbc in Hin. lia.
  - rewrite map_app. cbn [map new_post p_id]. apply NoDup_snoc; [exact Hpi|].
    intros Hin. apply Hbp in Hin. lia.
  - exact Hci.
  - rewrite map_app. cbn [map new_post p_slug]. now apply NoDup_snoc.
  - exact Hcs.
  - apply Forall_app. split; [exact Hd|]. constructor; [|constructor].
    unfold dated, new_post. cbn [p_status p_publishedAt]. intros ->.
    cbn [status_eqb]. discriminate.
Qed.

Lemma updated_post_dated updates now p : dated (updated_post updates now p).
Proof.
  unfold dated, updated_post. cbn [p_status p_publishedAt]. intros ->.
  cbn [status_eqb andb].
  destruct (p_publishedAt p) as [[|t]|]; cbn [truthy_number negb];
    discriminate.
Qed.

Lemma published_post_dated now p : dated (published_post now p).
Proof.
  unfold dated, published_post. cbn [p_status p_publishedAt]. intros _.
  destruct (p_publishedAt p) as [[|t]|]; cbn [truthy_number]; discriminate.
Qed.

Lemma posts_update_well_formed id updates :
  handler_keeps well_formed (posts_update id updates).
Proof.
  intros d now Hwf. unfold posts_update.
  destruct (get_post d id) as [existing|] eqn:Hget; [|exact Hwf].
  destruct (negb (String.eqb (a_slug updates) (p_slug existing))
            && _) eqn:Htaken; [exact Hwf|].
  cbn [snd]. destruct Hwf as [Hbelow Hpi Hci Hps Hcs Hd].
  assert (Hids : post_ids (patch_post id (updated_post updates now) d) =
                 post_ids d).
  { unfold post_ids. rewrite patch_post_as_list. now apply patch_list_keys. }
  split.
  - unfold ids_below. rewrite Hids. exact Hbelow.
  - now rewrite Hids.
  - exact Hci.
  - unfold post_slugs. rewrite patch_post_as_list.
    apply (patch_list_NoDup p_id p_slug (updated_post updates now) id
             (posts d) existing (a_slug updates)); try assumption.
    + reflexivity.
    + apply andb_false_iff in Htaken. destruct Htaken as [Hsame | Hfree].
      * left. apply negb_false_iff, String.eqb_eq in Hsame. exact Hsame.
      * right. apply first_post_by_slug_none.
        now destruct (first_post_by_slug d (a_slug updates)).
  - exact Hcs.
  - rewrite patch_post_as_list. unfold patch_list.
    apply List.Forall_forall. intros p Hp. apply in_map_iff in Hp.
    destruct Hp as (q & <- & Hq).
    destruct (Nat.eqb (p_id q) id); [apply updated_post_dated|].
    exact (proj1 (List.Forall_forall dated (posts d)) Hd q Hq).
Qed.

Lemma posts_publish_well_formed id : handler_keeps well_formed (posts_publish id).
Proof.
  intros d now Hwf. unfold posts_publish.
  destruct (get_post d id) as [existing|]; [|exact Hwf]. cbn [snd].
  apply patch_post_well_formed; try reflexivity; [|exact Hwf].
  intros q _. apply published_post_dated.
Qed.

Lemma posts_updateFeaturedImage_well_formed id img :
  handler_keeps well_formed (posts_updateFeaturedImage id img).
Proof.
  intros d now Hwf. unfold posts_updateFeaturedImage.
  destruct (get_post d id) as [existing|]; [|exact Hwf]. cbn [snd].
  apply patch_post_well_formed; try reflexivity; [|exact Hwf].
  intros q Hq. exact Hq.
Qed.

Lemma posts_deletePost_well_formed id :
  handler_keeps well_formed (posts_deletePost id).
Proof.
  intros d now Hwf. unfold posts_deletePost.
  destruct (get_post d id) as [existing|]; [|exact Hwf]. cbn [snd].
  destruct Hwf as [[Hbp Hbc] Hpi Hci Hps Hcs Hd].
  split; unfold ids_below, post_ids, category_ids, post_slugs, category_slugs
    in *; cbn [delete_post posts categories nextId].
  - split; [|exact Hbc]. intros i Hi. apply Hbp. now apply in_map_filter in Hi.
  - now apply NoDup_map_filter.
  - exact Hci.
  - now apply NoDup_map_filter.
  - exact Hcs.
  - apply List.Forall_forall. intros p Hp. apply filter_In in Hp.
    exact (proj1 (List.Forall_forall dated (posts d)) Hd p (proj1 Hp)).
Qed.

Lemma categories_create_well_formed name slug description :
  handler_keeps well_formed (categories_create name slug description).
Proof.
  intros d now [[Hbp Hbc] Hpi Hci Hps Hcs Hd]. unfold categories_create.
  destruct (first_category_by_slug d slug) eqn:Hf; [now split|].
  apply first_category_by_slug_none in Hf. cbn [snd].
  split; unfold ids_below, post_ids, category_ids, post_slugs, category_slugs
    in *; cbn [posts categories nextId].
  - split.
    + intros id Hin. apply Hbp in Hin. lia.
    + intros id Hin. rewrite map_app in Hin. apply in_app_or in Hin.
      destruct Hin as [Hin | [<- | []]]; [apply Hbc in Hin; lia | cbn; lia].
  - exact Hpi.
  - rewrite map_app. cbn [map c_id]. apply NoDup_snoc; [exact Hci|].
    intros Hin. apply Hbc in Hin. lia.
  - exact Hps.
  - rewrite map_app. cbn [map c_slug]. now apply NoDup_snoc.
  - exact Hd.
Qed.

Lemma categories_update_well_formed id name slug description :
  handler_keeps well_formed (categories_update id name slug description).
Proof.
  intros d now Hwf. unfold categories_update.
  destruct (get_category d id) as [existing|] eqn:Hget; [|exact Hwf].
  destruct (negb (String.eqb slug (c_slug existing)) && _) eqn:Htaken;
    [exact Hwf|].
  cbn [snd]. destruct Hwf as [[Hbp Hbc] Hpi Hci Hps Hcs Hd].
  assert (Hids : category_ids
                   (patch_category id (updated_category name slug description) d)
                 = category_ids d).
  { unfold category_ids. rewrite patch_category_as_list.
    now apply patch_list_keys. }
  split.
  - split; [exact Hbp|]. rewrite Hids. exact Hbc.
  - exact Hpi.
  - now rewrite Hids.
  - exact Hps.
  - unfold category_slugs. rewrite patch_category_as_list.
    apply (patch_list_NoDup c_id c_slug
             (updated_category name slug description) id
             (categories d) existing slug); try assumption.
    + reflexivity.
    + apply andb_false_iff in Htaken. destruct Htaken as [Hsame | Hfree].
      * left. apply negb_false_iff, String.eqb_eq in Hsame. exact Hsame.
      * right. apply first_category_by_slug_none.
        now destruct (first_category_by_slug d slug).
  - exact Hd.
Qed.

Lemma categories_deleteCategory_well_formed id :
  handler_keeps well_formed (categories_deleteCategory id).
Proof.
  intros d now Hwf. unfold categories_deleteCategory.
  destruct (get_category d id) as [existing|]; [|exact Hwf].
  destruct (0 <? length (posts_with_category d id))%nat; [exact Hwf|].
  cbn [snd]. destruct Hwf as [[Hbp Hbc] Hpi Hci Hps Hcs Hd].
  split; unfold ids_below, post_ids, category_ids, post_slugs, category_slugs
    in *; cbn [delete_category posts categories nextId].
  - split; [exact Hbp|]. intros i Hi. apply Hbc.
    now apply in_map_filter in Hi.
  - exact Hpi.
  - now apply NoDup_map_filter.
  - exact Hps.
  - now apply NoDup_map_filter.
  - exact Hd.
Qed.

Lemma empty_store_well_formed : well_formed empty_store.
Proof.
  split; unfold ids_below, post_ids, category_ids, post_slugs, category_slugs;
    cbn; try apply NoDup_nil; try exact I; try constructor; intros ? [].
Qed.

(** Every mutation keeps the invariant, so every store that the mutations
    lead to has it. *)
Lemma reachable_well_formed d : reachable d -> well_formed d.
Proof.
  induction 1 as [|d m now Hd IH]; [apply empty_store_well_formed|].
  destruct m; cbn [handler_of].
  - now apply posts_create_well_formed.
  - now apply posts_update_well_formed.
  - now apply posts_deletePost_well_formed.
  - now apply posts_publish_well_formed.
  - now apply posts_updateFeaturedImage_well_formed.
  - now apply categories_create_well_formed.
  - now apply categories_update_well_formed.
  - now apply categories_deleteCategory_well_formed.
Qed.

Lemma draft_store_reachable : reachable draft_store.
Proof. exact (reachable_step empty_store (PostsCreate draft_args) 5 reachable_empty). Qed.

Lemma published_store_reachable : reachable published_store.
Proof.
  unfold published_store.
  apply (reachable_step _ (PostsUpdate 0 _) 12).
  apply (reachable_step _ (PostsPublish 0) 9).
  apply draft_store_reachable.
Qed.

(** X13.  Whatever mutations are called, in whatever order and with
    whatever arguments, starting from the empty store: the slugs of the
    stored posts are pairwise distinct, and so are the slugs of the stored
    categories. *)
Theorem slugs_stay_distinct (d : Db) :
  reachable d -> NoDup (post_slugs d) /\ NoDup (category_slugs d).
Proof.
  intros H. apply reachable_well_formed in H.
  split; [apply (wf_post_slugs d H) | apply (wf_category_slugs d H)].
Qed.

Lemma slugs_stay_distinct_witness :
  NoDup (post_slugs published_store) /\ NoDup (category_slugs published_store).
Proof. apply (slugs_stay_distinct published_store published_store_reachable). Defined.

(** X14.  In every store the mutations lead to, a post whose status is
    [published] has a publication time: [create], [update] and [publish]
    set it when they make a post published, and no mutation removes it. *)
Theorem published_posts_have_a_date (d : Db) :
  reachable d -> Forall dated (posts d).
Proof. intros H. apply reachable_well_formed in H. apply (wf_dated d H). Qed.

Lemma published_posts_have_a_date_witness : Forall dated (posts published_store).
Proof.
  apply (published_posts_have_a_date published_store published_store_reachable).
Defined.

(** *** The list query *)

Lemma insert_perm x l : Permutation (insert_by_modifiedAt x l) (x :: l).
Proof.
  induction l as [|y l IH]; cbn [insert_by_modifiedAt]; [reflexivity|].
  destruct (p_modifiedAt x <? p_modifiedAt y)%nat; [|reflexivity].
  rewrite IH. apply perm_swap.
Qed.

Lemma sort_perm l : Permutation (sort_by_modifiedAt l) l.
Proof.
  unfold sort_by_modifiedAt.
  induction l as [|x l IH]; cbn [fold_right]; [reflexivity|].
  rewrite insert_perm. now apply perm_skip.
Qed.







(** *** Lookups after a mutation *)

Lemma find_snoc_new {A} (f : A -> bool) l x :
  find f l = None -> f x = true -> find f (l ++ [x]) = Some x.
Proof.
  induction l as [|y l IH]; cbn [app find].
  - intros _ ->. reflexivity.
  - destruct (f y); [discriminate | exact IH].
Qed.

Lemma get_post_fresh d id :
  ids_below d -> nextId d <= id -> get_post d id = None.
Proof.
  intros [Hb _] Hid. unfold get_post.
  destruct (find _ (posts d)) as [p|] eqn:Hf; [|reflexivity].
  apply find_some in Hf. destruct Hf as [Hin Heq]. apply Nat.eqb_eq in Heq.
  assert (Hlt : p_id p < nextId d) by (apply Hb, in_map, Hin). lia.
Qed.

(** X16.  A post that [create] accepted is found again, under its slug by
    [getBySlug] and under the id that [create] returned by [getById]: both
    return the document that has each field of the call, the returned id,
    the time of the call as modification time and, for a published post,
    as publication time (no publication time otherwise), together with
    the category its [categoryId] names; [create] leaves the categories
    alone. *)
Theorem created_post_is_found_again (args : PostArgs) (d d' : Db)
  (now later id : nat) :
  let document := {|
    p_id := id;
    p_title := a_title args;
    p_slug := a_slug args;
    p_content := a_content args;
    p_excerpt := a_excerpt args;
    p_featuredImage := a_featuredImage args;
    p_categoryId := a_categoryId args;
    p_authorId := a_authorId args;
    p_authorName := a_authorName args;
    p_status := a_status args;
    p_publishedAt :=
      match a_status args with
      | published => Some now
      | _ => None
      end;
    p_scheduledFor := a_scheduledFor args;
    p_modifiedAt := now;
    p_seo := a_seo args;
    p_relatedPostIds := a_relatedPostIds args
  |} in
  reachable d ->
  posts_create args d now = (Ok id, d') ->
  posts_getBySlug (a_slug args) d' later =
    (Ok (Some (document, category_of d' (a_categoryId args))), d')
  /\ posts_getById id d' later =
    (Ok (Some (document, category_of d' (a_categoryId args))), d')
  /\ categories d' = categories d.
Proof.
  intros document Hreach Hcreate. apply reachable_well_formed in Hreach.
  unfold posts_create in Hcreate.
  destruct (first_post_by_slug d (a_slug args)) eqn:Hfree; [discriminate|].
  cbn [insert_post] in Hcreate. injection Hcreate as <- <-.
  assert (Hdoc : new_post (nextId d) now args = document).
  { unfold new_post, document. now destruct (a_status args). }
  rewrite Hdoc.
  assert (Hslug : first_post_by_slug
                    {| posts := posts d ++ [document];
                       categories := categories d;
                       nextId := S (nextId d) |} (a_slug args) =
                  Some document).
  { unfold first_post_by_slug in *. cbn [posts].
    apply find_snoc_new; [exact Hfree|]. unfold document. cbn [p_slug].
    apply String.eqb_refl. }
  assert (Hid : get_post
                  {| posts := posts d ++ [document];
                     categories := categories d;
                     nextId := S (nextId d) |} (nextId d) =
                Some document).
  { pose proof (get_post_fresh d (nextId d) (wf_ids_below d Hreach)
                  (Nat.le_refl _)) as Hnone.
    unfold get_post in *. cbn [posts].
    apply find_snoc_new; [exact Hnone|]. unfold document. cbn [p_id].
    apply Nat.eqb_refl. }
  unfold posts_getBySlug, posts_getById. rewrite Hslug, Hid.
  unfold document at 1 3. cbn [p_categoryId]. now repeat split.
Qed.

Lemma created_post_is_found_again_witness :
  posts_getBySlug "hello" (snd (posts_create filed_args filed_store 5)) 7 =
    (Ok (Some
           ({| p_id := 1; p_title := "Hello"; p_slug := "hello";
               p_content := "text"; p_excerpt := Some "short";
               p_featuredImage := Some "image"; p_categoryId := Some 0;
               p_authorId := Some "ann"; p_authorName := "Ann";
               p_status := published; p_publishedAt := Some 5;
               p_scheduledFor := Some 9; p_modifiedAt := 5;
               p_seo := a_seo filed_args; p_relatedPostIds := Some [] |},
            Some {| c_id := 0; c_name := "News"; c_slug := "news";
                    c_description := None |})),
     snd (posts_create filed_args filed_store 5))
  /\ posts_getById 1 (snd (posts_create filed_args filed_store 5)) 7 =
    (Ok (Some
           ({| p_id := 1; p_title := "Hello"; p_slug := "hello";
               p_content := "text"; p_excerpt := Some "short";
               p_featuredImage := Some "image"; p_categoryId := Some 0;
               p_authorId := Some "ann"; p_authorName := "Ann";
               p_status := published; p_publishedAt := Some 5;
               p_scheduledFor := Some 9; p_modifiedAt := 5;
               p_seo := a_seo filed_args; p_relatedPostIds := Some [] |},
            Some {| c_id := 0; c_name := "News"; c_slug := "news";
                    c_description := None |})),
     snd (posts_create filed_args filed_store 5))
  /\ categories (snd (posts_create filed_args filed_store 5)) =
     categories filed_store.
Proof.
  apply (created_post_is_found_again filed_args filed_store
           (snd (posts_create filed_args filed_store 5)) 5 7 1).
  - apply (reachable_step empty_store (CategoriesCreate "News" "news" None) 3).
    apply reachable_empty.
  - reflexivity.
Defined.

(** Elements with the same label in a list without repeated labels. *)
Lemma NoDup_map_eq {A B} (g : A -> B) l a b :
  NoDup (map g l) -> In a l -> In b l -> g a = g b -> a = b.
Proof.
  induction l as [|x l IH]; [intros _ []|].
  cbn [map]. intros H Ha Hb Hg. apply NoDup_cons_In in H.
  destruct H as [Hx Hl].
  destruct Ha as [-> | Ha], Hb as [-> | Hb].
  - reflexivity.
  - exfalso. apply Hx. rewrite Hg. now apply in_map.
  - exfalso. apply Hx. rewrite <- Hg. now apply in_map.
  - now apply IH.
Qed.

(** X17.  [deletePost] on an id that is not stored throws and changes
    nothing.  On a stored post it removes that post and no other: the id
    is not found any more, every other id gives what it gave before, the
    categories are as they were, and the slug of the deleted post is free
    for a new post. *)
Theorem deleted_post_is_gone (id : Id) (d : Db) (now : nat) :
  reachable d ->
  match get_post d id with
  | None => posts_deletePost id d now = (Throw "Post not found", d)
  | Some p =>
      posts_deletePost id d now = (Ok id, delete_post id d)
      /\ get_post (delete_post id d) id = None
      /\ (forall other,
            other <> id ->
            get_post (delete_post id d) other = get_post d other)
      /\ categories (delete_post id d) = categories d
      /\ first_post_by_slug (delete_post id d) (p_slug p) = None
  end.
Proof.
  intros Hreach. apply reachable_well_formed in Hreach.
  unfold posts_deletePost.
  destruct (get_post d id) as [p|] eqn:Hget; [|reflexivity].
  split; [reflexivity|]. split.
  { unfold get_post, delete_post. cbn [posts].
    rewrite (find_filter_other p_id id id). now rewrite Nat.eqb_refl. }
  split.
  { intros other Hne. unfold get_post, delete_post. cbn [posts].
    rewrite (find_filter_other p_id id other).
    apply Nat.eqb_neq in Hne. now rewrite Hne. }
  split; [reflexivity|].
  apply first_post_by_slug_none. unfold post_slugs, delete_post. cbn [posts].
  intros Hin. apply in_map_iff in Hin. destruct Hin as (q & Hslug & Hq).
  apply filter_In in Hq. destruct Hq as [Hq Hid].
  apply get_post_in in Hget. destruct Hget as [Hp Hpid].
  assert (Heq : q = p).
  { apply (NoDup_map_eq p_slug (posts d)); try assumption.
    apply (wf_post_slugs d Hreach). }
  subst q. rewrite Hpid, Nat.eqb_refl in Hid. discriminate.
Qed.

Lemma deleted_post_is_gone_witness :
  posts_deletePost 0 published_store 20 = (Ok 0, delete_post 0 published_store)
  /\ get_post (delete_post 0 published_store) 0 = None
  /\ (forall other,
        other <> 0 ->
        get_post (delete_post 0 published_store) other =
        get_post published_store other)
  /\ categories (delete_post 0 published_store) = categories published_store
  /\ first_post_by_slug (delete_post 0 published_store) "final" = None.
Proof.
  apply (deleted_post_is_gone 0 published_store 20 published_store_reachable).
Defined.

(** *** Categories in use *)

Lemma no_post_with_category d id :
  (0 <? length (posts_with_category d id))%nat = false ->
  forall p, In p (posts d) -> has_category id p = false.
Proof.
  unfold posts_with_category. intros H p Hp.
  destruct (has_category id p) eqn:Hc; [|reflexivity].
  assert (Hin : In p (List.filter (has_category id) (posts d)))
    by (apply filter_In; now split).
  destruct (List.filter (has_category id) (posts d)); [destruct Hin|].
  discriminate.
Qed.

(** X18.  [deleteCategory] never removes a category that a post refers
    to: when a stored post has the category (and the reference resolves),
    the call throws the message that names the category and the number of
    posts that use it, and the store is as it was.  So a store in which
    every category reference of a post resolves is in that state after
    the call as well. *)
Theorem category_in_use_is_not_deleted (id : Id) (d : Db) (now : nat) :
  references_resolve d ->
  references_resolve (snd (categories_deleteCategory id d now))
  /\ ((exists p, In p (posts d) /\ p_categoryId p = Some id) ->
      exists category,
        get_category d id = Some category
        /\ 0 < length (posts_with_category d id)
        /\ categories_deleteCategory id d now =
           (Throw (category_in_use_message (c_name category)
                     (length (posts_with_category d id))), d)).
Proof.
  intros Href. unfold categories_deleteCategory. split.
  - destruct (get_category d id) as [category|]; [|exact Href].
    destruct (0 <? length (posts_with_category d id))%nat eqn:Huse;
      [exact Href|].
    cbn [snd]. intros p cid Hp Hcid. cbn [delete_category posts] in Hp.
    destruct (Href p cid Hp Hcid) as [c Hc]. exists c.
    unfold get_category, delete_category. cbn [categories].
    rewrite (find_filter_other c_id id cid).
    destruct (Nat.eqb cid id) eqn:Heq; [|exact Hc].
    apply Nat.eqb_eq in Heq. subst cid.
    pose proof (no_post_with_category d id Huse p Hp) as Hno.
    unfold has_category in Hno. rewrite Hcid, Nat.eqb_refl in Hno.
    discriminate.
  - intros (p & Hp & Hcid).
    destruct (Href p id Hp Hcid) as [category Hcat]. rewrite Hcat.
    exists category. split; [reflexivity|].
    destruct (0 <? length (posts_with_category d id))%nat eqn:Huse.
    + split; [now apply Nat.ltb_lt | reflexivity].
    + pose proof (no_post_with_category d id Huse p Hp) as Hno.
      unfold has_category in Hno. rewrite Hcid, Nat.eqb_refl in Hno.
      discriminate.
Qed.

Lemma category_in_use_is_not_deleted_witness :
  references_resolve (snd (categories_deleteCategory 0 used_store 20))
  /\ (exists p, In p (posts used_store) /\ p_categoryId p = Some 0)
  /\ exists category,
       get_category used_store 0 = Some category
       /\ 0 < length (posts_with_category used_store 0)
       /\ categories_deleteCategory 0 used_store 20 =
          (Throw (category_in_use_message (c_name category)
                    (length (posts_with_category used_store 0))),
           used_store).
Proof.
  assert (Hres : references_resolve used_store).
  { intros p cid [<- | []] Hcid. injection Hcid as <-.
    eexists. reflexivity. }
  assert (Huse : exists p, In p (posts used_store) /\ p_categoryId p = Some 0).
  { eexists. split; [left; reflexivity | reflexivity]. }
  destruct (category_in_use_is_not_deleted 0 used_store 20 Hres) as [H1 H2].
  split; [exact H1|]. split; [exact Huse | exact (H2 Huse)].
Defined.

(** *** Publishing *)



End StoreLaws.

(* ===================================================================== *)
(** ** Whole runs of the featured-image fixer *)
(* ===================================================================== *)

Module FixerRuns.
Import Str Convex Runtime Wxr Cloudflare RunFacts ConvexFacts ImporterFacts.
Import FixFacts ImporterRuns StoreLaws.
Import FixImages.
Import RegexSpec RunSpec ConvexSpec ImporterSpec FixSpec PipelineSpec SlugLawsSpec ImageUrlsSpec ImporterRunsSpec RawRunsSpec StoreLawsSpec FixerRunsSpec.

(** *** The retrying upload *)

Lemma retry_succeeds {L} E url fn : forall k fuel attemptNum (l : L) w imageId,
  k <= fuel ->
  attemptNum + k <= RETRY_ATTEMPTS ->
  (forall j, j < k ->
     exists e, uploadImageFromUrl E (uploads w + j) url fn = Throw e) ->
  uploadImageFromUrl E (uploads w + k) url fn = Ok imageId ->
  exists w',
    uploadToCloudflare_fuel fuel E url fn attemptNum l w =
      (Ok (Some (getImageUrl imageId large)), l, w')
    /\ uploads w' = uploads w + S k
    /\ clock w' = clock w + k * RETRY_DELAY_MS
    /\ db w' = db w
    /\ requests w' = requests w.
Proof.
  induction k as [|k IH]; intros fuel attemptNum l w imageId Hfuel Hatt Hfail Hok.
  - rewrite Nat.add_0_r in Hok.
    rewrite (attempt_succeeds fuel E url fn attemptNum l w imageId Hok).
    eexists. split; [reflexivity|]. cbn [uploads clock db requests].
    repeat split; lia.
  - destruct fuel as [|fuel]; [lia|].
    destruct (Hfail 0) as [e He]; [lia|]. rewrite Nat.add_0_r in He.
    rewrite (attempt_fails fuel E url fn attemptNum l w e He)
      by (apply Nat.ltb_lt; lia).
    match goal with
    | |- context [uploadToCloudflare_fuel fuel E url fn (attemptNum + 1) l ?w1] =>
        destruct (IH fuel (attemptNum + 1) l w1 imageId)
          as (w' & Hrun & Hup & Hclock & Hdb & Hreq)
    end.
    + lia.
    + lia.
    + intros j Hj. destruct (Hfail (S j)) as [e' He']; [lia|].
      exists e'. cbn [uploads].
      now replace (S (uploads w) + j) with (uploads w + S j) by lia.
    + cbn [uploads].
      now replace (S (uploads w) + k) with (uploads w + S k) by lia.
    + exists w'. split; [exact Hrun|].
      cbn [uploads clock db requests] in Hup, Hclock, Hdb, Hreq.
      repeat split; try assumption; lia.
Qed.

(** X20.  The retrying upload stops at the first attempt that succeeds:
    when the first [k] attempts fail and the next one succeeds, with
    [k] below [RETRY_ATTEMPTS], it returns the delivery URL of that
    upload after [k + 1] upload requests and [k] delays of
    [RETRY_DELAY_MS], and it leaves the store and the statistics alone. *)
Theorem retry_stops_at_the_first_success (E : Env) (url filename : string)
  (k : nat) (imageId : string) (s : Stats) (w : World) :
  k < RETRY_ATTEMPTS ->
  (forall j, j < k ->
     exists e, uploadImageFromUrl E (uploads w + j) url filename = Throw e) ->
  uploadImageFromUrl E (uploads w + k) url filename = Ok imageId ->
  exists w',
    uploadToCloudflare E url filename 1 s w =
      (Ok (Some (getImageUrl imageId large)), s, w')
    /\ uploads w' = uploads w + S k
    /\ clock w' = clock w + k * RETRY_DELAY_MS
    /\ db w' = db w
    /\ requests w' = requests w.
Proof.
  intros Hk Hfail Hok. unfold uploadToCloudflare.
  apply retry_succeeds; try assumption; unfold RETRY_ATTEMPTS in *; lia.
Qed.

Lemma retry_stops_at_the_first_success_witness :
  exists w',
    uploadToCloudflare flaky "http://old.site/f.jpg" "f.jpg" 1 no_stats
      (Sample.start Sample.empty_db) =
      (Ok (Some (getImageUrl "ID" large)), no_stats, w')
    /\ uploads w' = 0 + 2
    /\ clock w' = 0 + 1 * RETRY_DELAY_MS
    /\ db w' = Sample.empty_db
    /\ requests w' = 0.
Proof.
  apply (retry_stops_at_the_first_success flaky
           "http://old.site/f.jpg" "f.jpg" 1 "ID" no_stats
           (Sample.start Sample.empty_db)).
  - unfold RETRY_ATTEMPTS. lia.
  - intros j Hj. exists "upload refused". destruct j; [reflexivity | lia].
  - reflexivity.
Defined.

Lemma wrapper_bounds {L} E url fn : forall fuel attemptNum (l : L) w,
  RETRY_ATTEMPTS - attemptNum <= fuel ->
  exists r w',
    uploadToCloudflare_fuel fuel E url fn attemptNum l w = (Ok r, l, w')
    /\ uploads w < uploads w'
    /\ uploads w' <= uploads w + S fuel
    /\ clock w <= clock w'
    /\ clock w' <= clock w + fuel * RETRY_DELAY_MS
    /\ db w' = db w
    /\ requests w' = requests w.
Proof.
  unfold RETRY_DELAY_MS.
  induction fuel as [|fuel IH]; intros attemptNum l w Hfuel;
    destruct (uploadImageFromUrl E (uploads w) url fn) as [imageId|e] eqn:Hup.
  - rewrite (attempt_succeeds 0 E url fn attemptNum l w imageId Hup).
    do 2 eexists. split; [reflexivity|]. cbn [uploads clock db requests].
    repeat split; lia.
  - rewrite (last_attempt_fails 0 E url fn attemptNum l w e Hup)
      by (apply Nat.ltb_ge; unfold RETRY_ATTEMPTS in *; lia).
    do 2 eexists. split; [reflexivity|]. cbn [uploads clock db requests].
    repeat split; lia.
  - rewrite (attempt_succeeds (S fuel) E url fn attemptNum l w imageId Hup).
    do 2 eexists. split; [reflexivity|]. cbn [uploads clock db requests].
    repeat split; lia.
  - destruct (attemptNum <? RETRY_ATTEMPTS)%nat eqn:Hlt.
    + rewrite (attempt_fails fuel E url fn attemptNum l w e Hup Hlt).
      match goal with
      | |- context [uploadToCloudflare_fuel fuel E url fn (attemptNum + 1) l ?w1] =>
          destruct (IH (attemptNum + 1) l w1)
            as (r & w' & Hrun & H1 & H2 & H3 & H4 & H5 & H6)
      end; [unfold RETRY_ATTEMPTS in *; lia|].
      exists r, w'. split; [exact Hrun|].
      cbn [uploads clock db requests] in H1, H2, H3, H4, H5, H6.
      unfold RETRY_DELAY_MS in *. repeat split; try assumption; lia.
    + rewrite (last_attempt_fails (S fuel) E url fn attemptNum l w e Hup Hlt).
      do 2 eexists. split; [reflexivity|]. cbn [uploads clock db requests].
      repeat split; lia.
Qed.

(** X21.  Whatever the image store does, the retrying upload returns
    without throwing, after at least one and at most [RETRY_ATTEMPTS]
    upload requests and at most two delays of [RETRY_DELAY_MS]; it sends
    nothing to the content store and leaves the statistics alone. *)
Theorem upload_wrapper_is_bounded (E : Env) (url filename : string)
  (s : Stats) (w : World) :
  exists r w',
    uploadToCloudflare E url filename 1 s w = (Ok r, s, w')
    /\ uploads w < uploads w'
    /\ uploads w' <= uploads w + RETRY_ATTEMPTS
    /\ clock w <= clock w'
    /\ clock w' <= clock w + 2 * RETRY_DELAY_MS
    /\ db w' = db w
    /\ requests w' = requests w.
Proof.
  unfold uploadToCloudflare.
  apply (wrapper_bounds E url filename (RETRY_ATTEMPTS - 1) 1 s w).
  unfold RETRY_ATTEMPTS. lia.
Qed.

(** *** The statistics *)

Ltac tally :=
  unfold tally_step, tallied, failure_recorded, incr_skipped, incr_success,
    incr_failed, push_error;
  cbn [total success skipped failed errors];
  split; [reflexivity|]; split; [lia|];
  first [ left; split; reflexivity | right; eexists; split; reflexivity ].

Lemma processPost_tally E post featuredImages index n s w :
  exists s' w',
    processPost E post featuredImages index n s w = (Ok tt, s', w')
    /\ tally_step (p_slug post) s s'.
Proof.
  destruct (truthy (p_featuredImage post) && negb (isForce E)) eqn:Hskip.
  { unfold processPost. rewrite Hskip.
    do 2 eexists. split; [reflexivity | tally]. }
  destruct (featuredImages !! p_slug post) as [url|] eqn:Hf.
  2: { unfold processPost. rewrite Hskip, Hf.
       do 2 eexists. split; [reflexivity | tally]. }
  destruct (nonempty url) eqn:Hn.
  2: { unfold processPost. rewrite Hskip, Hf, Hn.
       do 2 eexists. split; [reflexivity | tally]. }
  destruct (isDryRun E) eqn:Hd.
  { unfold processPost. rewrite Hskip, Hf, Hn, Hd.
    do 2 eexists. split; [reflexivity | tally]. }
  rewrite (processPost_uploads E post featuredImages index n url s w
             Hd Hskip Hf Hn).
  set (filename := filename_of (p_slug post) url).
  set (w0 := before_upload post index n url w).
  rewrite bind_run.
  destruct (wrapper_bounds E url filename (RETRY_ATTEMPTS - 1) 1 s w0)
    as (cloudflareUrl & w1 & Hup & _); [unfold RETRY_ATTEMPTS; lia|].
  fold (@uploadToCloudflare Stats E url filename 1) in Hup.
  rewrite Hup. destruct cloudflareUrl as [newUrl|].
  - rewrite bind_run. unfold try_catch. rewrite bind_run.
    pose proof (updatePostFeaturedImage_keeps_locals E (p_id post) newUrl s w1)
      as Hkeep2.
    unfold locals_of in Hkeep2.
    destruct (updatePostFeaturedImage E (p_id post) newUrl s w1)
      as [[[[]|e] s2] w2]; cbn in Hkeep2; subst s2.
    + do 2 eexists. split; [reflexivity | tally].
    + do 2 eexists. split; [reflexivity | tally].
  - do 2 eexists. split; [reflexivity | tally].
Qed.

Lemma consistent_step slugs slug s s' :
  In slug slugs -> failure_recorded slug s s' ->
  consistent slugs s -> consistent slugs s'.
Proof.
  intros Hin Hrec [Hlen Hall]. unfold consistent.
  destruct Hrec as [[Hf He] | (error & Hf & He)]; rewrite Hf, He.
  - now split.
  - split; [rewrite length_app; cbn; lia|].
    intros sl er H. apply in_app_or in H.
    destruct H as [H | [[= <- <-] | []]]; [now apply (Hall sl er) | exact Hin].
Qed.

Lemma process_loop_tally E featuredImages n slugs posts : forall i s w,
  (forall post, In post posts -> In (p_slug post) slugs) ->
  consistent slugs s ->
  exists s' w',
    forM_indexed (fun i post => processPost E post featuredImages i n) i posts
      s w = (Ok tt, s', w')
    /\ total s' = total s
    /\ tallied s' = tallied s + length posts
    /\ consistent slugs s'.
Proof.
  induction posts as [|post posts IH]; intros i s w Hin Hc.
  - exists s, w. cbn [forM_indexed length]. repeat split; try apply Hc.
    now rewrite Nat.add_0_r.
  - destruct (processPost_tally E post featuredImages i n s w)
      as (s1 & w1 & Hrun & Htot & Htal & Hrec).
    destruct (IH (S i) s1 w1) as (s2 & w2 & Hloop & Htot2 & Htal2 & Hc2).
    { intros p Hp. apply Hin. now right. }
    { apply (consistent_step slugs (p_slug post) s s1); try assumption.
      apply Hin. now left. }
    exists s2, w2. split.
    + cbn [forM_indexed]. now rewrite bind_run, Hrun.
    + cbn [length]. repeat split; try apply Hc2; lia.
Qed.

Lemma returns_unit {L} (m : M L unit) :
  never_throws m -> keeps_locals m ->
  forall l w, exists w', m l w = (Ok tt, l, w').
Proof.
  intros Hn Hk l w. specialize (Hn l w). specialize (Hk l w).
  unfold result_of, locals_of in *.
  destruct (m l w) as [[[[]|e] l'] w']; cbn in *; [|contradiction].
  subst l'. eauto.
Qed.

Lemma print_summary_returns E s w :
  exists w', print_summary E s w = (Ok tt, s, w').
Proof.
  apply returns_unit; unfold print_summary.
  - never_throws_tac.
  - keeps_locals_tac.
Qed.

Lemma main_steps E items :
  FixImages.main E items =
  bind (log FixScriptHeader) (fun _ =>
  bind (log (ModeIs (isDryRun E))) (fun _ =>
  bind (log (ForceIs (isForce E))) (fun _ =>
  bind (parseWordPressXML items) (fun featuredImages =>
  bind (getConvexPosts E) (fun posts =>
  bind (update (set_total (length posts))) (fun _ =>
  bind (process_all E featuredImages posts) (fun _ =>
  print_summary E))))))).
Proof. reflexivity. Qed.

Lemma stays_quiet_fix_parse {L} items :
  stays_quiet (@parseWordPressXML L items).
Proof. unfold parseWordPressXML. cbv zeta. stays_quiet_tac. Qed.

Lemma stays_quiet_getConvexPosts {L} E : stays_quiet (@getConvexPosts L E).
Proof. unfold getConvexPosts. stays_quiet_tac. Qed.

Lemma stays_quiet_print_summary E : stays_quiet (print_summary E).
Proof. unfold print_summary. stays_quiet_tac. Qed.

Lemma fix_parse_run {L} items (l : L) w :
  exists w',
    parseWordPressXML items l w =
      (Ok (fold_left (index_featured (build_attachments items)) items ∅),
       l, w')
    /\ quiet w w' /\ requests w' = requests w.
Proof.
  pose proof (stays_quiet_fix_parse items l w) as Hq. revert Hq.
  unfold parseWordPressXML, bind, log, ret, world_of. cbn [snd].
  intros Hq. eexists. split; [reflexivity | now split].
Qed.

Lemma getConvexPosts_run {L} E (l : L) w :
  transport E (requests w) = None ->
  exists w',
    getConvexPosts E l w = (Ok (sort_by_modifiedAt (posts (db w))), l, w')
    /\ quiet w w'.
Proof.
  intros Ht. pose proof (stays_quiet_getConvexPosts E l w) as Hq. revert Hq.
  unfold getConvexPosts, bind, log, ret, convex_call, posts_list, emit, world_of.
  cbn [db clock requests uploads trace snd]. rewrite Ht.
  cbn [db clock requests uploads trace snd].
  intros Hq. eexists. split; [reflexivity | exact Hq].
Qed.

Lemma sorted_slugs d post :
  In post (sort_by_modifiedAt (posts d)) -> In (p_slug post) (post_slugs d).
Proof.
  intros H. apply in_map.
  apply (Permutation_in post (sort_perm (posts d)) H).
Qed.

(** [main] up to its loop: nothing was written, and the loop runs over
    the stored posts with the map of the export. *)
Lemma main_run E items w :
  transport E (requests w) = None ->
  exists w2,
    quiet w w2
    /\ FixImages.main E items no_stats w =
       bind (process_all E
               (fold_left (index_featured (build_attachments items)) items ∅)
               (sort_by_modifiedAt (posts (db w))))
         (fun _ => print_summary E)
         (set_total (length (sort_by_modifiedAt (posts (db w)))) no_stats) w2.
Proof.
  intros Ht. rewrite main_steps.
  rewrite bind_run. unfold log at 1.
  rewrite bind_run. unfold log at 1.
  rewrite bind_run. unfold log at 1.
  rewrite bind_run.
  match goal with
  | |- context [parseWordPressXML items no_stats ?w0] =>
      assert (Hq0 : quiet w w0)
        by (repeat (eapply quiet_trans; [|now apply quiet_emit]);
            apply quiet_refl);
      destruct (fix_parse_run items no_stats w0) as (w1 & Hparse & Hq1 & Hreq1)
  end.
  rewrite Hparse. cbn [emit requests] in Hreq1.
  rewrite bind_run.
  destruct (getConvexPosts_run E no_stats w1) as (w2 & Hlist & Hq2);
    [now rewrite Hreq1|].
  assert (Hdb : db w1 = db w).
  { rewrite (quiet_db _ _ Hq1). apply (quiet_db _ _ Hq0). }
  rewrite Hlist, Hdb. rewrite bind_run. unfold update at 1.
  exists w2. split; [|reflexivity].
  apply (quiet_trans w w1 w2); [|exact Hq2].
  now apply (quiet_trans w _ w1 Hq0).
Qed.

(** X22.  When the thumbnail ids of the export are decimal numerals (so
    that every lookup in the attachment index finds entries of the index
    only) and the list query gets through, [main] of the fixer returns,
    and its summary adds up: the total is the number of stored posts,
    every post was counted once as success, skipped or failed, and the
    list of failed posts has exactly one entry for each counted failure,
    under the slug of a stored post. *)
Theorem fixer_summary_adds_up (E : Env) (items : list WpItem) (w : World) :
  thumbnails_are_numerals items ->
  transport E (requests w) = None ->
  exists s' w',
    FixImages.main E items no_stats w = (Ok tt, s', w')
    /\ total s' = length (posts (db w))
    /\ success s' + skipped s' + failed s' = total s'
    /\ failed s' = length (errors s')
    /\ forall slug error,
         In (slug, error) (errors s') -> In slug (post_slugs (db w)).
Proof.
  intros _ Ht. destruct (main_run E items w Ht) as (w2 & _ & Hmain).
  rewrite Hmain. clear Hmain.
  set (stored := sort_by_modifiedAt (posts (db w))).
  rewrite bind_run. unfold process_all.
  destruct (process_loop_tally E
              (fold_left (index_featured (build_attachments items)) items ∅)
              (length stored) (post_slugs (db w)) stored 0
              (set_total (length stored) no_stats) w2)
    as (s' & w3 & Hloop & Htot & Htal & Hlen & Hslugs).
  { intros post. apply sorted_slugs. }
  { split; [reflexivity | intros slug error []]. }
  rewrite Hloop.
  destruct (print_summary_returns E s' w3) as [w4 Hsum].
  exists s', w4. split; [exact Hsum|].
  assert (Hn : length stored = length (posts (db w)))
    by (apply Permutation_length, sort_perm).
  cbn [set_total total] in Htot. unfold tallied in Htal.
  cbn [set_total no_stats success skipped failed] in Htal.
  repeat split; try assumption; lia.
Qed.

Lemma fixer_summary_adds_up_witness :
  exists s' w',
    FixImages.main Sample.images_down one_post_export
      no_stats (Sample.start (Sample.db_with bare_post)) = (Ok tt, s', w')
    /\ total s' = 1
    /\ success s' + skipped s' + failed s' = total s'
    /\ failed s' = length (errors s')
    /\ forall slug error,
         In (slug, error) (errors s') ->
         In slug (post_slugs (db (Sample.start (Sample.db_with bare_post)))).
Proof.
  apply (fixer_summary_adds_up Sample.images_down one_post_export
           (Sample.start (Sample.db_with bare_post))).
  - intros item meta id Hitem Hmeta _ Hid.
    destruct Hitem as [<- | [<- | []]]; [|destruct Hmeta].
    destruct Hmeta as [<- | []]. now injection Hid as <-.
  - reflexivity.
Defined.

(** *** The dry run *)

Lemma stays_quiet_dry_fix E items :
  isDryRun E = true -> stays_quiet (FixImages.main E items).
Proof.
  intros Hd.
  unfold FixImages.main, parseWordPressXML, getConvexPosts, process_all,
    processPost.
  rewrite Hd. cbv zeta. stays_quiet_tac.
Qed.

(** X23.  In a dry run the fixer writes nothing: the store is as it was,
    no upload is requested, no time passes, and every event of the run is
    a console line or a query. *)
Theorem fixer_dry_run_writes_nothing (E : Env) (items : list WpItem)
  (s : Stats) (w : World) :
  isDryRun E = true ->
  db (world_of (FixImages.main E items s w)) = db w
  /\ uploads (world_of (FixImages.main E items s w)) = uploads w
  /\ clock (world_of (FixImages.main E items s w)) = clock w
  /\ exists evs,
       trace (world_of (FixImages.main E items s w)) = trace w ++ evs
       /\ forallb read_only evs = true.
Proof.
  intros Hd. destruct (stays_quiet_dry_fix E items Hd s w) as [H1 H2 H3 H4].
  now repeat split.
Qed.

Lemma fixer_dry_run_writes_nothing_witness :
  db (world_of dry_fix) = Sample.db_with bare_post
  /\ uploads (world_of dry_fix) = 0
  /\ clock (world_of dry_fix) = 0
  /\ exists evs,
       trace (world_of dry_fix) = [] ++ evs /\ forallb read_only evs = true.
Proof.
  apply (fixer_dry_run_writes_nothing (Sample.working (fun _ => "ID") true)
           [Sample.post_item "Hello" "hello" "publish" "<p>Hi</p>"
              [Sample.thumbnail "10"];
            Sample.attachment_item "10" "http://old.site/f.jpg"]
           no_stats (Sample.start (Sample.db_with bare_post))).
  reflexivity.
Defined.

(** *** Posts that have a featured image *)

Lemma processPost_has_image E post featuredImages i n s w :
  truthy (p_featuredImage post) && negb (isForce E) = true ->
  processPost E post featuredImages i n s w =
    (Ok tt, incr_skipped s,
     emits [Console (Processing (i + 1) n (p_title post));
            Console (SlugIs (p_slug post));
            Console AlreadyHasFeaturedImage] w).
Proof.
  intros H. unfold processPost. rewrite H. now rewrite emits_three.
Qed.

Lemma skip_all E featuredImages n posts : forall i s w,
  isForce E = false ->
  Forall (fun post => truthy (p_featuredImage post) = true) posts ->
  exists evs,
    forM_indexed (fun i post => processPost E post featuredImages i n) i posts
      s w = (Ok tt, skipped_stats (length posts) s, emits evs w)
    /\ forallb is_console evs = true.
Proof.
  induction posts as [|post posts IH]; intros i s w Hf Hall.
  - exists []. rewrite emits_nil. split; [|reflexivity].
    cbn [forM_indexed length]. unfold ret. now destruct s.
  - inversion Hall as [|? ? Hpost Hrest]; subst.
    cbn [forM_indexed]. rewrite bind_run.
    rewrite processPost_has_image by (now rewrite Hpost, Hf).
    destruct (IH (S i) (incr_skipped s) (emits
                [Console (Processing (i + 1) n (p_title post));
                 Console (SlugIs (p_slug post));
                 Console AlreadyHasFeaturedImage] w) Hf Hrest)
      as (evs & Hrun & Hevs).
    eexists. split.
    + rewrite Hrun, emits_emits. f_equal. f_equal.
      unfold skipped_stats, incr_skipped.
      cbn [total success skipped failed errors length].
      f_equal. lia.
    + cbn [app forallb is_console andb]. exact Hevs.
Qed.

Lemma console_is_read_only evs :
  forallb is_console evs = true -> forallb read_only evs = true.
Proof.
  induction evs as [|ev evs IH]; [reflexivity|]. cbn [forallb].
  intros H. apply andb_prop in H. destruct H as [H1 H2].
  rewrite (IH H2). now destruct ev.
Qed.

Lemma quiet_emits evs w : forallb read_only evs = true -> quiet w (emits evs w).
Proof.
  intros H. split; try reflexivity. exists evs. now split.
Qed.

Lemma sorted_all (P : Post -> Prop) l :
  Forall P l -> Forall P (sort_by_modifiedAt l).
Proof.
  intros H. apply List.Forall_forall. intros post Hin.
  apply (proj1 (List.Forall_forall P l) H).
  apply (Permutation_in post (sort_perm l) Hin).
Qed.

(** X24.  Without [--force], when every stored post has a featured
    image, the fixer skips them all: each post is counted as skipped,
    none as success or failure, nothing is uploaded, no mutation is sent
    and the store is as it was. *)
Theorem posts_with_images_are_left_alone (E : Env) (items : list WpItem)
  (w : World) :
  isForce E = false ->
  transport E (requests w) = None ->
  Forall (fun post => truthy (p_featuredImage post) = true) (posts (db w)) ->
  exists w',
    FixImages.main E items no_stats w =
      (Ok tt,
       {| total := length (posts (db w)); success := 0;
          skipped := length (posts (db w)); failed := 0; errors := [] |},
       w')
    /\ db w' = db w
    /\ uploads w' = uploads w
    /\ clock w' = clock w
    /\ exists evs, trace w' = trace w ++ evs /\ forallb read_only evs = true.
Proof.
  intros Hf Ht Hall. destruct (main_run E items w Ht) as (w2 & Hq2 & Hmain).
  rewrite Hmain. clear Hmain.
  set (stored := sort_by_modifiedAt (posts (db w))).
  assert (Hn : length stored = length (posts (db w)))
    by (apply Permutation_length, sort_perm).
  rewrite bind_run. unfold process_all.
  destruct (skip_all E
              (fold_left (index_featured (build_attachments items)) items ∅)
              (length stored) stored 0
              (set_total (length stored) no_stats) w2 Hf)
    as (evs & Hloop & Hevs); [now apply sorted_all|].
  rewrite Hloop.
  destruct (print_summary_returns E
              (skipped_stats (length stored)
                 (set_total (length stored) no_stats))
              (emits evs w2)) as [w4 Hsum].
  pose proof (stays_quiet_print_summary E
                (skipped_stats (length stored)
                   (set_total (length stored) no_stats))
                (emits evs w2)) as Hq4.
  unfold world_of in Hq4. rewrite Hsum in Hq4. cbn [snd] in Hq4.
  exists w4. split.
  - rewrite Hsum. unfold skipped_stats, set_total, no_stats.
    cbn [total success skipped failed errors].
    now rewrite Nat.add_0_r, Hn.
  - assert (Hq : quiet w w4).
    { apply (quiet_trans w w2 w4 Hq2).
      apply (quiet_trans w2 (emits evs w2) w4); [|exact Hq4].
      now apply quiet_emits, console_is_read_only. }
    destruct Hq as [H1 H2 H3 H4]. now repeat split.
Qed.

Lemma posts_with_images_are_left_alone_witness :
  exists w',
    FixImages.main (Sample.working (fun _ => "ID") false) []
      no_stats
      (Sample.start (Sample.db_with (Sample.stored_post 0 "hello" (Some "img"))))
    = (Ok tt,
       {| total := 1; success := 0; skipped := 1; failed := 0; errors := [] |},
       w')
    /\ db w' = Sample.db_with (Sample.stored_post 0 "hello" (Some "img"))
    /\ uploads w' = 0
    /\ clock w' = 0
    /\ exists evs, trace w' = [] ++ evs /\ forallb read_only evs = true.
Proof.
  apply (posts_with_images_are_left_alone
           (Sample.working (fun _ => "ID") false) []
           (Sample.start
              (Sample.db_with (Sample.stored_post 0 "hello" (Some "img"))))).
  - reflexivity.
  - reflexivity.
  - repeat constructor.
Defined.

(** *** What the fixer may change *)

Lemma same_but_image_refl p : same_but_image p p.
Proof. unfold same_but_image. now repeat split. Qed.

Lemma same_but_image_set p p' img now :
  same_but_image p p' -> same_but_image p (set_featuredImage img now p').
Proof. unfold same_but_image, set_featuredImage. cbn. exact (fun H => H). Qed.

Lemma only_images_differ_refl d : only_images_differ d d.
Proof.
  split; [|reflexivity].
  induction (posts d); constructor; [apply same_but_image_refl | assumption].
Qed.

Lemma updateFeaturedImage_changes_images d0 id img :
  handler_keeps (only_images_differ d0) (posts_updateFeaturedImage id img).
Proof.
  intros d now [Hposts Hcats]. unfold posts_updateFeaturedImage.
  destruct (get_post d id) as [existing|]; cbn [snd]; [|now split].
  split; [|exact Hcats]. unfold patch_post. cbn [posts].
  induction Hposts as [|p p' l l' Hp Hl IH]; cbn [map]; constructor.
  - destruct (Nat.eqb (p_id p') id); [now apply same_but_image_set | exact Hp].
  - exact IH.
Qed.

Lemma main_changes_images d0 E items :
  keeps_db (only_images_differ d0) (FixImages.main E items).
Proof.
  pose proof (updateFeaturedImage_changes_images d0) as Hup.
  unfold FixImages.main, parseWordPressXML, getConvexPosts, process_all,
    processPost, updatePostFeaturedImage.
  cbv zeta. keeps_db_tac.
  all: unfold uploadToCloudflare; apply uploadToCloudflare_keeps_db.
Qed.

(** X25.  Whatever happens in a run of the fixer, the store has the same
    posts in the same order afterwards, and each differs from what it was
    at most in its featured image and its modification time; the
    categories are untouched. *)
Theorem fixer_changes_images_only (E : Env) (items : list WpItem)
  (s : Stats) (w : World) :
  Forall2 same_but_image (posts (db w))
    (posts (db (world_of (FixImages.main E items s w))))
  /\ categories (db (world_of (FixImages.main E items s w))) =
     categories (db w).
Proof.
  apply (main_changes_images (db w) E items s w).
  apply only_images_differ_refl.
Qed.

(** *** A post that gets its image *)



(** *** The maps of the export *)

Lemma index_attachment_sound (m : gmap string string) a id url :
  index_attachment m a !! id = Some url ->
  m !! id = Some url \/ indexes a id url.
Proof.
  unfold index_attachment, indexes.
  destruct (is_text (wp_post_type a) "attachment") eqn:Ht; [|now left].
  destruct (wp_post_id a) as [aid|] eqn:Hid; [|now left].
  destruct (wp_attachment_url a) as [aurl|] eqn:Hurl; [|now left].
  destruct (nonempty aid) eqn:Hn1; [|now left].
  destruct (nonempty aurl) eqn:Hn2; [|now left].
  cbn [andb]. destruct (decide (aid = id)) as [->|Hne].
  - rewrite lookup_insert_eq. intros [= ->]. right. now repeat split.
  - rewrite lookup_insert_ne by exact Hne. now left.
Qed.

Lemma fold_index_sound items : forall (m : gmap string string) id url,
  fold_left index_attachment items m !! id = Some url ->
  m !! id = Some url \/ exists a, In a items /\ indexes a id url.
Proof.
  induction items as [|a items IH]; intros m id url H; cbn [fold_left] in H.
  - now left.
  - destruct (IH _ _ _ H) as [Hm | (b & Hb & Hidx)].
    + destruct (index_attachment_sound m a id url Hm) as [Hm' | Hidx].
      * now left.
      * right. exists a. split; [now left | exact Hidx].
    + right. exists b. split; [now right | exact Hidx].
Qed.

(** X27.  Every entry of the attachment index comes from an item of the
    export: looking up an identifier (a decimal numeral, as the post ids
    of an export are, so that the lookup finds entries of the index only)
    gives a URL only if an attachment item has that identifier and that
    URL, both non-empty. *)
Theorem index_entries_are_attachments (items : list WpItem) (id url : string) :
  numeral id = true ->
  build_attachments items !! id = Some url ->
  exists a, In a items /\ indexes a id url.
Proof.
  intros _ H. unfold build_attachments in H.
  destruct (fold_index_sound items ∅ id url H) as [Hm | Hex]; [|exact Hex].
  now rewrite lookup_empty in Hm.
Qed.

Lemma index_entries_are_attachments_witness :
  exists a,
    In a [Sample.page_item;
          Sample.attachment_item "10" "http://old.site/f.jpg"]
    /\ indexes a "10" "http://old.site/f.jpg".
Proof.
  apply (index_entries_are_attachments
           [Sample.page_item;
            Sample.attachment_item "10" "http://old.site/f.jpg"]);
    reflexivity.
Defined.

Lemma scan_postmeta_sound attachments slug metas (m : gmap string string) :
  forall s url,
    scan_postmeta attachments slug metas m !! s = Some url ->
    m !! s = Some url
    \/ (s = slug
        /\ exists meta id,
             In meta metas
             /\ is_text (meta_key meta) "_thumbnail_id" = true
             /\ meta_value meta = Some id
             /\ attachments !! id = Some url).
Proof.
  induction metas as [|meta metas IH]; intros s url H;
    cbn [scan_postmeta] in H; [now left|].
  assert (Hlater :
            scan_postmeta attachments slug metas m !! s = Some url ->
            m !! s = Some url
            \/ (s = slug
                /\ exists meta0 id,
                     In meta0 (meta :: metas)
                     /\ is_text (meta_key meta0) "_thumbnail_id" = true
                     /\ meta_value meta0 = Some id
                     /\ attachments !! id = Some url)).
  { intros H'.
    destruct (IH s url H') as [Hm | (Hs & meta' & id' & Hin & Hrest)];
      [now left|].
    right. split; [exact Hs|]. exists meta', id'. split; [now right|].
    exact Hrest. }
  destruct (is_text (meta_key meta) "_thumbnail_id") eqn:Hk; cbn [andb] in H;
    [|now apply Hlater].
  destruct (meta_value meta) as [id|] eqn:Hv; cbn [truthy or_default] in H;
    [|now apply Hlater].
  destruct (nonempty id) eqn:Hid; [|now apply Hlater].
  destruct (attachments !! id) as [imageUrl|] eqn:Ha; [|now left].
  destruct (nonempty imageUrl); [|now left].
  destruct (decide (slug = s)) as [->|Hne].
  - rewrite lookup_insert_eq in H. injection H as ->.
    right. split; [reflexivity|].
    exists meta, id. repeat split; try assumption. now left.
  - rewrite lookup_insert_ne in H by exact Hne. now left.
Qed.

Lemma index_featured_sound attachments (m : gmap string string) item s url :
  index_featured attachments m item !! s = Some url ->
  m !! s = Some url
  \/ exists id, names_thumbnail item s id /\ attachments !! id = Some url.
Proof.
  unfold index_featured, names_thumbnail, metas_of.
  destruct (is_text (wp_post_type item) "post") eqn:Ht; cbn [negb];
    [|now left].
  destruct (wp_post_name item) as [name|] eqn:Hname;
    cbn [truthy or_default negb]; [|now left].
  destruct (nonempty name) eqn:Hnm; cbn [negb]; [|now left].
  intros H.
  destruct (scan_postmeta_sound _ _ _ _ _ _ H)
    as [Hm | (-> & meta & id & Hin & Hk & Hv & Ha)]; [now left|].
  right. exists id. split; [|exact Ha].
  split; [reflexivity|]. split; [reflexivity|]. now exists meta.
Qed.

Lemma fold_featured_sound attachments items :
  forall (m : gmap string string) s url,
    fold_left (index_featured attachments) items m !! s = Some url ->
    m !! s = Some url
    \/ exists item id,
         In item items /\ names_thumbnail item s id
         /\ attachments !! id = Some url.
Proof.
  induction items as [|item items IH]; intros m s url H; cbn [fold_left] in H.
  - now left.
  - destruct (IH _ _ _ H) as [Hm | (b & id & Hb & Hidx)].
    + destruct (index_featured_sound attachments m item s url Hm)
        as [Hm' | (id & Hidx)].
      * now left.
      * right. exists item, id. split; [now left | exact Hidx].
    + right. exists b, id. split; [now right | exact Hidx].
Qed.

(** X28.  Every entry of the featured-image map the fixer builds comes
    from the export, when the thumbnail ids of the export are decimal
    numerals: a post item with that slug has a [_thumbnail_id] meta
    element whose value is the identifier of an attachment item with
    that URL. *)
Theorem featured_images_come_from_the_export (items : list WpItem)
  (featuredImages : gmap string string) (slug url : string) (w : World) :
  thumbnails_are_numerals items ->
  result_of (parseWordPressXML items tt w) = Ok featuredImages ->
  featuredImages !! slug = Some url ->
  exists item id a,
    In item items /\ names_thumbnail item slug id
    /\ In a items /\ indexes a id url.
Proof.
  intros _. unfold parseWordPressXML, bind, log, ret, result_of. cbn [fst].
  intros [= <-] H.
  destruct (fold_featured_sound _ _ _ _ _ H)
    as [Hm | (item & id & Hin & Hnames & Ha)].
  { now rewrite lookup_empty in Hm. }
  unfold build_attachments in Ha.
  destruct (fold_index_sound items ∅ id url Ha) as [Hm | (a & Hain & Hidx)].
  { now rewrite lookup_empty in Hm. }
  now exists item, id, a.
Qed.

Lemma featured_images_come_from_the_export_witness :
  exists item id a,
    In item one_post_export /\ names_thumbnail item "hello" id
    /\ In a one_post_export /\ indexes a id "http://old.site/f.jpg".
Proof.
  apply (featured_images_come_from_the_export one_post_export
           (fold_left (index_featured (build_attachments one_post_export))
              one_post_export ∅)
           "hello" "http://old.site/f.jpg" (Sample.start Sample.empty_db)).
  - intros item meta id Hitem Hmeta _ Hid.
    destruct Hitem as [<- | [<- | []]]; [|destruct Hmeta].
    destruct Hmeta as [<- | []]. now injection Hid as <-.
  - reflexivity.
  - reflexivity.
Defined.

End FixerRuns.

(* ===================================================================== *)
(** ** Runs of the seeding script *)
(* ===================================================================== *)

Module SeedingRuns.
Import SeedCategories.
Import Str Convex Runtime RunFacts ConvexFacts ImporterRuns StoreLaws.
Import RegexSpec RunSpec ConvexSpec ImporterSpec FixSpec PipelineSpec SlugLawsSpec ImageUrlsSpec ImporterRunsSpec RawRunsSpec StoreLawsSpec FixerRunsSpec SeedingRunsSpec.

Lemma first_category_by_slug_in d s c :
  first_category_by_slug d s = Some c -> In s (category_slugs d).
Proof.
  unfold first_category_by_slug, category_slugs. intros H.
  apply find_some in H. destruct H as [Hin Heq].
  apply String.eqb_eq in Heq. subst s. now apply in_map.
Qed.

Lemma first_category_by_slug_found d s :
  In s (category_slugs d) -> exists c, first_category_by_slug d s = Some c.
Proof.
  intros H. destruct (first_category_by_slug d s) as [c|] eqn:Hf; [eauto|].
  now apply first_category_by_slug_none in Hf.
Qed.

Lemma seed_creates E cat s w :
  connected E ->
  first_category_by_slug (db w) (slug cat) = None ->
  exists w',
    seed E cat s w =
      (Ok tt, incr_success (snd (fst (print (Created (name cat)) s w))), w')
    /\ posts (db w') = posts (db w)
    /\ Convex.categories (db w') =
       Convex.categories (db w) ++
         [{| c_id := nextId (db w); c_name := name cat; c_slug := slug cat;
             c_description := Some (description cat) |}].
Proof.
  intros Ht Hf.
  unfold seed, try_catch, bind, convex_call, categories_getBySlug,
    categories_create.
  cbn [db clock requests uploads trace]. rewrite (Ht (requests w)), Hf.
  cbn [db clock requests uploads trace]. rewrite (Ht (S (requests w))), Hf.
  eexists. split; [reflexivity|]. now split.
Qed.

Lemma seed_skips E cat s w c :
  connected E ->
  first_category_by_slug (db w) (slug cat) = Some c ->
  exists w',
    seed E cat s w =
      (Ok tt, incr_skip (snd (fst (print (Skipped (name cat)) s w))), w')
    /\ db w' = db w.
Proof.
  intros Ht Hf.
  unfold seed, try_catch, bind, convex_call, categories_getBySlug.
  cbn [db clock requests uploads trace]. rewrite (Ht (requests w)), Hf.
  eexists. split; [reflexivity|]. reflexivity.
Qed.

Lemma seed_run E cat s w :
  connected E ->
  exists s' w', seed E cat s w = (Ok tt, s', w') /\ seeded cat s s' w w'.
Proof.
  intros Ht. destruct (first_category_by_slug (db w) (slug cat)) as [c|] eqn:Hf.
  - destruct (seed_skips E cat s w c Ht Hf) as (w' & Hrun & Hdb).
    do 2 eexists. split; [exact Hrun|]. unfold seeded. rewrite Hdb.
    cbn. repeat split; try lia.
    + exists []. rewrite app_nil_r. now split.
    + now apply (first_category_by_slug_in _ _ c).
  - destruct (seed_creates E cat s w Ht Hf) as (w' & Hrun & Hposts & Hcats).
    do 2 eexists. split; [exact Hrun|]. unfold seeded.
    split; [reflexivity|]. split; [cbn; lia|]. split; [exact Hposts|]. split.
    + eexists. split; [exact Hcats|]. cbn. lia.
    + unfold category_slugs. rewrite Hcats, map_app.
      apply in_or_app. right. now left.
Qed.

Lemma seed_loop E cats : forall s w,
  connected E ->
  exists s' w',
    foldM (fun _ cat => seed E cat) cats tt s w = (Ok tt, s', w')
    /\ errorCount s' = errorCount s
    /\ successCount s' + skipCount s' =
       successCount s + skipCount s + length cats
    /\ posts (db w') = posts (db w)
    /\ (exists added,
          Convex.categories (db w') = Convex.categories (db w) ++ added
          /\ length added + successCount s = successCount s')
    /\ forall cat, In cat cats -> In (slug cat) (category_slugs (db w')).
Proof.
  induction cats as [|cat cats IH]; intros s w Ht.
  - exists s, w. cbn [foldM length]. unfold ret.
    repeat split; try lia; [|intros cat []].
    exists []. now rewrite app_nil_r.
  - destruct (seed_run E cat s w Ht)
      as (s1 & w1 & Hrun & He1 & Hc1 & Hp1 & (a1 & Ha1 & Hl1) & Hin1).
    destruct (IH s1 w1 Ht)
      as (s2 & w2 & Hloop & He2 & Hc2 & Hp2 & (a2 & Ha2 & Hl2) & Hin2).
    exists s2, w2. cbn [foldM]. rewrite bind_run, Hrun.
    split; [exact Hloop|]. cbn [length].
    split; [congruence|]. split; [lia|]. split; [congruence|]. split.
    + exists (a1 ++ a2). rewrite Ha2, Ha1, <- app_assoc, length_app.
      split; [reflexivity | lia].
    + intros c [<- | Hc]; [|now apply Hin2].
      unfold category_slugs in *. rewrite Ha2, map_app.
      apply in_or_app. now left.
Qed.

Lemma seed_loop_skips E cats : forall s w,
  connected E ->
  (forall cat, In cat cats -> In (slug cat) (category_slugs (db w))) ->
  exists s' w',
    foldM (fun _ cat => seed E cat) cats tt s w = (Ok tt, s', w')
    /\ db w' = db w
    /\ successCount s' = successCount s
    /\ skipCount s' = skipCount s + length cats
    /\ errorCount s' = errorCount s.
Proof.
  induction cats as [|cat cats IH]; intros s w Ht Hall.
  - exists s, w. cbn [foldM length]. unfold ret. repeat split; lia.
  - destruct (first_category_by_slug_found (db w) (slug cat)) as [c Hf];
      [apply Hall; now left|].
    destruct (seed_skips E cat s w c Ht Hf) as (w1 & Hrun & Hdb1).
    destruct (IH (incr_skip (snd (fst (print (Skipped (name cat)) s w)))) w1 Ht)
      as (s2 & w2 & Hloop & Hdb2 & Hs2 & Hk2 & He2).
    { intros c' Hc'. rewrite Hdb1. apply Hall. now right. }
    exists s2, w2. cbn [foldM]. rewrite bind_run, Hrun.
    split; [exact Hloop|]. cbn in Hs2, Hk2, He2. cbn [length].
    repeat split; try congruence; lia.
Qed.

(** The whole script, given what its loop does. *)
Lemma seedCategories_of_run E cats s w s1 w1 :
  foldM (fun _ cat => seed E cat) cats tt
    (reset_counts (snd (fst (print SeedingCategories s w)))) w =
    (Ok tt, s1, w1) ->
  exists s',
    seedCategories_of E cats s w = (Ok tt, s', w1)
    /\ successCount s' = successCount s1
    /\ skipCount s' = skipCount s1
    /\ errorCount s' = errorCount s1.
Proof.
  intros Hloop. unfold seedCategories_of.
  rewrite bind_run. unfold print at 1, update at 1.
  rewrite bind_run. unfold update at 1.
  rewrite bind_run.
  unfold print, update in Hloop. cbn [fst snd] in Hloop. rewrite Hloop.
  unfold bind, read, print, update. eexists. split; [reflexivity|].
  now repeat split.
Qed.

(** X29.  With a connection that does not fail, the seeding script
    returns without a failure: every category of the array is counted as
    created or as skipped, each of their slugs is stored afterwards, the
    categories created (as many as were counted) come after the ones that
    were stored, and no post is touched.  A second run then skips every
    category and leaves the store as it is. *)
Theorem seeding_twice_is_seeding_once (E : Env) (cats : list Seed)
  (s : Seeding) (w : World) :
  connected E ->
  exists s1 w1 s2 w2,
    seedCategories_of E cats s w = (Ok tt, s1, w1)
    /\ errorCount s1 = 0
    /\ successCount s1 + skipCount s1 = length cats
    /\ (forall cat, In cat cats -> In (slug cat) (category_slugs (db w1)))
    /\ (exists added,
          Convex.categories (db w1) = Convex.categories (db w) ++ added
          /\ length added = successCount s1)
    /\ posts (db w1) = posts (db w)
    /\ seedCategories_of E cats s1 w1 = (Ok tt, s2, w2)
    /\ db w2 = db w1
    /\ successCount s2 = 0
    /\ skipCount s2 = length cats
    /\ errorCount s2 = 0.
Proof.
  intros Ht.
  destruct (seed_loop E cats
              (reset_counts (snd (fst (print SeedingCategories s w)))) w Ht)
    as (l1 & w1 & Hloop1 & He1 & Hc1 & Hp1 & (added & Ha1 & Hl1) & Hin1).
  destruct (seedCategories_of_run E cats s w l1 w1 Hloop1)
    as (s1 & Hrun1 & Hs1 & Hk1 & Hr1).
  destruct (seed_loop_skips E cats
              (reset_counts (snd (fst (print SeedingCategories s1 w1)))) w1
              Ht Hin1)
    as (l2 & w2 & Hloop2 & Hdb2 & Hs2 & Hk2 & He2).
  destruct (seedCategories_of_run E cats s1 w1 l2 w2 Hloop2)
    as (s2 & Hrun2 & Hs2' & Hk2' & Hr2').
  cbn in He1, Hc1, Hl1, Hs2, Hk2, He2.
  exists s1, w1, s2, w2.
  split; [exact Hrun1|]. split; [congruence|]. split; [lia|].
  split; [exact Hin1|]. split; [exists added; split; [exact Ha1 | lia]|].
  split; [exact Hp1|]. split; [exact Hrun2|]. split; [exact Hdb2|].
  repeat split; congruence.
Qed.

Lemma seeding_twice_is_seeding_once_witness :
  exists s1 w1 s2 w2,
    seedCategories (Sample.working (fun _ => "ID") false) no_seeding
      (Sample.start Sample.empty_db) = (Ok tt, s1, w1)
    /\ errorCount s1 = 0
    /\ successCount s1 + skipCount s1 = length SeedCategories.categories
    /\ (forall cat,
          In cat SeedCategories.categories ->
          In (slug cat) (category_slugs (db w1)))
    /\ (exists added,
          Convex.categories (db w1) =
          Convex.categories (db (Sample.start Sample.empty_db)) ++ added
          /\ length added = successCount s1)
    /\ posts (db w1) = posts (db (Sample.start Sample.empty_db))
    /\ seedCategories (Sample.working (fun _ => "ID") false) s1 w1 =
       (Ok tt, s2, w2)
    /\ db w2 = db w1
    /\ successCount s2 = 0
    /\ skipCount s2 = length SeedCategories.categories
    /\ errorCount s2 = 0.
Proof.
  apply (seeding_twice_is_seeding_once (Sample.working (fun _ => "ID") false)
           SeedCategories.categories no_seeding
           (Sample.start Sample.empty_db)).
  intros n. reflexivity.
Defined.

End SeedingRuns.

(* ===================================================================== *)
(** ** The importer without the existence check *)
(* ===================================================================== *)

Module BasicRuns.
Import Str Convex Runtime Wxr Cloudflare RunFacts ConvexFacts ImporterFacts.
Import PipelineFacts.
Import RegexSpec RunSpec ConvexSpec ImporterSpec FixSpec PipelineSpec SlugLawsSpec ImageUrlsSpec ImporterRunsSpec RawRunsSpec StoreLawsSpec FixerRunsSpec SeedingRunsSpec BasicRunsSpec.

Lemma always_throws_bind d0 {L A B} (m : M L A) (k : A -> M L B) :
  keeps_db (same_posts d0) m -> keeps_locals m ->
  (forall a, always_throws d0 (k a)) ->
  always_throws d0 (bind m k).
Proof.
  intros Hdb Hl Hk l w Hw. specialize (Hdb l w Hw). specialize (Hl l w).
  unfold bind, result_of, locals_of, world_of in *.
  destruct (m l w) as [[[a|e] l'] w']; cbn [fst snd] in *; subst l'.
  - apply (Hk a l w' Hdb).
  - eauto.
Qed.

Lemma create_always_throws d0 {L B} E args stored (k : Id -> M L B) :
  first_post_by_slug d0 (a_slug args) = Some stored ->
  always_throws d0
    (bind (convex_call E (MutationPostsCreate args) (posts_create args)) k).
Proof.
  intros Hf l w Hw.
  assert (Hf' : first_post_by_slug (db w) (a_slug args) = Some stored).
  { unfold first_post_by_slug. unfold same_posts in Hw. now rewrite Hw. }
  unfold bind, convex_call, posts_create, result_of, locals_of, world_of.
  cbn [db clock requests uploads trace].
  destruct (transport E (requests w)); [|rewrite Hf']; cbn; eauto.
Qed.

Lemma categories_create_same_posts d0 name slug description :
  handler_keeps (same_posts d0) (categories_create name slug description).
Proof.
  intros d now H. unfold categories_create.
  now destruct (first_category_by_slug d slug).
Qed.

Lemma import_attempt_throws E post stored d0 :
  first_post_by_slug d0 (BasicImporter.slug post) = Some stored ->
  always_throws d0 (BasicImporter.import_attempt E post).
Proof.
  intros Hf.
  pose proof (categories_create_same_posts d0) as Hcat.
  unfold BasicImporter.import_attempt.
  apply always_throws_bind.
  { unfold BasicImporter.convertContentToMarkdown, BasicImporter.migrate_inline,
      Importer.replace_url, BasicImporter.migrateImage.
    cbv zeta. keeps_db_tac. }
  { unfold BasicImporter.convertContentToMarkdown, BasicImporter.migrate_inline,
      Importer.replace_url, BasicImporter.migrateImage.
    cbv zeta. keeps_locals_tac. }
  intros content. apply always_throws_bind; [keeps_db_tac | keeps_locals_tac |].
  intros excerpt. apply always_throws_bind.
  { unfold BasicImporter.getOrCreateCategory. cbv zeta. keeps_db_tac. }
  { unfold BasicImporter.getOrCreateCategory. cbv zeta. keeps_locals_tac. }
  intros categoryId. apply always_throws_bind.
  { unfold BasicImporter.migrateImage. cbv zeta. keeps_db_tac. }
  { unfold BasicImporter.migrateImage. cbv zeta. keeps_locals_tac. }
  intros featuredImage. cbv zeta.
  now apply (create_always_throws d0 E _ stored).
Qed.

(** X30.  The importer without the existence check does not import a post
    whose slug is stored: whatever the converter, the image store and
    the connection do, the turn of the loop ends in its [catch] block,
    counts one failure and no success, prints the message and returns,
    and the posts of the store are as they were. *)
Theorem older_importer_fails_on_a_stored_slug (E : Env) (total i : nat)
  (post : BasicImporter.WordPressPost) (c : BasicImporter.Counters)
  (w : World) (stored : Post) :
  first_post_by_slug (db w) (BasicImporter.slug post) = Some stored ->
  exists error w1,
    BasicImporter.import_post E total i post c w =
      (Ok tt, BasicImporter.incr_fail c,
       emit (Console (FailedToImport error)) w1)
    /\ posts (db w1) = posts (db w).
Proof.
  intros Hf.
  destruct (import_attempt_throws E post stored (db w) Hf c
              (emit (Console (Processing (i + 1) total
                                (BasicImporter.title post))) w))
    as ([error Hr] & Hl & Hp); [reflexivity|].
  unfold BasicImporter.import_post, bind, log, try_catch, update.
  unfold result_of, locals_of, world_of, same_posts in *.
  destruct (BasicImporter.import_attempt E post c _) as [[r l'] w1].
  cbn [fst snd] in *. subst r l'. now exists error, w1.
Qed.

Lemma older_importer_fails_on_a_stored_slug_witness :
  exists error w1,
    BasicImporter.import_post (Sample.working (fun _ => "ID") false) 1 0
      (basic_post_with_slug "hello" None)
      {| BasicImporter.successCount := 0; BasicImporter.failCount := 0 |}
      (Sample.start (Sample.db_with (Sample.stored_post 0 "hello" None))) =
      (Ok tt,
       BasicImporter.incr_fail
         {| BasicImporter.successCount := 0; BasicImporter.failCount := 0 |},
       emit (Console (FailedToImport error)) w1)
    /\ posts (db w1) =
       posts (db (Sample.start
                    (Sample.db_with (Sample.stored_post 0 "hello" None)))).
Proof.
  apply (older_importer_fails_on_a_stored_slug
           (Sample.working (fun _ => "ID") false) 1 0
           (basic_post_with_slug "hello" None)
           {| BasicImporter.successCount := 0; BasicImporter.failCount := 0 |}
           (Sample.start (Sample.db_with (Sample.stored_post 0 "hello" None)))
           (Sample.stored_post 0 "hello" None)).
  reflexivity.
Defined.

End BasicRuns.
